(** * A leftist-heap priority queue with rollback: model and verification

    The development follows [src/priority_queue.hpp].  The C++ class keeps a
    pointer-linked tree of [Node]s that [meld] rewires in place, so the model
    keeps the same shape: a node store indexed by addresses, queue objects
    that hold a root pointer, an element counter and a comparator, and
    operations written in a small state-and-exception monad.  Two queue
    objects are the same object exactly when their addresses are equal, which
    is what [this == &other] tests.

    The user-supplied pieces (the element type, the ordering predicate, the
    copy constructor of the elements) are section variables.  A call of the
    predicate or of the copy constructor may throw at any time; both read
    and update an environment [W] that the container never inspects, so a
    predicate that throws at its n-th call is covered.

    Recursion over the store ([meld], [clone], [clear]) takes fuel; the
    operations give it one unit per live node, which is enough on every tree
    (see [meld_refines], [clone_spec], [clear_spec]), and a run out of fuel
    is undefined behaviour.  The counter is a [size_t] and wraps; the
    null-path length is an [int], modelled by an unbounded integer that never
    leaves the range of [int] (see [npl_fits_int]). *)

From stdpp Require Import gmap list.
From Stdlib Require Import ZArith Lia.

#[local] Set Warnings "-clear-no-such-hyp".
#[local] Set Default Proof Using "Type".

(** Addresses of nodes and of queue objects are positive numbers; a pointer
    is an address or null. *)
Abbreviation ptr := (option positive).

(** [size_t] is a 64-bit unsigned integer; arithmetic on it wraps. *)
Definition size_t_modulus : Z := 2 ^ 64.
Definition wrap (z : Z) : Z := z mod size_t_modulus.

(** Modelled from the spec: [exceptions.hpp], which declares the exception
    classes, is not among the sources.  [container_is_empty] is the spec's
    EmptyContainer and [runtime_error] its OperationFailed, the two exceptions
    the queue throws itself; [bad_alloc] comes from [operator new];
    [thrown e] is whatever user code threw. *)
Inductive exn (E : Type) : Type :=
  | container_is_empty
  | runtime_error
  | bad_alloc
  | thrown (e : E).
Arguments container_is_empty {E}.
Arguments runtime_error {E}.
Arguments bad_alloc {E}.
Arguments thrown {E} e.

(** Outcome of a computation: a value, an exception in flight, or undefined
    behaviour (a dangling pointer, a missing object, or a recursion that did
    not finish within its fuel). *)
Inductive res (E A : Type) : Type :=
  | Ok (a : A)
  | Throw (e : exn E)
  | Undefined.
Arguments Ok {E A} a.
Arguments Throw {E A} e.
Arguments Undefined {E A}.

Section PriorityQueue.

Variable T : Type.
Variable Compare : Type.
Variable E : Type.
Variable W : Type.

(** [Compare()], the default-constructed predicate. *)
Variable Compare_default : Compare.
(** [comp(x, y)]: returns a boolean or throws. *)
Variable call : Compare → T → T → W → W * (E + bool).
(** The copy constructor of [T]: the copy equals the original, unless the
    constructor throws ([Some e]). *)
Variable copy_T : T → W → W * option E.
(** The number of nodes the allocator can hand out at once; [new] throws
    [bad_alloc] beyond it. *)
Variable max_nodes : nat.

(** ** Data model *)

(** [struct Node]: the element, the two child pointers and the null-path
    length. *)
Record Node : Type := mkNode {
  val : T;
  l : ptr;
  r : ptr;
  npl : Z
}.

(** The members of a [priority_queue] object. *)
Record pq : Type := mkPq {
  root : ptr;
  cnt : Z;
  comp : Compare
}.

(** The program state: the environment of the user code, the nodes on the
    free store by address, and the queue objects by address. *)
Record state : Type := mkState {
  world : W;
  nodes : gmap positive Node;
  queues : gmap positive pq
}.

(** Number of live nodes. *)
Definition node_count (s : state) : nat := size (nodes s).

Definition set_world (w : W) (s : state) : state :=
  mkState w (nodes s) (queues s).
Definition set_nodes (h : gmap positive Node) (s : state) : state :=
  mkState (world s) h (queues s).
Definition set_queues (g : gmap positive pq) (s : state) : state :=
  mkState (world s) (nodes s) g.

(** ** The monad of operations *)

Definition M (A : Type) : Type := state → state * res E A.

Definition ret {A} (a : A) : M A := λ s, (s, Ok a).
Definition throw {A} (e : exn E) : M A := λ s, (s, Throw e).
Definition undefined {A} : M A := λ s, (s, Undefined).
Definition bind {A B} (m : M A) (k : A → M B) : M B := λ s,
  match m s with
  | (s', Ok a) => k a s'
  | (s', Throw e) => (s', Throw e)
  | (s', Undefined) => (s', Undefined)
  end.
(** [try { m } catch (...) { h }] *)
Definition try_catch {A} (m : M A) (h : M A) : M A := λ s,
  match m s with
  | (s', Throw _) => h s'
  | other => other
  end.

Notation "x <- m ;; k" := (bind m (λ x, k))
  (at level 100, m at next level, right associativity).
Notation "m ;;; k" := (bind m (λ _, k))
  (at level 100, right associativity).

(** ** Memory primitives *)

Definition load (p : positive) : M Node := λ s,
  match nodes s !! p with
  | Some n => (s, Ok n)
  | None => (s, Undefined)
  end.

Definition store (p : positive) (n : Node) : M unit := λ s,
  match nodes s !! p with
  | Some _ => (set_nodes (<[p := n]> (nodes s)) s, Ok tt)
  | None => (s, Undefined)
  end.

Definition get_val (p : positive) : M T := n <- load p ;; ret (val n).
Definition get_l (p : positive) : M ptr := n <- load p ;; ret (l n).
Definition get_r (p : positive) : M ptr := n <- load p ;; ret (r n).
Definition get_npl_field (p : positive) : M Z := n <- load p ;; ret (npl n).

Definition set_l (p : positive) (x : ptr) : M unit :=
  n <- load p ;; store p (mkNode (val n) x (r n) (npl n)).
Definition set_r (p : positive) (x : ptr) : M unit :=
  n <- load p ;; store p (mkNode (val n) (l n) x (npl n)).
Definition set_npl (p : positive) (k : Z) : M unit :=
  n <- load p ;; store p (mkNode (val n) (l n) (r n) k).

(** [new Node(v)]: [operator new] throws [bad_alloc] when the allocator is
    exhausted; then the constructor copies [v], and a throwing copy gives the
    memory back. The fresh node has no children and null-path length 1. *)
Definition new_Node (v : T) : M positive := λ s,
  if decide (node_count s < max_nodes) then
    match copy_T v (world s) with
    | (w', Some e) => (set_world w' s, Throw (thrown e))
    | (w', None) =>
        let p := fresh (dom (nodes s)) in
        (mkState w' (<[p := mkNode v None None 1]> (nodes s)) (queues s), Ok p)
    end
  else (s, Throw bad_alloc).

(** [delete p] *)
Definition delete_node (p : positive) : M unit := λ s,
  match nodes s !! p with
  | Some _ => (set_nodes (delete p (nodes s)) s, Ok tt)
  | None => (s, Undefined)
  end.

(** [comp(x, y)] *)
Definition comp_call (c : Compare) (x y : T) : M bool := λ s,
  match call c x y (world s) with
  | (w', inl e) => (set_world w' s, Throw (thrown e))
  | (w', inr b) => (set_world w' s, Ok b)
  end.

(** ** Private helpers of the class *)

Definition get_npl (x : ptr) : M Z :=
  match x with
  | Some p => get_npl_field p
  | None => ret 0%Z
  end.

(** [meld]: the fuel bounds the number of nested frames that compare. *)
Fixpoint meld (fuel : nat) (c : Compare) (a b : ptr) : M ptr :=
  match a, b with
  | None, _ => ret b
  | _, None => ret a
  | Some pa, Some pb =>
      match fuel with
      | O => undefined
      | S fuel' =>
          va <- get_val pa ;;
          vb <- get_val pb ;;
          less <- comp_call c va vb ;;
          let a := if less : bool then pb else pa in
          let b := if less : bool then pa else pb in
          ar <- get_r a ;;
          newRight <- meld fuel' c ar (Some b) ;;
          set_r a newRight ;;;
          al <- get_l a ;;
          ar <- get_r a ;;
          kl <- get_npl al ;;
          kr <- get_npl ar ;;
          (if (kl <? kr)%Z then
             tmp <- get_l a ;;
             ar <- get_r a ;;
             set_l a ar ;;;
             set_r a tmp
           else ret tt) ;;;
          ar <- get_r a ;;
          kr <- get_npl ar ;;
          set_npl a (kr + 1)%Z ;;;
          ret (Some a)
      end
  end.

Fixpoint clone (fuel : nat) (x : ptr) : M ptr :=
  match x with
  | None => ret None
  | Some p =>
      match fuel with
      | O => undefined
      | S fuel' =>
          v <- get_val p ;;
          t <- new_Node v ;;
          k <- get_npl_field p ;;
          set_npl t k ;;;
          xl <- get_l p ;;
          cl <- clone fuel' xl ;;
          set_l t cl ;;;
          xr <- get_r p ;;
          cr <- clone fuel' xr ;;
          set_r t cr ;;;
          ret (Some t)
      end
  end.

Fixpoint clear (fuel : nat) (x : ptr) : M unit :=
  match x with
  | None => ret tt
  | Some p =>
      match fuel with
      | O => undefined
      | S fuel' =>
          xl <- get_l p ;;
          clear fuel' xl ;;;
          xr <- get_r p ;;
          clear fuel' xr ;;;
          delete_node p
      end
  end.

(** A tree inside the store has at most as many nodes as the store, which
    bounds the depth of every recursion over it. *)
Definition meld_run (c : Compare) (a b : ptr) : M ptr := λ s,
  meld (node_count s) c a b s.
Definition clone_run (x : ptr) : M ptr := λ s, clone (node_count s) x s.
Definition clear_run (x : ptr) : M unit := λ s, clear (node_count s) x s.

(** ** Access to the members of a queue object *)

Definition get_queue (this : positive) : M pq := λ s,
  match queues s !! this with
  | Some q => (s, Ok q)
  | None => (s, Undefined)
  end.
Definition put_queue (this : positive) (q : pq) : M unit := λ s,
  match queues s !! this with
  | Some _ => (set_queues (<[this := q]> (queues s)) s, Ok tt)
  | None => (s, Undefined)
  end.

Definition get_root (this : positive) : M ptr := q <- get_queue this ;; ret (root q).
Definition get_cnt (this : positive) : M Z := q <- get_queue this ;; ret (cnt q).
Definition get_comp (this : positive) : M Compare := q <- get_queue this ;; ret (comp q).
Definition set_root (this : positive) (x : ptr) : M unit :=
  q <- get_queue this ;; put_queue this (mkPq x (cnt q) (comp q)).
Definition set_cnt (this : positive) (k : Z) : M unit :=
  q <- get_queue this ;; put_queue this (mkPq (root q) k (comp q)).
Definition set_comp (this : positive) (c : Compare) : M unit :=
  q <- get_queue this ;; put_queue this (mkPq (root q) (cnt q) c).

(** ** Public operations *)

(** [priority_queue()] builds an object in storage that holds none. *)
Definition construct (this : positive) : M unit := λ s,
  match queues s !! this with
  | Some _ => (s, Undefined)
  | None => (set_queues (<[this := mkPq None 0 Compare_default]> (queues s)) s, Ok tt)
  end.

(** [priority_queue(const priority_queue &other)] *)
Definition copy_construct (this other : positive) : M unit :=
  oroot <- get_root other ;;
  newRoot <- clone_run oroot ;;
  ocnt <- get_cnt other ;;
  ocomp <- get_comp other ;;
  λ s, match queues s !! this with
       | Some _ => (s, Undefined)
       | None => (set_queues (<[this := mkPq newRoot ocnt ocomp]> (queues s)) s, Ok tt)
       end.

(** [~priority_queue()] *)
Definition destroy (this : positive) : M unit :=
  rt <- get_root this ;;
  clear_run rt ;;;
  set_root this None ;;;
  set_cnt this 0 ;;;
  λ s, (set_queues (delete this (queues s)) s, Ok tt).

(** [operator=]; the result is the reference [*this]. *)
Definition assign (this other : positive) : M positive :=
  if decide (this = other) then ret this else
  oroot <- get_root other ;;
  newRoot <- clone_run oroot ;;
  rt <- get_root this ;;
  clear_run rt ;;;
  set_root this newRoot ;;;
  ocnt <- get_cnt other ;;
  set_cnt this ocnt ;;;
  ocomp <- get_comp other ;;
  set_comp this ocomp ;;;
  ret this.

Definition size (this : positive) : M Z := get_cnt this.

Definition empty (this : positive) : M bool :=
  k <- get_cnt this ;; ret (k =? 0)%Z.

Definition top (this : positive) : M T :=
  e <- empty this ;;
  if e : bool then throw container_is_empty else
  rt <- get_root this ;;
  match rt with
  | Some p => get_val p
  | None => undefined
  end.

Definition push (this : positive) (e : T) : M unit :=
  node <- new_Node e ;;
  try_catch
    (rt <- get_root this ;;
     c <- get_comp this ;;
     newRoot <- meld_run c rt (Some node) ;;
     set_root this newRoot ;;;
     k <- get_cnt this ;;
     set_cnt this (wrap (k + 1)))
    (delete_node node ;;;
     throw runtime_error).

Definition pop (this : positive) : M unit :=
  e <- empty this ;;
  if e : bool then throw container_is_empty else
  old <- get_root this ;;
  try_catch
    (rt <- get_root this ;;
     match rt with
     | None => undefined
     | Some p =>
         rl <- get_l p ;;
         rr <- get_r p ;;
         c <- get_comp this ;;
         newRoot <- meld_run c rl rr ;;
         set_root this newRoot ;;;
         k <- get_cnt this ;;
         set_cnt this (wrap (k - 1)) ;;;
         match old with
         | Some o => delete_node o
         | None => ret tt
         end
     end)
    (set_root this old ;;;
     throw runtime_error).

Definition merge (this other : positive) : M unit :=
  if decide (this = other) then ret tt else
  oe <- empty other ;;
  if oe : bool then ret tt else
  try_catch
    (rt <- get_root this ;;
     ort <- get_root other ;;
     c <- get_comp this ;;
     newRoot <- meld_run c rt ort ;;
     set_root this newRoot ;;;
     k <- get_cnt this ;;
     ok <- get_cnt other ;;
     set_cnt this (wrap (k + ok)) ;;;
     set_root other None ;;;
     set_cnt other 0)
    (throw runtime_error).

(** ** Logical view of a queue: the tree that the pointers spell out *)

Inductive tree : Type :=
  | Leaf
  | Bin (p : positive) (x : T) (k : Z) (tl tr : tree).

Definition rootp (t : tree) : ptr :=
  match t with Leaf => None | Bin p _ _ _ _ => Some p end.

(** The stored null-path length, 0 for an absent child. *)
Definition rank (t : tree) : Z :=
  match t with Leaf => 0%Z | Bin _ _ k _ _ => k end.

Fixpoint addrs (t : tree) : list positive :=
  match t with
  | Leaf => []
  | Bin p _ _ tl tr => p :: addrs tl ++ addrs tr
  end.

Fixpoint elems (t : tree) : list T :=
  match t with
  | Leaf => []
  | Bin _ x _ tl tr => x :: elems tl ++ elems tr
  end.

Fixpoint tsize (t : tree) : nat :=
  match t with
  | Leaf => O
  | Bin _ _ _ tl tr => S (tsize tl + tsize tr)
  end.

(** [stored h t]: every node of [t] sits in the store [h] at its address,
    with exactly the fields that [t] shows. *)
Fixpoint stored (h : gmap positive Node) (t : tree) : Prop :=
  match t with
  | Leaf => True
  | Bin p x k tl tr =>
      h !! p = Some (mkNode x (rootp tl) (rootp tr) k)
      ∧ stored h tl ∧ stored h tr
  end.

(** [owns s q t]: the queue object [q] exists and its root pointer spells out
    the tree [t]. *)
Definition owns (s : state) (q : positive) (t : tree) : Prop :=
  ∃ o, queues s !! q = Some o ∧ rootp t = root o ∧ stored (nodes s) t.

(** ** Invariants *)

(** The strict weak ordering that the predicate computes whenever it returns. *)
Variable lt : T → T → bool.

(** [dominates x t]: the root of [t], if any, is not greater than [x]. *)
Definition dominates (x : T) (t : tree) : Prop :=
  match t with Leaf => True | Bin _ y _ _ _ => lt x y = false end.

Fixpoint heap_ordered (t : tree) : Prop :=
  match t with
  | Leaf => True
  | Bin _ x _ tl tr =>
      dominates x tl ∧ dominates x tr ∧ heap_ordered tl ∧ heap_ordered tr
  end.

Fixpoint leftist (t : tree) : Prop :=
  match t with
  | Leaf => True
  | Bin _ _ k tl tr =>
      (rank tr ≤ rank tl)%Z ∧ k = (rank tr + 1)%Z ∧ leftist tl ∧ leftist tr
  end.

(** [relabel t t']: the same tree at other addresses. *)
Fixpoint relabel (t t' : tree) : Prop :=
  match t, t' with
  | Leaf, Leaf => True
  | Bin _ x k tl tr, Bin _ x' k' tl' tr' =>
      x' = x ∧ k' = k ∧ relabel tl tl' ∧ relabel tr tr'
  | _, _ => False
  end.

(** What ties a queue object to its tree; [P] is the property of trees under
    study (the leftist property, heap order). *)
Definition queue_ok (P : tree → Prop) (h : gmap positive Node) (o : pq)
    (t : tree) : Prop :=
  rootp t = root o ∧ stored h t ∧ NoDup (addrs t)
  ∧ cnt o = Z.of_nat (tsize t) ∧ comp o = Compare_default ∧ P t.

(** The global invariant, for the assignment [G] of trees to queue objects:
    the allocator's limit is respected, every queue owns its tree, and two
    queues share no node. *)
Definition inv_for (P : tree → Prop) (G : gmap positive tree) (s : state) : Prop :=
  node_count s ≤ max_nodes
  ∧ (∀ q o, queues s !! q = Some o →
       ∃ t, G !! q = Some t ∧ queue_ok P (nodes s) o t)
  ∧ (∀ q, queues s !! q = None → G !! q = None)
  ∧ (∀ q1 q2 t1 t2, q1 ≠ q2 → G !! q1 = Some t1 → G !! q2 = Some t2 →
       ∀ p, p ∈ addrs t1 → p ∈ addrs t2 → False).

Definition inv (P : tree → Prop) (s : state) : Prop := ∃ G, inv_for P G s.

(** [subtree u t]: [u] occurs in [t], as [t] itself or below one of its nodes. *)
Fixpoint subtree (u t : tree) : Prop :=
  u = t ∨ match t with
          | Leaf => False
          | Bin _ _ _ tl tr => subtree u tl ∨ subtree u tr
          end.

(** ** Client programs *)

Inductive op : Type :=
  | OpConstruct (q : positive)
  | OpCopyConstruct (q other : positive)
  | OpDestroy (q : positive)
  | OpAssign (q other : positive)
  | OpTop (q : positive)
  | OpPush (q : positive) (e : T)
  | OpPop (q : positive)
  | OpSize (q : positive)
  | OpEmpty (q : positive)
  | OpMerge (q other : positive).

(** A call on an object that does not exist (never constructed, or already
    destroyed) is undefined. *)
Definition on_objects (qs : list positive) (m : M unit) : M unit := λ s,
  if decide (Forall (λ q, is_Some (queues s !! q)) qs) then m s
  else (s, Undefined).

Definition exec (o : op) : M unit :=
  match o with
  | OpConstruct q => construct q
  | OpCopyConstruct q other => on_objects [other] (copy_construct q other)
  | OpDestroy q => on_objects [q] (destroy q)
  | OpAssign q other => on_objects [q; other] (assign q other ;;; ret tt)
  | OpTop q => on_objects [q] (top q ;;; ret tt)
  | OpPush q e => on_objects [q] (push q e)
  | OpPop q => on_objects [q] (pop q)
  | OpSize q => on_objects [q] (size q ;;; ret tt)
  | OpEmpty q => on_objects [q] (empty q ;;; ret tt)
  | OpMerge q other => on_objects [q; other] (merge q other)
  end.

(** States a client can bring about: it starts with no object at all and
    calls public operations, whether they return or throw, but stays clear of
    undefined behaviour. *)
Inductive reachable : state → Prop :=
  | reachable_init w : reachable (mkState w ∅ ∅)
  | reachable_step s o s' x :
      reachable s → exec o s = (s', x) → x ≠ Undefined → reachable s'.

(** A client program: a list of calls, run one after the other from the
    state without objects; the run stops where a call is undefined. *)
Fixpoint run (ops : list op) (s : state) : state :=
  match ops with
  | [] => s
  | o :: ops' =>
      match exec o s with
      | (_, Undefined) => s
      | (s', _) => run ops' s'
      end
  end.

Definition run_from (w : W) (ops : list op) : state := run ops (mkState w ∅ ∅).

(** The part of [meld] that runs after the recursive call has returned. *)
Definition meld_commit (a : positive) (newRight : ptr) : M ptr :=
  set_r a newRight ;;;
  al <- get_l a ;;
  ar <- get_r a ;;
  kl <- get_npl al ;;
  kr <- get_npl ar ;;
  (if (kl <? kr)%Z then
     tmp <- get_l a ;;
     ar <- get_r a ;;
     set_l a ar ;;;
     set_r a tmp
   else ret tt) ;;;
  ar <- get_r a ;;
  kr <- get_npl ar ;;
  set_npl a (kr + 1)%Z ;;;
  ret (Some a).

(** ** What [meld] computes, on trees

    [join p x tl t1] is the node at [p] after one frame has committed: [t1]
    was attached on the right, the children were swapped if the left rank was
    smaller, and the rank was recomputed. *)
Definition join (p : positive) (x : T) (tl t1 : tree) : tree :=
  if (rank tl <? rank t1)%Z
  then Bin p x (rank tl + 1) t1 tl
  else Bin p x (rank t1 + 1) tl t1.

(** [melded c ta tb t]: [t] is a result of melding [ta] and [tb] when the
    predicate [c] answers every comparison on the way. *)
Inductive melded (c : Compare) : tree → tree → tree → Prop :=
  | melded_left_absent tb : melded c Leaf tb tb
  | melded_right_absent ta : melded c ta Leaf ta
  | melded_keep pa xa ka la ra pb xb kb lb rb w w' t1 :
      call c xa xb w = (w', inr false) →
      melded c ra (Bin pb xb kb lb rb) t1 →
      melded c (Bin pa xa ka la ra) (Bin pb xb kb lb rb) (join pa xa la t1)
  | melded_swap pa xa ka la ra pb xb kb lb rb w w' t1 :
      call c xa xb w = (w', inr true) →
      melded c rb (Bin pa xa ka la ra) t1 →
      melded c (Bin pa xa ka la ra) (Bin pb xb kb lb rb) (join pb xb lb t1).

(** What a run of [meld] on the trees [ta] and [tb] may end in: either the
    predicate threw and the store is as it was, or the result is a melded
    tree laid out in the store, and nothing outside the two trees moved. *)
Definition meld_post (c : Compare) (ta tb : tree) (s s' : state)
    (x : res E ptr) : Prop :=
  queues s' = queues s
  ∧ ((∃ u, x = Throw (thrown u)) ∧ nodes s' = nodes s
     ∨ ∃ t, x = Ok (rootp t) ∧ melded c ta tb t ∧ stored (nodes s') t
         ∧ (∀ p, p ∉ addrs ta ++ addrs tb → nodes s' !! p = nodes s !! p)
         ∧ dom (nodes s') = dom (nodes s)).

(** What a run of [clone] on the tree [t] may end in: the cells that were
    live stay as they were, the allocator's limit is respected, and the
    result, if any, is a copy of [t] made of new nodes. *)
Definition clone_post (t : tree) (s s' : state) (x : res E ptr) : Prop :=
  queues s' = queues s
  ∧ node_count s' ≤ max_nodes
  ∧ (∀ p, is_Some (nodes s !! p) → nodes s' !! p = nodes s !! p)
  ∧ ((∃ e, x = Throw e)
     ∨ ∃ t', x = Ok (rootp t') ∧ relabel t t' ∧ stored (nodes s') t'
          ∧ NoDup (addrs t') ∧ ∀ p, p ∈ addrs t' → nodes s !! p = None).

(** What a client can see of the queues is the same in [s] and [s']: the
    answers of [size()] and [top()], and the tree of elements of every
    queue. *)
Definition same_observations (s s' : state) : Prop :=
  ∀ q, (size q s').2 = (size q s).2
       ∧ (top q s').2 = (top q s).2
       ∧ ∀ t, owns s q t ↔ owns s' q t.

(** Proofs by automation should not pick up parameters of the model that
    their statement does not mention. *)
Ltac tidy :=
  try clear lt; try clear copy_T; try clear max_nodes;
  try clear call; try clear Compare_default.

(** ** Basic facts about the monad and the primitives *)

Lemma meld_unfold fuel c pa pb :
  meld (S fuel) c (Some pa) (Some pb) =
  (va <- get_val pa ;;
   vb <- get_val pb ;;
   less <- comp_call c va vb ;;
   ar <- get_r (if less : bool then pb else pa) ;;
   newRight <- meld fuel c ar (Some (if less : bool then pa else pb)) ;;
   meld_commit (if less : bool then pb else pa) newRight).
Proof. reflexivity. Qed.

Lemma meld_commit_no_throw a newRight s s' e :
  meld_commit a newRight s ≠ (s', Throw e).
Proof.
  unfold meld_commit, set_r, set_l, set_npl, get_l, get_r, get_npl,
    get_npl_field, bind, load, store, ret.
  intros H. repeat (case_match; simplify_eq/=).
Qed.

Lemma bind_throw {A B} (m : M A) (k : A → M B) s s' e :
  bind m k s = (s', Throw e) →
  m s = (s', Throw e) ∨ ∃ a s1, m s = (s1, Ok a) ∧ k a s1 = (s', Throw e).
Proof.
  unfold bind. destruct (m s) as [s1 [a| e1|]]; intros H.
  - right. eauto.
  - left. congruence.
  - discriminate.
Qed.

Lemma bind_ok {A B} (m : M A) (k : A → M B) s s1 a :
  m s = (s1, Ok a) → bind m k s = k a s1.
Proof. unfold bind. by intros ->. Qed.

Lemma load_inv p s s' x :
  load p s = (s', x) →
  s' = s ∧ (x = Undefined ∧ nodes s !! p = None
            ∨ ∃ n, x = Ok n ∧ nodes s !! p = Some n).
Proof.
  unfold load. destruct (nodes s !! p) as [n|]; intros; simplify_eq; eauto.
Qed.

Lemma get_val_no_throw p s s' e : get_val p s ≠ (s', Throw e).
Proof.
  unfold get_val, bind, load, ret.
  destruct (nodes s !! p); intros; simplify_eq; done.
Qed.

Lemma get_val_ok p s s' v : get_val p s = (s', Ok v) → s' = s.
Proof.
  unfold get_val, bind, load, ret.
  destruct (nodes s !! p); intros; simplify_eq; done.
Qed.

Lemma get_r_no_throw p s s' e : get_r p s ≠ (s', Throw e).
Proof.
  unfold get_r, bind, load, ret.
  destruct (nodes s !! p); intros; simplify_eq; done.
Qed.

Lemma get_r_ok p s s' v : get_r p s = (s', Ok v) → s' = s.
Proof.
  unfold get_r, bind, load, ret.
  destruct (nodes s !! p); intros; simplify_eq; done.
Qed.

Lemma comp_call_inv c x y s s' o :
  comp_call c x y s = (s', o) →
  nodes s' = nodes s ∧ queues s' = queues s
  ∧ ((∃ b, o = Ok b ∧ ∃ w, call c x y (world s) = (w, inr b))
     ∨ (∃ u, o = Throw (thrown u) ∧ ∃ w, call c x y (world s) = (w, inl u))).
Proof.
  unfold comp_call. destruct (call c x y (world s)) as [w [u|b]];
    intros; simplify_eq/=; eauto 10.
Qed.

(** *** The heart of the rollback: when [meld] ends in an exception, no node
    and no queue object has been written.  Every frame compares first, then
    recurses, and writes only after the recursive call has returned, so the
    whole chain of comparisons precedes the first write.  The exception is
    one that a call of the predicate threw. *)
Lemma meld_throw fuel c a b s s' e :
  meld fuel c a b s = (s', Throw e) →
  nodes s' = nodes s ∧ queues s' = queues s
  ∧ ∃ u x y w w', e = thrown u ∧ call c x y w = (w', inl u).
Proof.
  revert a b s.
  induction fuel as [|fuel IH]; intros [pa|] [pb|] s H; try discriminate.
  rewrite meld_unfold in H.
  apply bind_throw in H as [H|(va & s1 & Hva & H)];
    [by apply get_val_no_throw in H|].
  apply get_val_ok in Hva as ->.
  apply bind_throw in H as [H|(vb & s1 & Hvb & H)];
    [by apply get_val_no_throw in H|].
  apply get_val_ok in Hvb as ->.
  apply bind_throw in H as [H|(less & s1 & Hc & H)].
  { apply comp_call_inv in H as (? & ? & [(? & ? & _)|(u & ? & w & ?)]);
      simplify_eq. eauto 10. }
  apply comp_call_inv in Hc as (Hn & Hq & _).
  apply bind_throw in H as [H|(ar & s2 & Har & H)];
    [by apply get_r_no_throw in H|].
  apply get_r_ok in Har as ->.
  apply bind_throw in H as [H|(nr & s2 & _ & H)].
  - apply IH in H as (? & ? & ?). split_and!; [congruence..|done].
  - by apply meld_commit_no_throw in H.
Qed.

(** *** Reading and writing fields of a live node *)

Lemma get_val_live p n s : nodes s !! p = Some n → get_val p s = (s, Ok (val n)).
Proof. unfold get_val, bind, load, ret. by intros ->. Qed.

Lemma get_l_live p n s : nodes s !! p = Some n → get_l p s = (s, Ok (l n)).
Proof. unfold get_l, bind, load, ret. by intros ->. Qed.

Lemma get_r_live p n s : nodes s !! p = Some n → get_r p s = (s, Ok (r n)).
Proof. unfold get_r, bind, load, ret. by intros ->. Qed.

Lemma get_npl_field_live p n s :
  nodes s !! p = Some n → get_npl_field p s = (s, Ok (npl n)).
Proof. unfold get_npl_field, bind, load, ret. by intros ->. Qed.

Lemma set_l_live p n x s :
  nodes s !! p = Some n →
  set_l p x s = (set_nodes (<[p := mkNode (val n) x (r n) (npl n)]> (nodes s)) s, Ok tt).
Proof. unfold set_l, bind, load, store. intros H. rewrite H. simpl. by rewrite H. Qed.

Lemma set_r_live p n x s :
  nodes s !! p = Some n →
  set_r p x s = (set_nodes (<[p := mkNode (val n) (l n) x (npl n)]> (nodes s)) s, Ok tt).
Proof. unfold set_r, bind, load, store. intros H. rewrite H. simpl. by rewrite H. Qed.

Lemma set_npl_live p n k s :
  nodes s !! p = Some n →
  set_npl p k s = (set_nodes (<[p := mkNode (val n) (l n) (r n) k]> (nodes s)) s, Ok tt).
Proof. unfold set_npl, bind, load, store. intros H. rewrite H. simpl. by rewrite H. Qed.

Lemma set_nodes_twice h1 h2 s : set_nodes h2 (set_nodes h1 s) = set_nodes h2 s.
Proof. reflexivity. Qed.

(** *** Trees in the store *)

Lemma length_addrs t : length (addrs t) = tsize t.
Proof. induction t; simpl; [done|]. rewrite length_app. lia. Qed.

Lemma length_elems t : length (elems t) = tsize t.
Proof. induction t; simpl; [done|]. rewrite length_app. lia. Qed.

Lemma stored_live h t p : stored h t → p ∈ addrs t → is_Some (h !! p).
Proof.
  induction t as [|q x k tl IHl tr IHr]; simpl; [by intros _ ?%elem_of_nil|].
  intros (Hq & Hl & Hr) [->|[?|?]%elem_of_app]%elem_of_cons; eauto.
Qed.

(** A tree only depends on the cells at its own addresses. *)
Lemma stored_frame h h' t :
  stored h t → (∀ p, p ∈ addrs t → h' !! p = h !! p) → stored h' t.
Proof.
  induction t as [|q x k tl IHl tr IHr]; simpl; [done|].
  intros (Hq & Hl & Hr) Hfr. split_and!.
  - rewrite Hfr; [done|]. apply elem_of_cons; by left.
  - apply IHl; [done|]. intros p Hp. apply Hfr.
    apply elem_of_cons; right. apply elem_of_app; by left.
  - apply IHr; [done|]. intros p Hp. apply Hfr.
    apply elem_of_cons; right. apply elem_of_app; by right.
Qed.

Lemma stored_insert h t p n : p ∉ addrs t → stored h t → stored (<[p := n]> h) t.
Proof.
  intros Hp Hst. apply (stored_frame h); [done|].
  intros q Hq. apply lookup_insert_ne. by intros ->.
Qed.

Lemma stored_delete h t p : p ∉ addrs t → stored h t → stored (delete p h) t.
Proof.
  intros Hp Hst. apply (stored_frame h); [done|].
  intros q Hq. apply lookup_delete_ne. by intros ->.
Qed.

(** The store and the root pointer determine the tree. *)
Lemma stored_unique h t t' :
  stored h t → stored h t' → rootp t = rootp t' → t = t'.
Proof.
  revert t'. induction t as [|q x k tl IHl tr IHr]; intros [|q' x' k' tl' tr'];
    simpl; try done.
  intros (Hq & Hl & Hr) (Hq' & Hl' & Hr') [= <-].
  rewrite Hq in Hq'. injection Hq' as <- Hrl Hrr <-.
  f_equal; auto.
Qed.

Lemma get_npl_stored s t :
  stored (nodes s) t → get_npl (rootp t) s = (s, Ok (rank t)).
Proof.
  destruct t as [|p x k tl tr]; simpl; [done|].
  intros (Hp & _). by rewrite (get_npl_field_live _ _ _ Hp).
Qed.

(** What the writes of one frame of [meld] amount to: the new right subtree
    is attached, the children are swapped when the left one has the smaller
    rank, and the rank is recomputed from the right child. *)
Lemma meld_commit_spec s a x r0 k0 tl t1 :
  nodes s !! a = Some (mkNode x (rootp tl) r0 k0) →
  stored (nodes s) tl → stored (nodes s) t1 →
  a ∉ addrs tl → a ∉ addrs t1 →
  let swap := (rank tl <? rank t1)%Z in
  let L := if swap then t1 else tl in
  let R := if swap then tl else t1 in
  meld_commit a (rootp t1) s =
    (set_nodes (<[a := mkNode x (rootp L) (rootp R) (rank R + 1)]> (nodes s)) s,
     Ok (Some a)).
Proof.
  intros Ha Hl H1 Hal Ha1 swap L R. unfold meld_commit.
  erewrite bind_ok by (by apply set_r_live).
  erewrite bind_ok by (apply get_l_live; simpl; apply lookup_insert_eq).
  erewrite bind_ok by (apply get_r_live; simpl; apply lookup_insert_eq).
  simpl.
  erewrite bind_ok by (apply get_npl_stored; simpl; by apply stored_insert).
  erewrite bind_ok by (apply get_npl_stored; simpl; by apply stored_insert).
  fold swap. subst L R. destruct swap.
  - erewrite bind_ok; last first.
    { erewrite bind_ok by (apply get_l_live; simpl; apply lookup_insert_eq).
      erewrite bind_ok by (apply get_r_live; simpl; apply lookup_insert_eq).
      erewrite bind_ok by (apply set_l_live; simpl; apply lookup_insert_eq).
      apply set_r_live; simpl; apply lookup_insert_eq. }
    simpl.
    erewrite bind_ok by (apply get_r_live; simpl; apply lookup_insert_eq).
    simpl.
    erewrite bind_ok
      by (apply get_npl_stored; simpl; rewrite !insert_insert_eq; by apply stored_insert).
    erewrite bind_ok by (apply set_npl_live; simpl; apply lookup_insert_eq).
    simpl. unfold ret, set_nodes. simpl. by rewrite !insert_insert_eq.
  - erewrite bind_ok by reflexivity.
    erewrite bind_ok by (apply get_r_live; simpl; apply lookup_insert_eq).
    simpl.
    erewrite bind_ok by (apply get_npl_stored; simpl; by apply stored_insert).
    erewrite bind_ok by (apply set_npl_live; simpl; apply lookup_insert_eq).
    simpl. unfold ret, set_nodes. simpl. by rewrite !insert_insert_eq.
Qed.

(** *** Properties of melded trees *)

Lemma addrs_join p x tl t1 : addrs (join p x tl t1) ≡ₚ p :: addrs tl ++ addrs t1.
Proof.
  unfold join. destruct (rank tl <? rank t1)%Z; simpl; [|done].
  by rewrite (comm (++) (addrs t1)).
Qed.

Lemma elems_join p x tl t1 : elems (join p x tl t1) ≡ₚ x :: elems tl ++ elems t1.
Proof.
  unfold join. destruct (rank tl <? rank t1)%Z; simpl; [|done].
  by rewrite (comm (++) (elems t1)).
Qed.

Lemma rootp_join p x tl t1 : rootp (join p x tl t1) = Some p.
Proof. unfold join. by destruct (rank tl <? rank t1)%Z. Qed.

Lemma melded_addrs c ta tb t : melded c ta tb t → addrs t ≡ₚ addrs ta ++ addrs tb.
Proof.
  induction 1 as [tb|ta|pa xa ka la ra pb xb kb lb rb w w' t1 _ _ IH
                 |pa xa ka la ra pb xb kb lb rb w w' t1 _ _ IH]; simpl.
  - done.
  - by rewrite app_nil_r.
  - rewrite addrs_join, IH. simpl. solve_Permutation.
  - rewrite addrs_join, IH. simpl. solve_Permutation.
Qed.

Lemma melded_elems c ta tb t : melded c ta tb t → elems t ≡ₚ elems ta ++ elems tb.
Proof.
  induction 1 as [tb|ta|pa xa ka la ra pb xb kb lb rb w w' t1 _ _ IH
                 |pa xa ka la ra pb xb kb lb rb w w' t1 _ _ IH]; simpl.
  - done.
  - by rewrite app_nil_r.
  - rewrite elems_join, IH. simpl. solve_Permutation.
  - rewrite elems_join, IH. simpl. solve_Permutation.
Qed.

Lemma melded_tsize c ta tb t : melded c ta tb t → tsize t = tsize ta + tsize tb.
Proof.
  intros H%melded_addrs%Permutation_length.
  rewrite length_app, !length_addrs in H. done.
Qed.

Lemma leftist_join p x tl t1 : leftist tl → leftist t1 → leftist (join p x tl t1).
Proof.
  unfold join. intros Hl H1.
  destruct (rank tl <? rank t1)%Z eqn:Hlt; simpl; split_and!; try done; lia.
Qed.

Lemma melded_leftist c ta tb t :
  melded c ta tb t → leftist ta → leftist tb → leftist t.
Proof.
  induction 1; simpl; try done.
  - intros (_ & _ & Hl & Hr) Hb. apply leftist_join; auto.
  - intros Ha (_ & _ & Hl & Hr). apply leftist_join; auto.
Qed.

(** *** [meld] on the store refines [melded] *)

Lemma comp_call_eq c x y s :
  comp_call c x y s =
  (set_world (call c x y (world s)).1 s,
   match (call c x y (world s)).2 with
   | inl u => Throw (thrown u)
   | inr b => Ok b
   end).
Proof. unfold comp_call. by destruct (call c x y (world s)) as [w [u|b]]. Qed.

(** One frame, once the winner [pw] and the loser [tlo] are known. *)
Lemma meld_winner c fuel pw xw kw lw rw tlo s :
  (∀ ta tb s0, stored (nodes s0) ta → stored (nodes s0) tb →
     NoDup (addrs ta ++ addrs tb) → tsize ta + tsize tb ≤ fuel →
     ∃ s' x, meld fuel c (rootp ta) (rootp tb) s0 = (s', x)
             ∧ meld_post c ta tb s0 s' x) →
  nodes s !! pw = Some (mkNode xw (rootp lw) (rootp rw) kw) →
  stored (nodes s) lw → stored (nodes s) rw → stored (nodes s) tlo →
  NoDup (pw :: addrs lw ++ addrs rw ++ addrs tlo) →
  tsize rw + tsize tlo ≤ fuel →
  ∃ s' x,
    (ar <- get_r pw ;;
     newRight <- meld fuel c ar (rootp tlo) ;;
     meld_commit pw newRight) s = (s', x)
    ∧ queues s' = queues s
    ∧ ((∃ u, x = Throw (thrown u)) ∧ nodes s' = nodes s
       ∨ ∃ t1, x = Ok (Some pw) ∧ melded c rw tlo t1
           ∧ stored (nodes s') (join pw xw lw t1)
           ∧ (∀ p, p ∉ pw :: addrs lw ++ addrs rw ++ addrs tlo →
                nodes s' !! p = nodes s !! p)
           ∧ dom (nodes s') = dom (nodes s)).
Proof. tidy.
  intros IH Hpw Hlw Hrw Hlo Hnd Hfuel.
  apply NoDup_cons in Hnd as [Hpw_out Hnd].
  apply NoDup_app in Hnd as (Hnd_l & Hl_out & Hnd).
  erewrite bind_ok by (by apply get_r_live). simpl.
  destruct (IH rw tlo s Hrw Hlo Hnd Hfuel) as (s1 & x & Hrun & Hq & Hpost).
  destruct Hpost as [[[u ->] Hn]|(t1 & -> & Hm & Hst & Hfr & Hdom)].
  { exists s1, (Throw (thrown u)). unfold bind at 1. rewrite Hrun. eauto 10. }
  erewrite bind_ok by done.
  assert (Haddrs := melded_addrs _ _ _ _ Hm).
  assert (pw ∉ addrs t1) as Hpw1.
  { rewrite Haddrs. set_solver. }
  assert (pw ∉ addrs lw) as Hpwl by set_solver.
  assert (stored (nodes s1) lw) as Hlw1.
  { apply (stored_frame (nodes s)); [done|]. intros p Hp. apply Hfr.
    intros Hp'. by apply (Hl_out p). }
  assert (nodes s1 !! pw = Some (mkNode xw (rootp lw) (rootp rw) kw)) as Hpw1'.
  { rewrite Hfr; [done|]. set_solver. }
  rewrite (meld_commit_spec s1 pw xw (rootp rw) kw lw t1) by done.
  eexists _, _. split; [done|]. split; [done|]. right.
  exists t1. split_and!; [done|done| | |].
  - unfold join. simpl. destruct (rank lw <? rank t1)%Z; simpl;
      rewrite lookup_insert_eq; split_and!; try done; by apply stored_insert.
  - intros p Hp. simpl. rewrite lookup_insert_ne by set_solver.
    apply Hfr. set_solver.
  - simpl. rewrite dom_insert_L, <-Hdom.
    assert (pw ∈ dom (nodes s1)) by (apply elem_of_dom; eauto).
    set_solver.
Qed.

Lemma meld_refines c fuel ta tb s :
  stored (nodes s) ta → stored (nodes s) tb →
  NoDup (addrs ta ++ addrs tb) → tsize ta + tsize tb ≤ fuel →
  ∃ s' x, meld fuel c (rootp ta) (rootp tb) s = (s', x)
          ∧ meld_post c ta tb s s' x.
Proof. tidy.
  revert ta tb s. induction fuel as [|fuel IH];
    intros [|pa xa ka la ra] [|pb xb kb lb rb] s Ha Hb Hnd Hfuel;
    try (simpl in Hfuel; lia);
    try (eexists s, _; split; [reflexivity|]; split; [done|]; right;
         eexists; split_and!; [done|constructor|done..]).
  assert (∀ ta tb s0, stored (nodes s0) ta → stored (nodes s0) tb →
     NoDup (addrs ta ++ addrs tb) → tsize ta + tsize tb ≤ fuel →
     ∃ s' x, meld fuel c (rootp ta) (rootp tb) s0 = (s', x)
             ∧ meld_post c ta tb s0 s' x) as IH' by (intros; by apply IH).
  clear IH. simpl rootp. rewrite meld_unfold.
  destruct Ha as (Hpa & Hla & Hra), Hb as (Hpb & Hlb & Hrb).
  erewrite bind_ok by (by apply get_val_live).
  erewrite bind_ok by (by apply get_val_live). simpl.
  unfold bind at 1. rewrite comp_call_eq.
  destruct (call c xa xb (world s)) as [w [u|less]] eqn:Hcall; simpl.
  { eexists _, _. split; [done|]. split; [done|]. left. eauto. }
  simpl in Hfuel. destruct less.
  - destruct (meld_winner c fuel pb xb kb lb rb (Bin pa xa ka la ra)
                (set_world w s) IH') as (s' & x & Hrun & Hq & Hpost);
      [done|done|done|by split_and!| |simpl; lia|].
    { simpl. eapply NoDup_Permutation_proper; [|exact Hnd]. solve_Permutation. }
    exists s', x. split; [exact Hrun|]. split; [done|].
    destruct Hpost as [[Hu Hn]|(t1 & -> & Hm & Hst & Hfr & Hdom)]; [by left|].
    right. exists (join pb xb lb t1). rewrite rootp_join. split_and!; try done.
    + by eapply melded_swap.
    + intros p Hp. apply Hfr. simpl in Hp. set_solver.
  - destruct (meld_winner c fuel pa xa ka la ra (Bin pb xb kb lb rb)
                (set_world w s) IH') as (s' & x & Hrun & Hq & Hpost);
      [done|done|done|by split_and!| |simpl; lia|].
    { simpl. eapply NoDup_Permutation_proper; [|exact Hnd]. solve_Permutation. }
    exists s', x. split; [exact Hrun|]. split; [done|].
    destruct Hpost as [[Hu Hn]|(t1 & -> & Hm & Hst & Hfr & Hdom)]; [by left|].
    right. exists (join pa xa la t1). rewrite rootp_join. split_and!; try done.
    + by eapply melded_keep.
    + intros p Hp. apply Hfr. simpl in Hp. set_solver.
Qed.

(** *** Counting nodes *)

Lemma live_addrs_bound (h : gmap positive Node) (ps : list positive) :
  NoDup ps → (∀ p, p ∈ ps → is_Some (h !! p)) → length ps ≤ base.size h.
Proof.
  intros Hnd Hlive.
  rewrite <-(size_list_to_set (C:=gset positive) ps) by done.
  rewrite <-(size_dom h). apply subseteq_size.
  intros p Hp%elem_of_list_to_set. apply elem_of_dom. auto.
Qed.

Lemma stored_size2 h ta tb :
  stored h ta → stored h tb → NoDup (addrs ta ++ addrs tb) →
  tsize ta + tsize tb ≤ base.size h.
Proof.
  intros Ha Hb Hnd. rewrite <-!length_addrs, <-length_app.
  apply live_addrs_bound; [done|].
  intros p [?|?]%elem_of_app; eauto using stored_live.
Qed.

Lemma stored_size h t : stored h t → NoDup (addrs t) → tsize t ≤ base.size h.
Proof.
  intros Ht Hnd. rewrite <-length_addrs.
  apply live_addrs_bound; eauto using stored_live.
Qed.

Lemma set_nodes_same s : set_nodes (nodes s) s = s.
Proof. by destruct s. Qed.

(** *** [clear] frees exactly the nodes of the tree *)

Lemma delete_node_live p n s :
  nodes s !! p = Some n → delete_node p s = (set_nodes (delete p (nodes s)) s, Ok tt).
Proof. unfold delete_node. by intros ->. Qed.

Lemma clear_spec fuel t s :
  stored (nodes s) t → NoDup (addrs t) → tsize t ≤ fuel →
  ∃ h', clear fuel (rootp t) s = (set_nodes h' s, Ok tt)
        ∧ (∀ p, p ∈ addrs t → h' !! p = None)
        ∧ (∀ p, p ∉ addrs t → h' !! p = nodes s !! p).
Proof. tidy.
  revert fuel s. induction t as [|p x k tl IHl tr IHr]; intros fuel s Hst Hnd Hfuel.
  { exists (nodes s). destruct fuel; simpl; unfold ret; rewrite set_nodes_same;
      split_and!; try done; by intros ? ?%elem_of_nil. }
  destruct fuel as [|fuel]; [simpl in Hfuel; lia|].
  simpl in Hst, Hnd, Hfuel. destruct Hst as (Hp & Hl & Hr).
  apply NoDup_cons in Hnd as [Hp_out Hnd].
  apply NoDup_app in Hnd as (Hnd_l & Hdisj & Hnd_r).
  simpl clear.
  erewrite bind_ok by (by apply get_l_live). simpl.
  destruct (IHl fuel s) as (h1 & Hrun1 & Hgone1 & Hfr1); [done|done|lia|].
  erewrite bind_ok by exact Hrun1.
  assert (h1 !! p = Some (mkNode x (rootp tl) (rootp tr) k)) as Hp1.
  { rewrite Hfr1; [done|]. set_solver. }
  erewrite bind_ok by (by apply get_r_live). simpl.
  destruct (IHr fuel (set_nodes h1 s)) as (h2 & Hrun2 & Hgone2 & Hfr2);
    [|done|lia|].
  { simpl. apply (stored_frame (nodes s)); [done|].
    intros q Hq. apply Hfr1. intros Hq'. by apply (Hdisj q). }
  erewrite bind_ok by exact Hrun2.
  simpl in Hfr2. rewrite set_nodes_twice.
  assert (h2 !! p = Some (mkNode x (rootp tl) (rootp tr) k)) as Hp2.
  { rewrite Hfr2; [done|]. set_solver. }
  erewrite delete_node_live by done. simpl. rewrite set_nodes_twice.
  eexists. split; [done|]. split.
  - intros q [->|[Hq|Hq]%elem_of_app]%elem_of_cons.
    + apply lookup_delete_eq.
    + rewrite lookup_delete_ne by (intros ->; set_solver).
      rewrite Hfr2 by (intros Hq'; by apply (Hdisj q)). by apply Hgone1.
    + rewrite lookup_delete_ne by (intros ->; set_solver). by apply Hgone2.
  - intros q Hq. rewrite lookup_delete_ne by (intros ->; set_solver).
    rewrite Hfr2, Hfr1; [done|set_solver..].
Qed.

(** *** [new Node(v)] and [clone] *)

Lemma new_Node_spec v s :
  (new_Node v s = (s, Throw bad_alloc) ∧ max_nodes ≤ node_count s)
  ∨ (∃ u w', new_Node v s = (set_world w' s, Throw (thrown u))
             ∧ copy_T v (world s) = (w', Some u))
  ∨ (∃ p w', new_Node v s =
               (mkState w' (<[p := mkNode v None None 1]> (nodes s)) (queues s), Ok p)
             ∧ nodes s !! p = None ∧ node_count s < max_nodes
             ∧ copy_T v (world s) = (w', None)).
Proof.
  unfold new_Node. case_decide as Hcap; [|left; split; [done|lia]].
  right. destruct (copy_T v (world s)) as [w' [u|]]; [left; eauto|].
  right. eexists _, _. split_and!; try done.
  apply not_elem_of_dom, is_fresh.
Qed.

Lemma stored_extends h h' t :
  stored h t → (∀ p, is_Some (h !! p) → h' !! p = h !! p) → stored h' t.
Proof.
  intros Hst Hext. apply (stored_frame h); [done|].
  intros p Hp. apply Hext. by eapply stored_live.
Qed.

Lemma node_count_insert_live p n n' s :
  nodes s !! p = Some n →
  node_count (set_nodes (<[p := n']> (nodes s)) s) = node_count s.
Proof. tidy.
  intros Hp. unfold node_count. simpl.
  rewrite <-!size_dom, dom_insert_L.
  assert (p ∈ dom (nodes s)) by (apply elem_of_dom; eauto).
  f_equal. set_solver.
Qed.

Lemma relabel_elems t t' : relabel t t' → elems t' = elems t.
Proof.
  revert t'. induction t as [|p x k tl IHl tr IHr]; intros [|p' x' k' tl' tr'];
    simpl; try done.
  intros (-> & -> & Hl & Hr). by rewrite (IHl _ Hl), (IHr _ Hr).
Qed.

Lemma relabel_tsize t t' : relabel t t' → tsize t' = tsize t.
Proof. intros H%relabel_elems. by rewrite <-!length_elems, H. Qed.

Lemma relabel_rank t t' : relabel t t' → rank t' = rank t.
Proof. destruct t, t'; simpl; try done. by intros (_ & -> & _). Qed.

Lemma relabel_leftist t t' : relabel t t' → leftist t → leftist t'.
Proof.
  revert t'. induction t as [|p x k tl IHl tr IHr]; intros [|p' x' k' tl' tr'];
    simpl; try done.
  intros (-> & -> & Hl & Hr) (? & ? & ? & ?).
  rewrite (relabel_rank _ _ Hl), (relabel_rank _ _ Hr). auto.
Qed.

Lemma clone_spec fuel t s :
  stored (nodes s) t → tsize t ≤ fuel → node_count s ≤ max_nodes →
  ∃ s' x, clone fuel (rootp t) s = (s', x) ∧ clone_post t s s' x.
Proof. tidy.
  revert fuel s. induction t as [|p x k tl IHl tr IHr]; intros fuel s Hst Hfuel Hcap.
  { exists s, (Ok None). split; [by destruct fuel|].
    split_and!; try done. right. exists Leaf. split_and!; try done.
    - constructor.
    - by intros ? ?%elem_of_nil. }
  destruct fuel as [|fuel]; [simpl in Hfuel; lia|].
  simpl in Hst, Hfuel. destruct Hst as (Hp & Hl & Hr).
  simpl clone.
  erewrite bind_ok by (by apply get_val_live). simpl.
  destruct (new_Node_spec x s)
    as [[Hnew _]|[(u & w' & Hnew & _)|(pn & w' & Hnew & Hfresh & Hroom & _)]].
  { exists s, (Throw bad_alloc). unfold bind at 1. rewrite Hnew.
    split; [done|]. split_and!; eauto. }
  { exists (set_world w' s), (Throw (thrown u)). unfold bind at 1. rewrite Hnew.
    split; [done|]. split_and!; eauto. }
  erewrite bind_ok by exact Hnew.
  assert (pn ≠ p) as Hne by (intros ->; congruence).
  erewrite bind_ok
    by (apply get_npl_field_live; simpl; rewrite lookup_insert_ne by done; exact Hp).
  erewrite bind_ok by (apply set_npl_live; simpl; apply lookup_insert_eq).
  simpl. rewrite insert_insert_eq.
  set (s2 := set_nodes _ _).
  assert (∀ q, is_Some (nodes s !! q) → nodes s2 !! q = nodes s !! q) as Hext2.
  { intros q [n Hq]. simpl. apply lookup_insert_ne. intros ->. congruence. }
  assert (nodes s2 !! pn = Some (mkNode x None None k)) as Hpn2
    by (simpl; apply lookup_insert_eq).
  assert (node_count s2 ≤ max_nodes) as Hcap2.
  { unfold node_count, s2. simpl. rewrite map_size_insert_None by done.
    unfold node_count in Hroom. lia. }
  erewrite bind_ok by (apply get_l_live; rewrite Hext2 by eauto; exact Hp). simpl.
  destruct (IHl fuel s2) as (s3 & x3 & Hrun3 & Hq3 & Hcap3 & Hext3 & Hres3);
    [by eapply stored_extends|lia|done|].
  destruct Hres3 as [[e ->]|(tl' & -> & Hrel_l & Hst_l & Hnd_l & Hfresh_l)].
  { exists s3, (Throw e). unfold bind at 1. rewrite Hrun3.
    split; [done|]. split_and!; eauto.
    intros q Hq. rewrite Hext3, Hext2; [done..|]. by rewrite Hext2. }
  erewrite bind_ok by exact Hrun3.
  assert (nodes s3 !! pn = Some (mkNode x None None k)) as Hpn3
    by (rewrite Hext3; eauto).
  erewrite bind_ok by (by apply set_l_live). simpl.
  set (s4 := set_nodes _ s3).
  assert (∀ q, is_Some (nodes s !! q) → nodes s4 !! q = nodes s !! q) as Hext4.
  { intros q Hq. simpl. rewrite lookup_insert_ne by (intros ->; destruct Hq; congruence).
    rewrite Hext3, Hext2; [done..|]. by rewrite Hext2. }
  assert (nodes s4 !! pn = Some (mkNode x (rootp tl') None k)) as Hpn4
    by (simpl; apply lookup_insert_eq).
  assert (node_count s4 ≤ max_nodes) as Hcap4.
  { unfold s4. by erewrite node_count_insert_live. }
  erewrite bind_ok by (apply get_r_live; rewrite Hext4 by eauto; exact Hp). simpl.
  destruct (IHr fuel s4) as (s5 & x5 & Hrun5 & Hq5 & Hcap5 & Hext5 & Hres5);
    [by eapply stored_extends|lia|done|].
  destruct Hres5 as [[e ->]|(tr' & -> & Hrel_r & Hst_r & Hnd_r & Hfresh_r)].
  { exists s5, (Throw e). unfold bind at 1. rewrite Hrun5.
    split; [done|]. split_and!; eauto; [by rewrite Hq5; simpl; rewrite Hq3|].
    intros q Hq. rewrite Hext5, Hext4; [done..|]. by rewrite Hext4. }
  erewrite bind_ok by exact Hrun5.
  assert (nodes s5 !! pn = Some (mkNode x (rootp tl') None k)) as Hpn5
    by (rewrite Hext5; eauto).
  erewrite bind_ok by (by apply set_r_live). simpl.
  assert (pn ∉ addrs tl') as Hpn_l.
  { intros Hin. apply Hfresh_l in Hin. congruence. }
  assert (pn ∉ addrs tr') as Hpn_r.
  { intros Hin. apply Hfresh_r in Hin. congruence. }
  assert (∀ q, q ∈ addrs tl' → q ∈ addrs tr' → False) as Hdisj.
  { intros q Hq_l Hq_r. apply Hfresh_r in Hq_r.
    destruct (stored_live _ _ q Hst_l Hq_l) as [n Hn].
    simpl in Hq_r. rewrite lookup_insert_ne in Hq_r by (intros ->; done).
    congruence. }
  eexists _, _. split; [reflexivity|]. split_and!.
  - simpl. by rewrite Hq5; simpl; rewrite Hq3.
  - by erewrite node_count_insert_live.
  - intros q Hq. simpl.
    rewrite lookup_insert_ne by (intros ->; destruct Hq; congruence).
    rewrite Hext5, Hext4; [done..|]. by rewrite Hext4.
  - right. exists (Bin pn x k tl' tr'). split_and!; try done.
    + simpl. split_and!.
      * apply lookup_insert_eq.
      * apply stored_insert; [done|]. apply (stored_frame (nodes s3)); [done|].
        intros q Hq. destruct (stored_live _ _ q Hst_l Hq) as [n Hn].
        assert (nodes s4 !! q = nodes s3 !! q) as Heq.
        { simpl. apply lookup_insert_ne. by intros ->. }
        rewrite Hext5; [done|]. rewrite Heq. eauto.
      * by apply stored_insert.
    + simpl. apply NoDup_cons. split; [set_solver|].
      apply NoDup_app. by split_and!.
    + intros q [->|[Hq|Hq]%elem_of_app]%elem_of_cons; [done| |].
      * apply Hfresh_l in Hq. destruct (nodes s !! q) eqn:Hsq; [|done].
        rewrite Hext2 in Hq by eauto. congruence.
      * apply Hfresh_r in Hq. destruct (nodes s !! q) eqn:Hsq; [|done].
        rewrite Hext4 in Hq by eauto. congruence.
Qed.

(** *** Members of a live queue object *)

Lemma get_root_live q o s : queues s !! q = Some o → get_root q s = (s, Ok (root o)).
Proof. unfold get_root, bind, get_queue, ret. by intros ->. Qed.

Lemma get_cnt_live q o s : queues s !! q = Some o → get_cnt q s = (s, Ok (cnt o)).
Proof. unfold get_cnt, bind, get_queue, ret. by intros ->. Qed.

Lemma get_comp_live q o s : queues s !! q = Some o → get_comp q s = (s, Ok (comp o)).
Proof. unfold get_comp, bind, get_queue, ret. by intros ->. Qed.

Lemma set_root_live q o x s :
  queues s !! q = Some o →
  set_root q x s = (set_queues (<[q := mkPq x (cnt o) (comp o)]> (queues s)) s, Ok tt).
Proof.
  unfold set_root, bind, get_queue, put_queue. intros H. rewrite H. simpl. by rewrite H.
Qed.

Lemma set_cnt_live q o k s :
  queues s !! q = Some o →
  set_cnt q k s = (set_queues (<[q := mkPq (root o) k (comp o)]> (queues s)) s, Ok tt).
Proof.
  unfold set_cnt, bind, get_queue, put_queue. intros H. rewrite H. simpl. by rewrite H.
Qed.

Lemma set_comp_live q o c s :
  queues s !! q = Some o →
  set_comp q c s = (set_queues (<[q := mkPq (root o) (cnt o) c]> (queues s)) s, Ok tt).
Proof.
  unfold set_comp, bind, get_queue, put_queue. intros H. rewrite H. simpl. by rewrite H.
Qed.

Lemma empty_live q o s :
  queues s !! q = Some o → empty q s = (s, Ok (Z.eqb (cnt o) 0)).
Proof. intros H. unfold empty. by erewrite bind_ok by (by apply get_cnt_live). Qed.

Lemma try_catch_ok {A} (m h : M A) s s' a :
  m s = (s', Ok a) → try_catch m h s = (s', Ok a).
Proof. unfold try_catch. by intros ->. Qed.

Lemma try_catch_throw {A} (m h : M A) s s' e :
  m s = (s', Throw e) → try_catch m h s = h s'.
Proof. unfold try_catch. by intros ->. Qed.

Lemma bind_throw_l {A B} (m : M A) (k : A → M B) s s' e :
  m s = (s', Throw e) → bind m k s = (s', Throw e).
Proof. unfold bind. by intros ->. Qed.

Lemma set_queues_same s : set_queues (queues s) s = s.
Proof. by destruct s. Qed.

Lemma pq_eta o : mkPq (root o) (cnt o) (comp o) = o.
Proof. by destruct o. Qed.

(** *** The invariant under changes of the state *)

Lemma wrap_small (n : nat) :
  n ≤ max_nodes → (Z.of_nat max_nodes < size_t_modulus)%Z →
  wrap (Z.of_nat n) = Z.of_nat n.
Proof. intros. unfold wrap. apply Z.mod_small. lia. Qed.

Lemma queue_ok_frame P h h' o t :
  queue_ok P h o t → (∀ p, p ∈ addrs t → h' !! p = h !! p) → queue_ok P h' o t.
Proof.
  intros (? & ? & ? & ? & ? & ?) Hfr. split_and!; try done.
  by apply (stored_frame h).
Qed.

Lemma inv_for_tree P G s q t :
  inv_for P G s → G !! q = Some t →
  ∃ o, queues s !! q = Some o ∧ queue_ok P (nodes s) o t.
Proof.
  intros (_ & Hok & Hnone & _) Hq.
  destruct (queues s !! q) as [o|] eqn:Ho.
  - destruct (Hok q o Ho) as (t' & Ht' & ?). exists o. by simplify_eq.
  - apply Hnone in Ho. congruence.
Qed.

Lemma inv_for_owns P G s q t :
  inv_for P G s → owns s q t → G !! q = Some t.
Proof.
  intros (_ & Hok & _) (o & Ho & Hroot & Hst).
  destruct (Hok q o Ho) as (t' & Ht' & Hroot' & Hst' & _).
  rewrite Ht'. f_equal. eapply stored_unique; [done..|congruence].
Qed.

Lemma inv_for_same P G s s' :
  inv_for P G s → nodes s' = nodes s → queues s' = queues s → inv_for P G s'.
Proof.
  unfold inv_for, node_count. intros H Hn Hq. by rewrite Hn, Hq.
Qed.

(** One queue gets a new tree; the trees of the others are left alone. *)
Lemma inv_replace P G s s' q o' t' :
  inv_for P G s →
  queues s' = <[q := o']> (queues s) →
  node_count s' ≤ max_nodes →
  queue_ok P (nodes s') o' t' →
  (∀ q2 t2 p, q2 ≠ q → G !! q2 = Some t2 → p ∈ addrs t2 →
     (p ∉ addrs t') ∧ nodes s' !! p = nodes s !! p) →
  inv_for P (<[q := t']> G) s'.
Proof.
  intros Hinv Hqs Hcap Hok' Hothers.
  assert (Hinv' := Hinv). destruct Hinv' as (_ & Hok & Hnone & Hdisj).
  split_and!; [done| | |].
  - intros q2 o2. rewrite Hqs. destruct (decide (q2 = q)) as [->|Hne].
    + rewrite lookup_insert_eq. intros [= <-]. exists t'.
      by rewrite lookup_insert_eq.
    + rewrite lookup_insert_ne by done. intros Ho2.
      destruct (Hok q2 o2 Ho2) as (t2 & Ht2 & Hok2).
      exists t2. rewrite lookup_insert_ne by done. split; [done|].
      apply (queue_ok_frame P (nodes s)); [done|].
      intros p Hp. by apply (Hothers q2 t2 p).
  - intros q2. rewrite Hqs. destruct (decide (q2 = q)) as [->|Hne].
    + by rewrite lookup_insert_eq.
    + rewrite !lookup_insert_ne by done. apply Hnone.
  - intros q1 q2 t1 t2 Hne.
    destruct (decide (q1 = q)) as [->|Hne1];
      destruct (decide (q2 = q)) as [->|Hne2]; try done.
    + rewrite lookup_insert_eq, lookup_insert_ne by done.
      intros [= <-] Ht2 p Hp1 Hp2. by apply (Hothers q2 t2 p).
    + rewrite lookup_insert_eq, lookup_insert_ne by done.
      intros Ht1 [= <-] p Hp1 Hp2. by apply (Hothers q1 t1 p).
    + rewrite !lookup_insert_ne by done. by apply Hdisj.
Qed.

(** One queue goes away; the trees of the others are left alone. *)
Lemma inv_remove P G s s' q :
  inv_for P G s →
  queues s' = delete q (queues s) →
  node_count s' ≤ max_nodes →
  (∀ q2 t2 p, q2 ≠ q → G !! q2 = Some t2 → p ∈ addrs t2 →
     nodes s' !! p = nodes s !! p) →
  inv_for P (delete q G) s'.
Proof.
  intros (_ & Hok & Hnone & Hdisj) Hqs Hcap Hothers.
  split_and!; [done| | |].
  - intros q2 o2. rewrite Hqs. destruct (decide (q2 = q)) as [->|Hne].
    + by rewrite lookup_delete_eq.
    + rewrite lookup_delete_ne by done. intros Ho2.
      destruct (Hok q2 o2 Ho2) as (t2 & Ht2 & Hok2).
      exists t2. rewrite lookup_delete_ne by done. split; [done|].
      apply (queue_ok_frame P (nodes s)); [done|].
      intros p Hp. by apply (Hothers q2 t2 p).
  - intros q2. rewrite Hqs. destruct (decide (q2 = q)) as [->|Hne].
    + by rewrite !lookup_delete_eq.
    + rewrite !lookup_delete_ne by done. apply Hnone.
  - intros q1 q2 t1 t2 Hne.
    destruct (decide (q1 = q)) as [->|Hne1]; [by rewrite lookup_delete_eq|].
    destruct (decide (q2 = q)) as [->|Hne2]; [by rewrite lookup_delete_eq|].
    rewrite !lookup_delete_ne by done. by apply Hdisj.
Qed.

(** ** The public operations keep the invariant

    The property [P] of trees under study only has to survive what the
    operations do to trees. *)

Section Preservation.

Variable P : tree → Prop.
Hypothesis P_Leaf : P Leaf.
Hypothesis P_single : ∀ p x, P (Bin p x 1 Leaf Leaf).
Hypothesis P_melded :
  ∀ ta tb t, melded Compare_default ta tb t → P ta → P tb → P t.
Hypothesis P_children : ∀ p x k tl tr, P (Bin p x k tl tr) → P tl ∧ P tr.
Hypothesis P_relabel : ∀ t t', relabel t t' → P t → P t'.
(** Nodes take up memory, so a 64-bit counter can count them. *)
Hypothesis max_nodes_fits : (Z.of_nat max_nodes < size_t_modulus)%Z.

Lemma push_spec G s q o t e :
  inv_for P G s → queues s !! q = Some o → G !! q = Some t →
  ∃ s' x, push q e s = (s', x)
    ∧ ((∃ err, x = Throw err) ∧ nodes s' = nodes s ∧ queues s' = queues s
       ∨ ∃ t', x = Ok tt ∧ inv_for P (<[q := t']> G) s'
           ∧ elems t' ≡ₚ elems t ++ [e]).
Proof using P_Leaf P_single P_melded P_children P_relabel max_nodes_fits.
  tidy.
  intros Hinv Ho Ht.
  destruct (inv_for_tree _ _ _ _ _ Hinv Ht) as (o0 & Ho0 & Hok).
  assert (o0 = o) as -> by congruence. clear Ho0.
  destruct Hok as (Hroot & Hst & Hnd & Hcnt & Hcomp & HP).
  unfold push.
  destruct (new_Node_spec e s)
    as [[Hnew _]|[(u & w' & Hnew & _)|(pn & w' & Hnew & Hfresh & Hroom & _)]].
  { eexists _, _. split; [by apply bind_throw_l|]. left. eauto. }
  { eexists _, _. split; [by apply bind_throw_l|]. left. eauto. }
  erewrite bind_ok by exact Hnew.
  set (s1 := mkState w' _ _).
  assert (pn ∉ addrs t) as Hpn_t.
  { intros Hin. destruct (stored_live _ _ _ Hst Hin). congruence. }
  set (tn := Bin pn e 1 Leaf Leaf).
  destruct (meld_refines (comp o) (node_count s1) t tn s1)
    as (s2 & x2 & Hrun & Hq2 & Hres).
  { simpl. by apply stored_insert. }
  { simpl. split_and!; try done. apply lookup_insert_eq. }
  { simpl. apply NoDup_app. split_and!; [done| |apply NoDup_singleton].
    intros p Hp ->%list_elem_of_singleton. done. }
  { apply stored_size2.
    - simpl. by apply stored_insert.
    - simpl. split_and!; try done. apply lookup_insert_eq.
    - simpl. apply NoDup_app. split_and!; [done| |apply NoDup_singleton].
      intros p Hp ->%list_elem_of_singleton. done. }
  rewrite Hroot in Hrun. simpl rootp in Hrun.
  destruct Hres as [[[u ->] Hn2]|(t' & -> & Hm & Hst' & Hfr & Hdom)].
  - (* the predicate threw: the new node is freed again *)
    erewrite try_catch_throw; last first.
    { erewrite bind_ok by (by apply get_root_live).
      erewrite bind_ok by (by apply get_comp_live).
      apply bind_throw_l. exact Hrun. }
    erewrite bind_ok; last first.
    { eapply delete_node_live. rewrite Hn2. simpl. apply lookup_insert_eq. }
    eexists _, _. split; [reflexivity|]. left. split; [eauto|]. simpl.
    rewrite Hn2. simpl. rewrite delete_insert_eq, delete_id by done. done.
  - erewrite try_catch_ok; last first.
    { erewrite bind_ok by (by apply get_root_live).
      erewrite bind_ok by (by apply get_comp_live).
      erewrite bind_ok by exact Hrun.
      erewrite bind_ok by (apply set_root_live; rewrite Hq2; exact Ho).
      erewrite bind_ok by (apply get_cnt_live; simpl; apply lookup_insert_eq).
      apply set_cnt_live. simpl. apply lookup_insert_eq. }
    simpl. rewrite insert_insert_eq, Hq2. simpl.
    eexists _, _. split; [reflexivity|]. right. exists t'.
    assert (Haddrs := melded_addrs _ _ _ _ Hm).
    assert (Hsize := melded_tsize _ _ _ _ Hm).
    assert (node_count s2 ≤ max_nodes) as Hcap2.
    { unfold node_count in *. rewrite <-size_dom, Hdom, size_dom. simpl.
      rewrite map_size_insert_None by done. lia. }
    assert (NoDup (addrs t')) as Hnd'.
    { rewrite Haddrs. simpl. apply NoDup_app. split_and!; [done| |apply NoDup_singleton].
      intros p Hp ->%list_elem_of_singleton. done. }
    split; [done|]. split; [|by rewrite (melded_elems _ _ _ _ Hm)].
    eapply inv_replace; [exact Hinv|reflexivity|exact Hcap2| |].
    + split_and!; simpl; try done.
      * rewrite Hcnt, Hsize. simpl.
        replace (Z.of_nat (tsize t) + 1)%Z with (Z.of_nat (tsize t + 1)) by lia.
        apply wrap_small; [|done].
        etrans; [|exact Hcap2]. change (tsize t + 1) with (tsize t + tsize tn).
        rewrite <-Hsize. by apply stored_size.
      * rewrite Hcomp in Hm. eapply P_melded; [exact Hm|done|apply P_single].
    + intros q2 t2 p Hne Ht2 Hp.
      destruct (inv_for_tree _ _ _ _ _ Hinv Ht2) as (o2 & Ho2 & Hok2).
      destruct Hok2 as (_ & Hst2 & _).
      destruct (stored_live _ _ _ Hst2 Hp) as [n Hn].
      assert (p ≠ pn) by (intros ->; congruence).
      assert (p ∉ addrs t).
      { intros Hin. destruct Hinv as (_ & _ & _ & Hdisj).
        by apply (Hdisj q2 q t2 t Hne Ht2 Ht p). }
      simpl. split.
      * rewrite Haddrs. simpl. set_solver.
      * rewrite Hfr by (simpl; set_solver). simpl. by apply lookup_insert_ne.
Qed.

Lemma pop_spec G s q o t :
  inv_for P G s → queues s !! q = Some o → G !! q = Some t →
  ∃ s' x, pop q s = (s', x)
    ∧ (t = Leaf ∧ x = Throw container_is_empty ∧ s' = s
       ∨ t ≠ Leaf ∧ x = Throw runtime_error
         ∧ nodes s' = nodes s ∧ queues s' = queues s
       ∨ ∃ p v k tl tr t', t = Bin p v k tl tr ∧ x = Ok tt
           ∧ inv_for P (<[q := t']> G) s' ∧ melded (comp o) tl tr t').
Proof using P_Leaf P_single P_melded P_children P_relabel max_nodes_fits.
  tidy.
  intros Hinv Ho Ht.
  destruct (inv_for_tree _ _ _ _ _ Hinv Ht) as (o0 & Ho0 & Hok).
  assert (o0 = o) as -> by congruence. clear Ho0.
  destruct Hok as (Hroot & Hst & Hnd & Hcnt & Hcomp & HP).
  unfold pop. erewrite bind_ok by (by apply empty_live). rewrite Hcnt.
  destruct t as [|p v k tl tr]; simpl.
  { eexists _, _. split; [reflexivity|]. by left. }
  simpl in Hroot, Hst, Hnd. destruct Hst as (Hp & Hl & Hr).
  apply NoDup_cons in Hnd as [Hp_out Hnd].
  erewrite bind_ok by (by apply get_root_live). rewrite <-Hroot.
  destruct (meld_refines (comp o) (node_count s) tl tr s)
    as (s2 & x2 & Hrun & Hq2 & Hres); [done|done|done|by apply stored_size2|].
  destruct Hres as [[[u ->] Hn2]|(t' & -> & Hm & Hst' & Hfr & Hdom)].
  - erewrite try_catch_throw; last first.
    { erewrite bind_ok by (by apply get_root_live). rewrite <-Hroot.
      erewrite bind_ok by (by apply get_l_live).
      erewrite bind_ok by (by apply get_r_live).
      erewrite bind_ok by (by apply get_comp_live).
      apply bind_throw_l. exact Hrun. }
    erewrite bind_ok by (apply set_root_live; rewrite Hq2; exact Ho).
    eexists _, _. split; [reflexivity|]. right; left. simpl.
    split_and!; try done.
    rewrite Hq2, Hroot, pq_eta. by apply insert_id.
  - assert (nodes s2 !! p = Some (mkNode v (rootp tl) (rootp tr) k)) as Hp2.
    { rewrite Hfr; [done|]. set_solver. }
    erewrite try_catch_ok; last first.
    { erewrite bind_ok by (by apply get_root_live). rewrite <-Hroot.
      erewrite bind_ok by (by apply get_l_live).
      erewrite bind_ok by (by apply get_r_live).
      erewrite bind_ok by (by apply get_comp_live).
      erewrite bind_ok by exact Hrun.
      erewrite bind_ok by (apply set_root_live; rewrite Hq2; exact Ho).
      erewrite bind_ok by (apply get_cnt_live; simpl; apply lookup_insert_eq).
      erewrite bind_ok by (apply set_cnt_live; simpl; apply lookup_insert_eq).
      by eapply delete_node_live. }
    simpl. rewrite insert_insert_eq, Hq2.
    eexists _, _. split; [reflexivity|]. right; right.
    exists p, v, k, tl, tr, t'. split; [done|]. split; [done|]. split; [|done].
    assert (Haddrs := melded_addrs _ _ _ _ Hm).
    assert (Hsize := melded_tsize _ _ _ _ Hm).
    assert (p ∉ addrs t') as Hp' by (by rewrite Haddrs).
    assert (base.size (delete p (nodes s2)) ≤ max_nodes) as Hcap2.
    { destruct Hinv as (Hcap & _). unfold node_count in Hcap.
      etrans; [apply map_subseteq_size, delete_subseteq|].
      by rewrite <-size_dom, Hdom, size_dom. }
    eapply inv_replace; [exact Hinv|reflexivity|exact Hcap2| |].
    + split_and!; simpl; try done.
      * by apply stored_delete.
      * by rewrite Haddrs.
      * rewrite Hcnt, Hsize. simpl tsize.
        replace (Z.of_nat (S (tsize tl + tsize tr)) - 1)%Z
          with (Z.of_nat (tsize tl + tsize tr)) by lia.
        apply wrap_small; [|done]. destruct Hinv as (Hcap & _).
        etrans; [|exact Hcap]. by apply stored_size2.
      * rewrite Hcomp in Hm. apply P_children in HP as [? ?].
        by eapply P_melded.
    + intros q2 t2 p2 Hne Ht2 Hp2'.
      assert (p2 ∉ p :: addrs tl ++ addrs tr) as Hout.
      { intros Hin. destruct Hinv as (_ & _ & _ & Hdisj).
        by apply (Hdisj q2 q t2 _ Hne Ht2 Ht p2). }
      simpl. split.
      * rewrite Haddrs. set_solver.
      * rewrite lookup_delete_ne by set_solver. apply Hfr. set_solver.
Qed.

Lemma merge_spec G s a b oa ob ta tb :
  inv_for P G s → a ≠ b →
  queues s !! a = Some oa → queues s !! b = Some ob →
  G !! a = Some ta → G !! b = Some tb →
  ∃ s' x, merge a b s = (s', x)
    ∧ (tb = Leaf ∧ x = Ok tt ∧ s' = s
       ∨ tb ≠ Leaf ∧ x = Throw runtime_error
         ∧ nodes s' = nodes s ∧ queues s' = queues s
       ∨ tb ≠ Leaf ∧ ∃ t', x = Ok tt
           ∧ inv_for P (<[a := t']> (<[b := Leaf]> G)) s'
           ∧ melded (comp oa) ta tb t'
           ∧ queues s' = <[b := mkPq None 0 (comp ob)]>
                           (<[a := mkPq (rootp t') (cnt oa + cnt ob) (comp oa)]>
                              (queues s))).
Proof using P_Leaf P_single P_melded P_children P_relabel max_nodes_fits.
  tidy.
  intros Hinv Hab Hoa Hob Hta Htb.
  destruct (inv_for_tree _ _ _ _ _ Hinv Hta) as (o0 & Ho0 & Hoka).
  assert (o0 = oa) as -> by congruence. clear Ho0.
  destruct (inv_for_tree _ _ _ _ _ Hinv Htb) as (o0 & Ho0 & Hokb).
  assert (o0 = ob) as -> by congruence. clear Ho0.
  destruct Hoka as (Hroota & Hsta & Hnda & Hcnta & Hcompa & HPa).
  destruct Hokb as (Hrootb & Hstb & Hndb & Hcntb & Hcompb & HPb).
  assert (∀ p, p ∈ addrs ta → p ∈ addrs tb → False) as Hdisj_ab.
  { destruct Hinv as (_ & _ & _ & Hdisj). by apply (Hdisj a b). }
  assert (NoDup (addrs ta ++ addrs tb)) as Hnd by (by apply NoDup_app).
  assert (tsize ta + tsize tb ≤ node_count s) as Hsz by (by apply stored_size2).
  unfold merge. rewrite decide_False by done.
  erewrite bind_ok by (by apply empty_live).
  assert (tb = Leaf ∨ tb ≠ Leaf) as [->|Hne] by (destruct tb; auto).
  { rewrite Hcntb. eexists _, _. split; [reflexivity|]. by left. }
  replace (Z.eqb (cnt ob) 0) with false
    by (rewrite Hcntb; destruct tb; [done|symmetry; apply Z.eqb_neq; simpl; lia]).
  destruct (meld_refines (comp oa) (node_count s) ta tb s)
    as (s2 & x2 & Hrun & Hq2 & Hres); [done..|].
  rewrite Hroota, Hrootb in Hrun.
  destruct Hres as [[[u ->] Hn2]|(t' & -> & Hm & Hst' & Hfr & Hdom)].
  - erewrite try_catch_throw; last first.
    { erewrite bind_ok by (by apply get_root_live).
      erewrite bind_ok by (by apply get_root_live).
      erewrite bind_ok by (by apply get_comp_live).
      apply bind_throw_l. exact Hrun. }
    eexists _, _. split; [reflexivity|]. right; left. done.
  - erewrite try_catch_ok; last first.
    { erewrite bind_ok by (by apply get_root_live).
      erewrite bind_ok by (by apply get_root_live).
      erewrite bind_ok by (by apply get_comp_live).
      erewrite bind_ok by exact Hrun.
      erewrite bind_ok by (apply set_root_live; rewrite Hq2; exact Hoa).
      erewrite bind_ok by (apply get_cnt_live; simpl; apply lookup_insert_eq).
      erewrite bind_ok
        by (apply get_cnt_live; simpl; rewrite lookup_insert_ne by done;
            rewrite Hq2; exact Hob).
      erewrite bind_ok by (apply set_cnt_live; simpl; apply lookup_insert_eq).
      erewrite bind_ok
        by (apply set_root_live; simpl; rewrite lookup_insert_ne by done;
            rewrite lookup_insert_ne by done; rewrite Hq2; exact Hob).
      apply set_cnt_live. simpl. apply lookup_insert_eq. }
    simpl. rewrite !insert_insert_eq, Hq2.
    assert (Haddrs := melded_addrs _ _ _ _ Hm).
    assert (Hsize := melded_tsize _ _ _ _ Hm).
    assert (node_count s2 ≤ max_nodes) as Hcap2.
    { destruct Hinv as (Hcap & _). unfold node_count in *.
      by rewrite <-size_dom, Hdom, size_dom. }
    assert (wrap (cnt oa + cnt ob) = (cnt oa + cnt ob)%Z) as Hwrap.
    { rewrite Hcnta, Hcntb, <-Nat2Z.inj_add. apply wrap_small; [|done].
      destruct Hinv as (Hcap & _). lia. }
    rewrite Hwrap.
    eexists _, _. split; [reflexivity|]. right; right. split; [done|].
    exists t'. split; [done|]. split; [|split; [done|reflexivity]].
    set (sm := set_queues (<[b := mkPq None 0 (comp ob)]> (queues s)) s).
    assert (inv_for P (<[b := Leaf]> G) sm) as Hinvm.
    { eapply inv_replace; [exact Hinv|reflexivity|by destruct Hinv| |].
      - split_and!; simpl; try done. constructor.
      - intros q2 t2 p _ _ _. split; [|done]. by intros ?%elem_of_nil. }
    eapply inv_replace; [exact Hinvm| |exact Hcap2| |].
    + simpl. by apply insert_insert_ne.
    + split_and!; simpl; try done.
      * by rewrite Haddrs.
      * by rewrite Hcnta, Hcntb, Hsize, Nat2Z.inj_add.
      * rewrite Hcompa in Hm. by eapply P_melded.
    + intros q2 t2 p Hne2. destruct (decide (q2 = b)) as [->|Hne2b].
      { rewrite lookup_insert_eq. by intros [= <-] ?%elem_of_nil. }
      rewrite lookup_insert_ne by done. intros Ht2 Hp.
      assert (p ∉ addrs ta ++ addrs tb) as Hout.
      { destruct Hinv as (_ & _ & _ & Hdisj).
        intros [Hin|Hin]%elem_of_app.
        - by apply (Hdisj q2 a t2 ta Hne2 Ht2 Hta p).
        - by apply (Hdisj q2 b t2 tb Hne2b Ht2 Htb p). }
      simpl. split; [by rewrite Haddrs|]. by apply Hfr.
Qed.

Lemma inv_for_extends G s s' :
  inv_for P G s → queues s' = queues s → node_count s' ≤ max_nodes →
  (∀ p, is_Some (nodes s !! p) → nodes s' !! p = nodes s !! p) →
  inv_for P G s'.
Proof.
  intros (_ & Hok & Hnone & Hdisj) Hq Hcap Hext. rewrite <-Hq in Hok, Hnone.
  split_and!; try done.
  intros q o Ho. destruct (Hok q o Ho) as (t & Ht & Hokt). exists t. split; [done|].
  apply (queue_ok_frame P (nodes s)); [done|].
  intros p Hp. apply Hext. destruct Hokt as (_ & Hst & _). by eapply stored_live.
Qed.

Lemma construct_inv G s q s' x :
  inv_for P G s → construct q s = (s', x) → x ≠ Undefined → inv P s'.
Proof using P_Leaf P_single P_melded P_children P_relabel max_nodes_fits.
  tidy.
  intros Hinv. unfold construct. destruct (queues s !! q) eqn:Hq; intros [= <- <-] Hx;
    [done|].
  exists (<[q := Leaf]> G).
  eapply inv_replace; [exact Hinv|reflexivity|by destruct Hinv| |].
  - split_and!; simpl; try done. constructor.
  - intros q2 t2 p _ _ _. split; [|done]. by intros ?%elem_of_nil.
Qed.

Lemma copy_construct_inv G s q b s' x :
  inv_for P G s → is_Some (queues s !! b) →
  copy_construct q b s = (s', x) → x ≠ Undefined → inv P s'.
Proof using P_Leaf P_single P_melded P_children P_relabel max_nodes_fits.
  tidy.
  intros Hinv [ob Hob].
  assert (Hinv' := Hinv). destruct Hinv' as (Hcap & Hok & _).
  destruct (Hok b ob Hob) as (tb & Htb & Hroot & Hst & Hnd & Hcnt & Hcomp & HP).
  unfold copy_construct.
  erewrite bind_ok by (by apply get_root_live). rewrite <-Hroot.
  destruct (clone_spec (node_count s) tb s)
    as (s1 & x1 & Hrun & Hq1 & Hcap1 & Hext & Hres); [done|by apply stored_size|done|].
  assert (inv_for P G s1) as Hinv1 by (by apply (inv_for_extends G s)).
  destruct Hres as [[e ->]|(t' & -> & Hrel & Hst' & Hnd' & Hfresh)].
  { erewrite bind_throw_l by exact Hrun. intros [= <- <-] _. by exists G. }
  erewrite bind_ok by exact Hrun.
  erewrite bind_ok by (apply get_cnt_live; rewrite Hq1; exact Hob).
  erewrite bind_ok by (apply get_comp_live; rewrite Hq1; exact Hob).
  destruct (queues s1 !! q) eqn:Hq; intros [= <- <-] Hx; [done|].
  exists (<[q := t']> G).
  eapply inv_replace; [exact Hinv1|reflexivity|exact Hcap1| |].
  - split_and!; simpl; try done.
    + by rewrite (relabel_tsize _ _ Hrel).
    + by eapply P_relabel.
  - intros q2 t2 p Hne Ht2 Hp. split; [|done].
    intros Hin. apply Hfresh in Hin.
    destruct (inv_for_tree _ _ _ _ _ Hinv Ht2) as (o2 & _ & _ & Hst2 & _).
    destruct (stored_live _ _ _ Hst2 Hp). congruence.
Qed.

Lemma clear_shrinks (h h' : gmap positive Node) t :
  (∀ p, p ∈ addrs t → h' !! p = None) →
  (∀ p, p ∉ addrs t → h' !! p = h !! p) →
  base.size h' ≤ base.size h.
Proof.
  intros Hgone Hfr. apply map_subseteq_size, map_subseteq_spec.
  intros p n Hp. destruct (decide (p ∈ addrs t)) as [Hin|Hout].
  - rewrite Hgone in Hp by done. done.
  - by rewrite <-Hfr.
Qed.

Lemma destroy_inv G s q s' x :
  inv_for P G s → is_Some (queues s !! q) →
  destroy q s = (s', x) → x ≠ Undefined → inv P s'.
Proof.
  intros Hinv [o Ho].
  assert (Hinv' := Hinv). destruct Hinv' as (Hcap & Hok & _ & Hdisj).
  destruct (Hok q o Ho) as (t & Ht & Hroot & Hst & Hnd & Hcnt & Hcomp & HP).
  unfold destroy.
  erewrite bind_ok by (by apply get_root_live). rewrite <-Hroot.
  destruct (clear_spec (node_count s) t s) as (h' & Hrun & Hgone & Hfr);
    [done|done|by apply stored_size|].
  erewrite bind_ok by exact Hrun.
  erewrite bind_ok by (by apply set_root_live).
  erewrite bind_ok by (apply set_cnt_live; simpl; apply lookup_insert_eq).
  simpl. intros [= <- <-] _. exists (delete q G).
  eapply inv_remove; [exact Hinv| | |].
  - simpl. by rewrite !delete_insert_eq.
  - unfold node_count. simpl. etrans; [|exact Hcap]. by eapply clear_shrinks.
  - intros q2 t2 p Hne Ht2 Hp. simpl. apply Hfr.
    intros Hin. by apply (Hdisj q2 q t2 t Hne Ht2 Ht p).
Qed.

Lemma assign_inv G s q b s' x :
  inv_for P G s → is_Some (queues s !! q) → is_Some (queues s !! b) →
  assign q b s = (s', x) → x ≠ Undefined → inv P s'.
Proof using P_Leaf P_single P_melded P_children P_relabel max_nodes_fits.
  tidy.
  intros Hinv [oq Hoq] [ob Hob]. unfold assign.
  destruct (decide (q = b)) as [->|Hne]; [intros [= <- <-] _; by exists G|].
  assert (Hinv' := Hinv). destruct Hinv' as (Hcap & Hok & _ & Hdisj).
  destruct (Hok b ob Hob) as (tb & Htb & Hrootb & Hstb & Hndb & Hcntb & Hcompb & HPb).
  destruct (Hok q oq Hoq) as (tq & Htq & Hrootq & Hstq & Hndq & Hcntq & Hcompq & HPq).
  erewrite bind_ok by (by apply get_root_live). rewrite <-Hrootb.
  destruct (clone_spec (node_count s) tb s)
    as (s1 & x1 & Hrun & Hq1 & Hcap1 & Hext & Hres); [done|by apply stored_size|done|].
  destruct Hres as [[e ->]|(t' & -> & Hrel & Hst' & Hnd' & Hfresh)].
  { erewrite bind_throw_l by exact Hrun. intros [= <- <-] _. exists G.
    by apply (inv_for_extends G s). }
  erewrite bind_ok by exact Hrun.
  erewrite bind_ok by (apply get_root_live; rewrite Hq1; exact Hoq).
  rewrite <-Hrootq.
  assert (stored (nodes s1) tq) as Hstq1 by (by eapply stored_extends).
  destruct (clear_spec (node_count s1) tq s1) as (h2 & Hrun2 & Hgone & Hfr);
    [done|done|by apply stored_size|].
  erewrite bind_ok by exact Hrun2.
  erewrite bind_ok by (apply set_root_live; simpl; rewrite Hq1; exact Hoq).
  erewrite bind_ok
    by (apply get_cnt_live; simpl; rewrite lookup_insert_ne by done;
        rewrite Hq1; exact Hob).
  erewrite bind_ok by (apply set_cnt_live; simpl; apply lookup_insert_eq).
  erewrite bind_ok
    by (apply get_comp_live; simpl; rewrite insert_insert_eq;
        rewrite lookup_insert_ne by done; rewrite Hq1; exact Hob).
  erewrite bind_ok by (apply set_comp_live; simpl; apply lookup_insert_eq).
  simpl. rewrite !insert_insert_eq, Hq1. intros [= <- <-] _.
  exists (<[q := t']> G).
  assert (∀ p, p ∈ addrs t' → p ∉ addrs tq) as Hfresh_q.
  { intros p Hp Hin. apply Hfresh in Hp.
    destruct (stored_live _ _ _ Hstq Hin). congruence. }
  eapply inv_replace; [exact Hinv|reflexivity| | |].
  - unfold node_count. simpl. etrans; [|exact Hcap1]. by eapply clear_shrinks.
  - split_and!; simpl; try done.
    + apply (stored_frame (nodes s1)); [done|]. intros p Hp. apply Hfr. auto.
    + by rewrite (relabel_tsize _ _ Hrel).
    + by eapply P_relabel.
  - intros q2 t2 p Hne2 Ht2 Hp.
    destruct (inv_for_tree _ _ _ _ _ Hinv Ht2) as (o2 & _ & _ & Hst2 & _).
    assert (is_Some (nodes s !! p)) as Hlive by (by eapply stored_live).
    split.
    + intros Hin. apply Hfresh in Hin. destruct Hlive. congruence.
    + simpl. rewrite Hfr, Hext; [done..|].
      intros Hin. by apply (Hdisj q2 q t2 tq Hne2 Ht2 Htq p).
Qed.

Lemma top_state q s s' x : top q s = (s', x) → s' = s.
Proof.
  unfold top, empty, get_cnt, get_root, get_queue, get_val, load, bind, ret,
    throw, undefined.
  intros H. repeat (case_match; simplify_eq/=); done.
Qed.

Lemma size_state q s s' x : size q s = (s', x) → s' = s.
Proof.
  unfold size, get_cnt, get_queue, bind, ret.
  intros H. repeat (case_match; simplify_eq/=); done.
Qed.

Lemma empty_state q s s' x : empty q s = (s', x) → s' = s.
Proof.
  unfold empty, get_cnt, get_queue, bind, ret.
  intros H. repeat (case_match; simplify_eq/=); done.
Qed.

Lemma discard_state {A} (m : M A) s s' x :
  (∀ s1 y, m s = (s1, y) → s1 = s) → (m ;;; ret tt) s = (s', x) → s' = s.
Proof.
  intros Hm. unfold bind, ret. destruct (m s) as [s1 [a|e|]] eqn:Hrun;
    intros [= <- <-]; eauto.
Qed.

Lemma on_objects_inv qs m s s' x :
  on_objects qs m s = (s', x) → x ≠ Undefined →
  Forall (λ q, is_Some (queues s !! q)) qs ∧ m s = (s', x).
Proof.
  unfold on_objects. case_decide; [done|]. by intros [= <- <-].
Qed.

(** Every public operation keeps the invariant, whether it returns or
    throws. *)
Lemma exec_inv o s s' x :
  inv P s → exec o s = (s', x) → x ≠ Undefined → inv P s'.
Proof using P_Leaf P_single P_melded P_children P_relabel max_nodes_fits.
  tidy.
  intros [G Hinv] Hrun Hx. destruct o as [q|q b|q|q b|q|q e|q|q|q|q b]; simpl in Hrun.
  - by eapply construct_inv.
  - apply on_objects_inv in Hrun as [Hlive Hrun]; [|done].
    apply Forall_cons in Hlive as [Hb _]. by eapply copy_construct_inv.
  - apply on_objects_inv in Hrun as [Hlive Hrun]; [|done].
    apply Forall_cons in Hlive as [Hq _]. by eapply destroy_inv.
  - apply on_objects_inv in Hrun as [Hlive Hrun]; [|done].
    apply Forall_cons in Hlive as [Hq Hlive]. apply Forall_cons in Hlive as [Hb _].
    unfold bind, ret in Hrun.
    destruct (assign q b s) as [s1 [a|e|]] eqn:Hassign; simplify_eq;
      by eapply (assign_inv G s q b).
  - apply on_objects_inv in Hrun as [_ Hrun]; [|done].
    apply discard_state in Hrun as ->; [by exists G|]. intros. by eapply top_state.
  - apply on_objects_inv in Hrun as [Hlive Hrun]; [|done].
    apply Forall_cons in Hlive as [[o Ho] _].
    assert (Hinv' := Hinv). destruct Hinv' as (_ & Hok & _).
    destruct (Hok q o Ho) as (t & Ht & _).
    destruct (push_spec G s q o t e Hinv Ho Ht) as (s0 & x0 & Hrun0 & Hres).
    rewrite Hrun in Hrun0. injection Hrun0 as <- <-.
    destruct Hres as [(_ & Hn & Hq)|(t' & _ & Hinv' & _)].
    + exists G. by apply (inv_for_same P G s).
    + by exists (<[q := t']> G).
  - apply on_objects_inv in Hrun as [Hlive Hrun]; [|done].
    apply Forall_cons in Hlive as [[o Ho] _].
    assert (Hinv' := Hinv). destruct Hinv' as (_ & Hok & _).
    destruct (Hok q o Ho) as (t & Ht & _).
    destruct (pop_spec G s q o t Hinv Ho Ht) as (s0 & x0 & Hrun0 & Hres).
    rewrite Hrun in Hrun0. injection Hrun0 as <- <-.
    destruct Hres as [(_ & _ & ->)|[(_ & _ & Hn & Hq)
      |(p & v & k & tl & tr & t' & _ & _ & Hinv' & _)]].
    + by exists G.
    + exists G. by apply (inv_for_same P G s).
    + by exists (<[q := t']> G).
  - apply on_objects_inv in Hrun as [_ Hrun]; [|done].
    apply discard_state in Hrun as ->; [by exists G|]. intros. by eapply size_state.
  - apply on_objects_inv in Hrun as [_ Hrun]; [|done].
    apply discard_state in Hrun as ->; [by exists G|]. intros. by eapply empty_state.
  - apply on_objects_inv in Hrun as [Hlive Hrun]; [|done].
    apply Forall_cons in Hlive as [[oa Hoa] Hlive].
    apply Forall_cons in Hlive as [[ob Hob] _].
    destruct (decide (q = b)) as [->|Hne].
    { unfold merge in Hrun. rewrite decide_True in Hrun by done.
      injection Hrun as <- <-. by exists G. }
    assert (Hinv' := Hinv). destruct Hinv' as (_ & Hok & _).
    destruct (Hok q oa Hoa) as (ta & Hta & _).
    destruct (Hok b ob Hob) as (tb & Htb & _).
    destruct (merge_spec G s q b oa ob ta tb Hinv Hne Hoa Hob Hta Htb)
      as (s0 & x0 & Hrun0 & Hres).
    rewrite Hrun in Hrun0. injection Hrun0 as <- <-.
    destruct Hres as [(_ & _ & ->)|[(_ & _ & Hn & Hq)|(_ & t' & _ & Hinv' & _)]].
    + by exists G.
    + exists G. by apply (inv_for_same P G s).
    + by eexists.
Qed.

Lemma reachable_inv s : reachable s → inv P s.
Proof using P_Leaf P_single P_melded P_children P_relabel max_nodes_fits.
  tidy.
  induction 1 as [w|s o s' x _ IH Hrun Hx].
  - exists ∅. split_and!; try done.
    unfold node_count. simpl. rewrite map_size_empty. lia.
  - by eapply exec_inv.
Qed.

End Preservation.

Lemma run_reachable ops s : reachable s → reachable (run ops s).
Proof.
  revert s. induction ops as [|o ops IH]; intros s Hs; simpl; [done|].
  destruct (exec o s) as [s' x] eqn:Hexec.
  destruct x; try done; apply IH; by eapply reachable_step.
Qed.

Lemma run_from_reachable w ops : reachable (run_from w ops).
Proof. apply run_reachable, reachable_init. Qed.

(** ** Subtrees *)

Lemma subtree_stored h u t : stored h t → subtree u t → stored h u.
Proof.
  induction t as [|p x k tl IHl tr IHr]; simpl.
  - by intros _ [->|[]].
  - intros (Hp & Hl & Hr) [->|[Hu|Hu]]; [by split_and!|auto..].
Qed.

Lemma subtree_leftist u t : leftist t → subtree u t → leftist u.
Proof.
  induction t as [|p x k tl IHl tr IHr]; simpl.
  - by intros _ [->|[]].
  - intros (? & ? & Hl & Hr) [->|[Hu|Hu]]; [by split_and!|auto..].
Qed.

Lemma subtree_heap_ordered u t : heap_ordered t → subtree u t → heap_ordered u.
Proof.
  induction t as [|p x k tl IHl tr IHr]; simpl.
  - by intros _ [->|[]].
  - intros (? & ? & Hl & Hr) [->|[Hu|Hu]]; [by split_and!|auto..].
Qed.

Lemma leftist_rank_nonneg t : leftist t → (0 ≤ rank t)%Z.
Proof.
  induction t as [|p x k tl IHl tr IHr]; simpl; [done|].
  intros (? & -> & ? & ?%IHr). lia.
Qed.

(** ** The leftist property is kept *)

Lemma reachable_leftist s :
  (Z.of_nat max_nodes < size_t_modulus)%Z → reachable s → inv leftist s.
Proof.
  intros Hfits. apply reachable_inv; [done| | | | |done].
  - intros p x. simpl. split_and!; done.
  - intros ta tb t. apply melded_leftist.
  - intros p x k tl tr (_ & _ & ? & ?). done.
  - apply relabel_leftist.
Qed.

(** The invariant without any property of the trees: shape and count. *)
Lemma reachable_shape s :
  (Z.of_nat max_nodes < size_t_modulus)%Z → reachable s → inv (λ _, True) s.
Proof. intros Hfits. by apply reachable_inv. Qed.

Lemma inv_owns P s q t :
  inv P s → owns s q t →
  ∃ o, queues s !! q = Some o ∧ queue_ok P (nodes s) o t.
Proof.
  intros [G Hinv] Hown. eapply inv_for_tree; [done|]. by eapply inv_for_owns.
Qed.

(** ** Heap order is kept, for a predicate that computes an ordering *)

Section Ordering.

(** Whenever the default predicate returns, it returns what [lt] says. *)
Hypothesis call_sound :
  ∀ x y w w' b, call Compare_default x y w = (w', inr b) → b = lt x y.
(** [lt] is a strict weak ordering: asymmetric and negatively transitive. *)
Hypothesis lt_asym : ∀ x y, lt x y = true → lt y x = false.
Hypothesis lt_negtrans :
  ∀ x y z, lt x y = false → lt y z = false → lt x z = false.

Lemma dominates_join y p x tl t1 : dominates y (join p x tl t1) ↔ lt y x = false.
Proof. unfold join. by destruct (rank tl <? rank t1)%Z. Qed.

Lemma melded_dominates c y ta tb t :
  melded c ta tb t → dominates y ta → dominates y tb → dominates y t.
Proof. destruct 1; simpl; try done; intros; by apply dominates_join. Qed.

Lemma heap_ordered_join p x tl t1 :
  dominates x tl → dominates x t1 → heap_ordered tl → heap_ordered t1 →
  heap_ordered (join p x tl t1).
Proof. unfold join. destruct (rank tl <? rank t1)%Z; simpl; intros; by split_and!. Qed.

Lemma melded_heap_ordered ta tb t :
  melded Compare_default ta tb t →
  heap_ordered ta → heap_ordered tb → heap_ordered t.
Proof using call_sound lt_asym.
  induction 1 as [tb|ta|pa xa ka la ra pb xb kb lb rb w w' t1 Hcall Hm IH
                 |pa xa ka la ra pb xb kb lb rb w w' t1 Hcall Hm IH];
    try done; intros Ha Hb; apply call_sound in Hcall.
  - destruct Ha as (Hdl & Hdr & Hl & Hr).
    apply heap_ordered_join; try done.
    + eapply melded_dominates; [exact Hm|done|done].
    + apply IH; done.
  - destruct Hb as (Hdl & Hdr & Hl & Hr).
    apply heap_ordered_join; try done.
    + eapply melded_dominates; [exact Hm|done|]. simpl. by apply lt_asym.
    + apply IH; done.
Qed.

Lemma relabel_heap_ordered t t' : relabel t t' → heap_ordered t → heap_ordered t'.
Proof.
  revert t'. induction t as [|p x k tl IHl tr IHr]; intros [|p' x' k' tl' tr'];
    simpl; try done.
  intros (-> & -> & Hl & Hr) (Hdl & Hdr & ? & ?). split_and!; auto.
  - destruct tl, tl'; simpl in *; try done. by destruct Hl as (-> & _).
  - destruct tr, tr'; simpl in *; try done. by destruct Hr as (-> & _).
Qed.

Lemma reachable_heap_ordered s :
  (Z.of_nat max_nodes < size_t_modulus)%Z → reachable s → inv heap_ordered s.
Proof using call_sound lt_asym.
  intros Hfits. apply reachable_inv; [done|done| | | |done].
  - intros ta tb t. apply melded_heap_ordered.
  - intros p x k tl tr (_ & _ & ? & ?). done.
  - apply relabel_heap_ordered.
Qed.

Lemma lt_irrefl x : lt x x = false.
Proof using lt_asym.
  destruct (lt x x) eqn:H; [|done]. apply lt_asym in H as H'. congruence.
Qed.

(** In a heap-ordered tree nothing is greater than a value that the root
    is not greater than. *)
Lemma heap_ordered_below t :
  heap_ordered t → ∀ x, dominates x t → ∀ y, y ∈ elems t → lt x y = false.
Proof using lt_negtrans.
  induction t as [|p v k tl IHl tr IHr]; simpl; [by intros _ x _ y ?%elem_of_nil|].
  intros (Hdl & Hdr & Hl & Hr) x Hx y [->|[Hy|Hy]%elem_of_app]%elem_of_cons.
  - done.
  - apply (lt_negtrans x v y); [done|]. by apply IHl.
  - apply (lt_negtrans x v y); [done|]. by apply IHr.
Qed.

Lemma empty_inv q s s' b :
  empty q s = (s', Ok b) → ∃ o, queues s !! q = Some o ∧ b = Z.eqb (cnt o) 0.
Proof.
  unfold empty, get_cnt, get_queue, bind, ret.
  destruct (queues s !! q) as [o|]; intros; simplify_eq. eauto.
Qed.

(** C5: in every reachable state heap order holds: for every node of every
    queue and each child that exists, the child's value is not greater than
    the parent's, and the queue's predicate, called on (parent, child), never
    returns true. *)
Theorem heap_order_invariant s q o t :
  (Z.of_nat max_nodes < size_t_modulus)%Z →
  reachable s → queues s !! q = Some o → owns s q t →
  ∀ p x k tl tr, subtree (Bin p x k tl tr) t →
  ∀ child pc y kc cl cr,
    child = tl ∨ child = tr → child = Bin pc y kc cl cr →
    lt x y = false
    ∧ ∀ w w' b, call (comp o) x y w = (w', inr b) → b = false.
Proof using call_sound lt_asym.
  intros Hfits Hreach Ho Hown p x k tl tr Hsub child pc y kc cl cr Hchild ->.
  destruct (inv_owns heap_ordered s q t) as (o' & Ho' & Hok);
    [by apply reachable_heap_ordered|done|].
  assert (o' = o) as -> by congruence.
  destruct Hok as (_ & _ & _ & _ & Hcomp & Hheap).
  apply (subtree_heap_ordered _ _ Hheap) in Hsub as (Hdl & Hdr & _).
  assert (lt x y = false) as Hxy by (by destruct Hchild as [<-| <-]).
  split; [done|]. intros w w' b Hcall. rewrite Hcomp in Hcall.
  apply call_sound in Hcall. congruence.
Qed.

(** C4: on a non-empty queue of a reachable state, [top()] returns a stored
    element that no stored element is greater than: the predicate, called on
    the returned value and any stored element, never returns true. *)
Theorem top_is_maximal s q o t :
  (Z.of_nat max_nodes < size_t_modulus)%Z →
  reachable s → queues s !! q = Some o → owns s q t →
  empty q s = (s, Ok false) →
  ∃ v, top q s = (s, Ok v) ∧ v ∈ elems t
       ∧ ∀ y, y ∈ elems t →
           lt v y = false
           ∧ ∀ w w' b, call (comp o) v y w = (w', inr b) → b = false.
Proof using call_sound lt_asym lt_negtrans.
  intros Hfits Hreach Ho Hown (o' & Ho' & Hne)%empty_inv.
  assert (o' = o) as -> by congruence.
  destruct (inv_owns heap_ordered s q t) as (o' & Ho'' & Hok);
    [by apply reachable_heap_ordered|done|].
  assert (o' = o) as -> by congruence.
  destruct Hok as (Hroot & Hst & _ & Hcnt & Hcomp & Hheap).
  destruct t as [|p v k tl tr]; [by rewrite Hcnt in Hne|].
  destruct Hst as (Hp & _). simpl in Hroot.
  exists v. split_and!.
  - unfold top. erewrite bind_ok by (by apply empty_live). rewrite <-Hne.
    erewrite bind_ok by (by apply get_root_live). rewrite <-Hroot.
    by erewrite get_val_live by done.
  - simpl. apply elem_of_cons. by left.
  - intros y Hy.
    assert (lt v y = false) as Hvy.
    { apply (heap_ordered_below _ Hheap); [|done]. simpl. apply lt_irrefl. }
    split; [done|]. intros w w' b Hcall. rewrite Hcomp in Hcall.
    apply call_sound in Hcall. congruence.
Qed.

End Ordering.

(** ** Rollback *)

Lemma rolled_back_observations s s' :
  nodes s' = nodes s → queues s' = queues s → same_observations s s'.
Proof.
  intros Hn Hq q. split_and!.
  - unfold size, get_cnt, get_queue, bind, ret. rewrite Hq.
    by destruct (queues s !! q).
  - unfold top, empty, get_cnt, get_root, get_queue, get_val, load, bind, ret,
      throw, undefined.
    rewrite Hq. destruct (queues s !! q) as [o|]; simpl; [|done].
    destruct (cnt o =? 0)%Z; simpl; [done|]. rewrite Hq.
    destruct (queues s !! q) as [o'|]; simpl; [|done].
    destruct (root o') as [p|]; simpl; [|done].
    rewrite Hn. by destruct (nodes s !! p).
  - intros t. unfold owns. by rewrite Hn, Hq.
Qed.

(** C1: if the ordering predicate throws during push, pop or merge, that is,
    if the meld that the operation runs ends in an exception, then the
    operation raises [runtime_error] (the spec's OperationFailed) and leaves
    every node and every queue object as it was before the call: size(),
    top() and the elements of every queue are the same, and after a failed
    merge the other queue still holds its elements. *)
Theorem compare_throw_rolls_back :
  (∀ s q o e s1 node s2 x,
     queues s !! q = Some o →
     new_Node e s = (s1, Ok node) →
     meld_run (comp o) (root o) (Some node) s1 = (s2, Throw x) →
     ∃ s', push q e s = (s', Throw runtime_error)
           ∧ nodes s' = nodes s ∧ queues s' = queues s
           ∧ same_observations s s')
  ∧ (∀ s q o p n s2 x,
       queues s !! q = Some o → cnt o ≠ 0%Z →
       root o = Some p → nodes s !! p = Some n →
       meld_run (comp o) (l n) (r n) s = (s2, Throw x) →
       ∃ s', pop q s = (s', Throw runtime_error)
             ∧ nodes s' = nodes s ∧ queues s' = queues s
             ∧ same_observations s s')
  ∧ (∀ s a b oa ob s2 x,
       a ≠ b → queues s !! a = Some oa → queues s !! b = Some ob →
       cnt ob ≠ 0%Z →
       meld_run (comp oa) (root oa) (root ob) s = (s2, Throw x) →
       ∃ s', merge a b s = (s', Throw runtime_error)
             ∧ nodes s' = nodes s ∧ queues s' = queues s
             ∧ same_observations s s'
             ∧ queues s' !! b = Some ob).
Proof.
  split_and!.
  - intros s q o e s1 node s2 x Ho Hnew Hrun.
    destruct (new_Node_spec e s)
      as [[Hnew' _]|[(u & w' & Hnew' & _)|(pn & w' & Hnew' & Hfresh & _)]];
      rewrite Hnew in Hnew'; simplify_eq.
    apply meld_throw in Hrun as Hsame. destruct Hsame as (Hn2 & Hq2 & _).
    simpl in Hn2, Hq2.
    unfold push. erewrite bind_ok by exact Hnew.
    erewrite try_catch_throw; last first.
    { erewrite bind_ok by (by apply get_root_live).
      erewrite bind_ok by (by apply get_comp_live).
      apply bind_throw_l. exact Hrun. }
    erewrite bind_ok; last first.
    { eapply delete_node_live. rewrite Hn2. apply lookup_insert_eq. }
    assert (delete pn (nodes s2) = nodes s) as Hn.
    { rewrite Hn2, delete_insert_eq. by apply delete_id. }
    eexists. split; [reflexivity|]. simpl.
    split_and!; [done..|]. by apply rolled_back_observations.
  - intros s q o p n s2 x Ho Hcnt Hroot Hp Hrun.
    apply meld_throw in Hrun as Hsame. destruct Hsame as (Hn2 & Hq2 & _).
    unfold pop. erewrite bind_ok by (by apply empty_live).
    replace (Z.eqb (cnt o) 0) with false by (symmetry; by apply Z.eqb_neq).
    erewrite bind_ok by (by apply get_root_live).
    erewrite try_catch_throw; last first.
    { erewrite bind_ok by (by apply get_root_live). rewrite Hroot.
      erewrite bind_ok by (by apply get_l_live).
      erewrite bind_ok by (by apply get_r_live).
      erewrite bind_ok by (by apply get_comp_live).
      apply bind_throw_l. exact Hrun. }
    erewrite bind_ok by (apply set_root_live; rewrite Hq2; exact Ho).
    assert (<[q := mkPq (root o) (cnt o) (comp o)]> (queues s2) = queues s) as Hq.
    { rewrite Hq2, pq_eta. by apply insert_id. }
    eexists. split; [reflexivity|]. simpl.
    split_and!; [done..|]. by apply rolled_back_observations.
  - intros s a b oa ob s2 x Hab Hoa Hob Hcnt Hrun.
    apply meld_throw in Hrun as Hsame. destruct Hsame as (Hn2 & Hq2 & _).
    unfold merge. rewrite decide_False by done.
    erewrite bind_ok by (by apply empty_live).
    replace (Z.eqb (cnt ob) 0) with false by (symmetry; by apply Z.eqb_neq).
    erewrite try_catch_throw; last first.
    { erewrite bind_ok by (by apply get_root_live).
      erewrite bind_ok by (by apply get_root_live).
      erewrite bind_ok by (by apply get_comp_live).
      apply bind_throw_l. exact Hrun. }
    eexists. split; [reflexivity|].
    split_and!; [done..| |by rewrite Hq2]. by apply rolled_back_observations.
Qed.

(** ** Merge *)

Lemma inv_for_owned P G s q t :
  inv_for P G s → G !! q = Some t → owns s q t.
Proof.
  intros Hinv Ht. destruct (inv_for_tree _ _ _ _ _ Hinv Ht) as (o & Ho & Hr & Hst & _).
  by exists o.
Qed.

Lemma size_live q o s : queues s !! q = Some o → size q s = (s, Ok (cnt o)).
Proof. apply get_cnt_live. Qed.

(** C2: for two distinct queues [a] and [b] of a reachable state, when
    [a.merge(b)] returns, [a] holds exactly the elements that [a] and [b]
    held before, [a.size()] is the sum of the two sizes before, and [b] is
    empty: its root is absent and its size is 0. *)
Theorem merge_correct s a b ta tb s' :
  (Z.of_nat max_nodes < size_t_modulus)%Z →
  reachable s → a ≠ b → owns s a ta → owns s b tb →
  merge a b s = (s', Ok tt) →
  ∃ t', owns s' a t'
    ∧ elems t' ≡ₚ elems ta ++ elems tb
    ∧ (∃ ka kb, size a s = (s, Ok ka) ∧ size b s = (s, Ok kb)
                ∧ size a s' = (s', Ok (ka + kb)%Z))
    ∧ owns s' b Leaf
    ∧ size b s' = (s', Ok 0%Z)
    ∧ empty b s' = (s', Ok true).
Proof.
  intros Hfits Hreach Hab Hown_a Hown_b Hrun.
  destruct (reachable_shape s Hfits Hreach) as [G Hinv].
  assert (Hta := inv_for_owns _ _ _ _ _ Hinv Hown_a).
  assert (Htb := inv_for_owns _ _ _ _ _ Hinv Hown_b).
  destruct (inv_for_tree _ _ _ _ _ Hinv Hta) as (oa & Hoa & Hoka).
  destruct (inv_for_tree _ _ _ _ _ Hinv Htb) as (ob & Hob & Hokb).
  destruct (merge_spec (λ _, True) ltac:(done) ltac:(done) ltac:(done)
              ltac:(done) ltac:(done) Hfits G s a b oa ob ta tb)
    as (s0 & x0 & Hrun0 & Hres); try done.
  rewrite Hrun in Hrun0. injection Hrun0 as <- <-.
  destruct Hres as [(-> & _ & ->)|[(_ & ? & _)|(_ & t' & _ & Hinv' & Hm & Hqs)]];
    [|done|].
  - destruct Hokb as (Hrootb & _ & _ & Hcntb & _). simpl in Hrootb, Hcntb.
    exists ta. split_and!; try done.
    + by rewrite app_nil_r.
    + exists (cnt oa), (cnt ob). split_and!; try by apply size_live.
      rewrite Hcntb, Z.add_0_r. by apply size_live.
    + by rewrite (size_live b ob s Hob), Hcntb.
    + erewrite empty_live by done. by rewrite Hcntb.
  - assert (queues s' !! a = Some (mkPq (rootp t') (cnt oa + cnt ob) (comp oa))) as Hoa'.
    { rewrite Hqs, lookup_insert_ne by done. apply lookup_insert_eq. }
    assert (queues s' !! b = Some (mkPq None 0 (comp ob))) as Hob'.
    { rewrite Hqs. apply lookup_insert_eq. }
    exists t'. split_and!.
    + eapply inv_for_owned; [exact Hinv'|]. apply lookup_insert_eq.
    + by eapply melded_elems.
    + exists (cnt oa), (cnt ob). split_and!; [by apply size_live..|].
      by rewrite (size_live a _ s' Hoa').
    + eapply inv_for_owned; [exact Hinv'|].
      rewrite lookup_insert_ne by done. apply lookup_insert_eq.
    + by rewrite (size_live b _ s' Hob').
    + by rewrite (empty_live b _ s' Hob').
Qed.

(** ** A failing copy in [push] *)

(** C3 (amended): when copying the value fails in [push(v)], the exception
    of the copy constructor reaches the caller as it is: the node is built
    before the [try] block, so nothing converts it into [runtime_error].
    No node and no queue object has changed. *)
Theorem push_copy_failure_propagates s q e w' u :
  node_count s < max_nodes →
  copy_T e (world s) = (w', Some u) →
  ∃ s', push q e s = (s', Throw (thrown u))
        ∧ nodes s' = nodes s ∧ queues s' = queues s
        ∧ same_observations s s'.
Proof.
  intros Hroom Hcopy. exists (set_world w' s).
  split; [|split_and!; [done..|by apply rolled_back_observations]].
  unfold push. apply bind_throw_l. unfold new_Node.
  rewrite decide_True by done. by rewrite Hcopy.
Qed.

(** ** The leftist property and the count *)

(** C6: in every reachable state, every node of every queue has a left
    child of rank at least the rank of its right child, and its own rank is
    the rank of its right child plus one, an absent child counting 0; so
    every rank is at least 1.  The ranks are the [npl] fields in the store. *)
Theorem leftist_invariant s q t :
  (Z.of_nat max_nodes < size_t_modulus)%Z →
  reachable s → owns s q t →
  ∀ p x k tl tr, subtree (Bin p x k tl tr) t →
    nodes s !! p = Some (mkNode x (rootp tl) (rootp tr) k)
    ∧ (rank tr ≤ rank tl)%Z ∧ k = (rank tr + 1)%Z ∧ (1 ≤ k)%Z.
Proof.
  intros Hfits Hreach Hown p x k tl tr Hsub.
  destruct (inv_owns leftist s q t) as (o & Ho & Hok);
    [by apply reachable_leftist|done|].
  destruct Hok as (_ & Hst & _ & _ & _ & Hleft).
  apply (subtree_stored _ _ _ Hst) in Hsub as Hst'.
  apply (subtree_leftist _ _ Hleft) in Hsub as Hleft'.
  destruct Hst' as (Hp & _). destruct Hleft' as (Hle & Hk & _ & Hr).
  split_and!; try done. apply leftist_rank_nonneg in Hr. lia.
Qed.

(** A leftist tree of rank [k] has at least [2^k - 1] nodes. *)
Lemma leftist_rank_bound t :
  leftist t → (2 ^ rank t ≤ Z.of_nat (tsize t) + 1)%Z.
Proof.
  induction t as [|p x k tl IHl tr IHr]; simpl; [done|].
  intros (Hle & -> & Hl & Hr).
  assert (0 ≤ rank tr)%Z by (by apply leftist_rank_nonneg).
  assert (2 ^ rank tr ≤ 2 ^ rank tl)%Z by (apply Z.pow_le_mono_r; lia).
  specialize (IHl Hl). specialize (IHr Hr).
  rewrite Z.pow_add_r by lia. lia.
Qed.

(** X18: [npl] is an [int] in the source and an unbounded integer here.
    Nothing is lost: in a reachable state every stored rank is at least 1
    and at most 64, so [get_npl(a->r) + 1] never overflows. *)
Lemma subtree_tsize u t : subtree u t → tsize u ≤ tsize t.
Proof.
  induction t as [|p x k tl IHl tr IHr]; simpl.
  - by intros [->|[]].
  - intros [->|[Hu|Hu]]; [done|apply IHl in Hu; lia|apply IHr in Hu; lia].
Qed.

Lemma npl_fits_int s q t :
  (Z.of_nat max_nodes < size_t_modulus)%Z →
  reachable s → owns s q t →
  ∀ p x k tl tr, subtree (Bin p x k tl tr) t → (1 ≤ k ≤ 64)%Z.
Proof.
  intros Hfits Hreach Hown p x k tl tr Hsub.
  destruct (reachable_leftist s Hfits Hreach) as [G Hinv].
  assert (Ht := inv_for_owns _ _ _ _ _ Hinv Hown).
  destruct (inv_for_tree _ _ _ _ _ Hinv Ht)
    as (o & Ho & _ & Hst & Hnd & _ & _ & Hleft).
  destruct Hinv as (Hcap & _).
  assert (tsize t ≤ max_nodes) as Hsize.
  { etrans; [|exact Hcap]. by apply stored_size. }
  apply subtree_tsize in Hsub as Hsub_size.
  apply (subtree_leftist _ _ Hleft) in Hsub as Hsub_left.
  assert (Hbound := leftist_rank_bound _ Hsub_left).
  destruct Hsub_left as (_ & Hkeq & _ & Hr%leftist_rank_nonneg).
  simpl in Hbound, Hsub_size. split; [lia|].
  destruct (decide (k ≤ 64)%Z) as [|Hbig]; [done|]. exfalso.
  assert (2 ^ 65 ≤ 2 ^ k)%Z by (apply Z.pow_le_mono_r; lia).
  unfold size_t_modulus in Hfits. lia.
Qed.

(** C7: in every reachable state, also one left behind by a failed
    operation, [size()] is the number of elements reachable from the root
    (each node counted once), and [empty()] is true exactly when there is
    none. *)
Theorem count_invariant s q o :
  (Z.of_nat max_nodes < size_t_modulus)%Z →
  reachable s → queues s !! q = Some o →
  ∃ t, owns s q t ∧ NoDup (addrs t)
       ∧ size q s = (s, Ok (Z.of_nat (length (elems t))))
       ∧ empty q s = (s, Ok (bool_decide (length (elems t) = 0))).
Proof.
  intros Hfits Hreach Ho.
  destruct (reachable_shape s Hfits Hreach) as [G (_ & Hok & _)].
  destruct (Hok q o Ho) as (t & _ & Hroot & Hst & Hnd & Hcnt & _).
  exists t. rewrite length_elems. split_and!; try done.
  - by exists o.
  - by rewrite (size_live q o s Ho), Hcnt.
  - rewrite (empty_live q o s Ho), Hcnt. by destruct (tsize t).
Qed.

(** ** Calls on an empty queue *)

Lemma size_inv q s s' k :
  size q s = (s', Ok k) → ∃ o, queues s !! q = Some o ∧ cnt o = k.
Proof.
  unfold size, get_cnt, get_queue, bind, ret.
  destruct (queues s !! q) as [o|]; intros; simplify_eq. eauto.
Qed.

(** C8: on a queue whose [size()] is 0, [top()] and [pop()] raise
    [container_is_empty] (the spec's EmptyContainer) and the state is the one
    before the call: the size is still 0 and the root is absent. *)
Theorem empty_queue_raises s q :
  (Z.of_nat max_nodes < size_t_modulus)%Z →
  reachable s → size q s = (s, Ok 0%Z) →
  top q s = (s, Throw container_is_empty)
  ∧ pop q s = (s, Throw container_is_empty)
  ∧ owns s q Leaf.
Proof.
  intros Hfits Hreach (o & Ho & Hcnt)%size_inv. split_and!.
  - unfold top. erewrite bind_ok by (by apply empty_live). by rewrite Hcnt.
  - unfold pop. erewrite bind_ok by (by apply empty_live). by rewrite Hcnt.
  - destruct (reachable_shape s Hfits Hreach) as [G (_ & Hok & _)].
    destruct (Hok q o Ho) as (t & _ & Hroot & Hst & _ & Hcnt' & _).
    destruct t; [by exists o|]. simpl in Hcnt'. lia.
Qed.

(** ** The tie-break of [meld] *)

Lemma bind_ok_inv {A B} (m : M A) (k : A → M B) s s' b :
  bind m k s = (s', Ok b) → ∃ a s1, m s = (s1, Ok a) ∧ k a s1 = (s', Ok b).
Proof. unfold bind. destruct (m s) as [s1 [a| |]]; intros; simplify_eq. eauto. Qed.

Lemma meld_commit_result a newRight s s' x :
  meld_commit a newRight s = (s', Ok x) → x = Some a.
Proof.
  unfold meld_commit, set_r, set_l, set_npl, get_l, get_r, get_npl,
    get_npl_field, bind, load, store, ret.
  intros H. repeat (case_match; simplify_eq/=); done.
Qed.

(** C9: when [meld] unions two non-empty trees and the comparison of the
    two roots returns [less], the root of the result is the root of [b] if
    [less] is true and the root of [a] otherwise; so on a tie, where the
    comparison is false, the root of [a] stays.  The run itself ends, either
    in that result or in an exception that a deeper comparison threw. *)
Theorem meld_tie_break c fuel s pa xa ka la ra pb xb kb lb rb w' less :
  stored (nodes s) (Bin pa xa ka la ra) →
  stored (nodes s) (Bin pb xb kb lb rb) →
  NoDup (addrs (Bin pa xa ka la ra) ++ addrs (Bin pb xb kb lb rb)) →
  tsize (Bin pa xa ka la ra) + tsize (Bin pb xb kb lb rb) ≤ fuel →
  call c xa xb (world s) = (w', inr less) →
  ∃ s' x, meld fuel c (Some pa) (Some pb) s = (s', x)
    ∧ ((∃ u, x = Throw (thrown u))
       ∨ x = Ok (Some (if less then pb else pa))).
Proof.
  intros Ha Hb Hnd Hfuel Hcall.
  destruct (meld_refines c fuel _ _ s Ha Hb Hnd Hfuel) as (s' & x & Hrun & _ & Hres).
  simpl rootp in Hrun. exists s', x. split; [done|].
  destruct Hres as [[Hu _]|(t & -> & _)]; [by left|]. right.
  destruct fuel as [|fuel]; [simpl in Hfuel; lia|].
  rewrite meld_unfold in Hrun. destruct Ha as (Hpa & _), Hb as (Hpb & _).
  erewrite bind_ok in Hrun by (by apply get_val_live).
  erewrite bind_ok in Hrun by (by apply get_val_live). simpl in Hrun.
  unfold bind at 1 in Hrun. rewrite comp_call_eq, Hcall in Hrun. simpl in Hrun.
  apply bind_ok_inv in Hrun as (ar & s1 & _ & Hrun).
  apply bind_ok_inv in Hrun as (nr & s2 & _ & Hrun).
  apply meld_commit_result in Hrun. by rewrite Hrun.
Qed.

(** ** Self-assignment *)

(** C10: [q = q] returns the reference to [q] and leaves the whole state as
    it is: the elements, the size and the comparator of [q], every node, and
    the environment of the user code, which a run of clone would have
    called. *)
Theorem self_assign_noop q s : assign q q s = (s, Ok q).
Proof. unfold assign. by rewrite decide_True. Qed.

(** * Further properties of the class *)

(** ** [meld] neither allocates nor frees *)

(** [same_alloc s s']: the same addresses are live in [s'] as in [s], and the
    queue objects are the same. *)
Definition same_alloc (s s' : state) : Prop :=
  dom (nodes s') = dom (nodes s) ∧ queues s' = queues s.

(** [keeps m]: whatever way a run of [m] ends, it has allocated and freed
    nothing and written to no queue object. *)
Definition keeps {A} (m : M A) : Prop :=
  ∀ s s' x, m s = (s', x) → same_alloc s s'.

Lemma same_alloc_refl s : same_alloc s s.
Proof. by split. Qed.

Lemma same_alloc_trans s1 s2 s3 :
  same_alloc s1 s2 → same_alloc s2 s3 → same_alloc s1 s3.
Proof. intros [? ?] [? ?]. split; congruence. Qed.

Lemma keeps_ret {A} (a : A) : keeps (ret a).
Proof. intros s s' x [= <- <-]. apply same_alloc_refl. Qed.

Lemma keeps_bind {A B} (m : M A) (k : A → M B) :
  keeps m → (∀ a, keeps (k a)) → keeps (bind m k).
Proof.
  intros Hm Hk s s' x. unfold bind.
  destruct (m s) as [s1 [a|e|]] eqn:Hrun; intros Hx.
  - eapply same_alloc_trans; [by eapply Hm|by eapply Hk].
  - injection Hx as <- <-. by eapply Hm.
  - injection Hx as <- <-. by eapply Hm.
Qed.

Lemma keeps_load p : keeps (load p).
Proof.
  intros s s' x. unfold load. destruct (nodes s !! p); intros [= <- <-];
    apply same_alloc_refl.
Qed.

Lemma keeps_store p n : keeps (store p n).
Proof.
  tidy. intros s s' x. unfold store. destruct (nodes s !! p) as [n0|] eqn:Hp;
    intros [= <- <-]; [|apply same_alloc_refl].
  split; [|done]. simpl. rewrite dom_insert_L.
  assert (p ∈ dom (nodes s)) by (apply elem_of_dom; eauto). set_solver.
Qed.

Lemma keeps_comp_call c x y : keeps (comp_call c x y).
Proof.
  intros s s' o. unfold comp_call.
  destruct (call c x y (world s)) as [w [u|b]]; intros [= <- <-]; by split.
Qed.

Lemma keeps_get_npl x : keeps (get_npl x).
Proof.
  destruct x as [p|]; [|apply keeps_ret].
  apply keeps_bind; [apply keeps_load|intros; apply keeps_ret].
Qed.

Lemma keeps_meld_commit a newRight : keeps (meld_commit a newRight).
Proof.
  unfold meld_commit, set_r, set_l, set_npl, get_l, get_r.
  repeat first
    [ apply keeps_ret | apply keeps_load | apply keeps_store
    | apply keeps_get_npl
    | apply keeps_bind; [|intros ?]
    | match goal with |- keeps (if ?b then _ else _) => destruct b end ].
Qed.

Lemma meld_keeps fuel c a b : keeps (meld fuel c a b).
Proof.
  revert a b.
  induction fuel as [|fuel IH]; intros [pa|] [pb|];
    try (intros s s' x [= <- <-]; apply same_alloc_refl).
  rewrite meld_unfold. unfold get_val, get_r.
  repeat first
    [ apply keeps_ret | apply keeps_load | apply keeps_comp_call
    | apply keeps_meld_commit | apply IH
    | apply keeps_bind; [|intros ?] ].
Qed.

(** X1: a run of [meld], whether it returns, throws or goes wrong, leaves
    the set of live node addresses and all queue objects as they were: it
    only rewrites fields of nodes that exist. *)
Theorem meld_never_allocates fuel c a b s s' x :
  meld fuel c a b s = (s', x) →
  dom (nodes s') = dom (nodes s) ∧ queues s' = queues s.
Proof. apply meld_keeps. Qed.

(** ** The contract of [meld] on two valid heaps *)

Section MeldContract.

Hypothesis call_sound :
  ∀ x y w w' b, call Compare_default x y w = (w', inr b) → b = lt x y.
Hypothesis lt_asym : ∀ x y, lt x y = true → lt y x = false.

(** X2: [meld] applied to two disjoint, heap-ordered leftist trees either
    throws what the predicate threw, with the store as it was, or returns
    the root of a heap-ordered leftist tree that is made of exactly the
    nodes of the two operands and holds exactly their elements; no other
    node is written. *)
Theorem meld_valid_heap fuel ta tb s :
  stored (nodes s) ta → stored (nodes s) tb →
  NoDup (addrs ta ++ addrs tb) → tsize ta + tsize tb ≤ fuel →
  heap_ordered ta → heap_ordered tb → leftist ta → leftist tb →
  ∃ s' x, meld fuel Compare_default (rootp ta) (rootp tb) s = (s', x)
    ∧ ((∃ u, x = Throw (thrown u)) ∧ nodes s' = nodes s
       ∨ ∃ t, x = Ok (rootp t) ∧ stored (nodes s') t
           ∧ addrs t ≡ₚ addrs ta ++ addrs tb
           ∧ elems t ≡ₚ elems ta ++ elems tb
           ∧ heap_ordered t ∧ leftist t
           ∧ ∀ p, p ∉ addrs ta ++ addrs tb → nodes s' !! p = nodes s !! p).
Proof using call_sound lt_asym.
  intros Ha Hb Hnd Hfuel Hoa Hob Hla Hlb.
  destruct (meld_refines Compare_default fuel ta tb s Ha Hb Hnd Hfuel)
    as (s' & x & Hrun & _ & Hres).
  exists s', x. split; [done|].
  destruct Hres as [?|(t & -> & Hm & Hst & Hfr & _)]; [by left|]. right.
  exists t. split_and!; try done.
  - by eapply melded_addrs.
  - by eapply melded_elems.
  - by eapply melded_heap_ordered.
  - by eapply melded_leftist.
Qed.

End MeldContract.

(** ** [meld] is logarithmic *)

Lemma bind_ext {A B} (m : M A) (k k' : A → M B) s :
  (∀ a s1, m s = (s1, Ok a) → k a s1 = k' a s1) → bind m k s = bind m k' s.
Proof. intros Hk. unfold bind. destruct (m s) as [s1 [a|e|]]; auto. Qed.

(** On leftist trees the rank of a tree is the length of its right spine,
    and each frame of [meld] that compares steps down one right spine: fuel
    for [rank ta + rank tb] frames gives the run that any larger fuel gives. *)
Lemma meld_rank_fuel c fuel big ta tb s :
  stored (nodes s) ta → stored (nodes s) tb →
  leftist ta → leftist tb →
  (rank ta + rank tb ≤ Z.of_nat fuel)%Z → fuel ≤ big →
  meld fuel c (rootp ta) (rootp tb) s = meld big c (rootp ta) (rootp tb) s.
Proof.
  revert big ta tb s. induction fuel as [|fuel IH];
    intros big [|pa xa ka la ra] [|pb xb kb lb rb] s Ha Hb Hla Hlb Hrank Hbig;
    try (by destruct big).
  { destruct Hla as (_ & -> & _ & ?%leftist_rank_nonneg).
    destruct Hlb as (_ & -> & _ & ?%leftist_rank_nonneg). simpl in Hrank. lia. }
  destruct big as [|big]; [lia|]. simpl rootp. rewrite !meld_unfold.
  destruct Ha as (Hpa & Hsla & Hsra), Hb as (Hpb & Hslb & Hsrb).
  assert (Hla' := Hla). assert (Hlb' := Hlb).
  destruct Hla' as (_ & Hka & Hlla & Hlra), Hlb' as (_ & Hkb & Hllb & Hlrb).
  assert (0 ≤ rank ra)%Z by (by apply leftist_rank_nonneg).
  assert (0 ≤ rank rb)%Z by (by apply leftist_rank_nonneg).
  simpl in Hrank.
  apply bind_ext. intros va s1 Hva.
  rewrite (get_val_live _ _ _ Hpa) in Hva. injection Hva as <- <-.
  apply bind_ext. intros vb s1 Hvb.
  rewrite (get_val_live _ _ _ Hpb) in Hvb. injection Hvb as <- <-.
  apply bind_ext. intros less s1 Hless.
  apply comp_call_inv in Hless as Hsame. destruct Hsame as (Hn1 & _).
  apply bind_ext. intros ar s2 Har. destruct less.
  - assert (nodes s1 !! pb = Some (mkNode xb (rootp lb) (rootp rb) kb)) as Hpb1
      by (by rewrite Hn1).
    rewrite (get_r_live _ _ _ Hpb1) in Har. injection Har as <- <-.
    unfold bind. assert (Heq := IH big rb (Bin pa xa ka la ra) s1).
    simpl rootp in Heq. rewrite Heq; try done.
    + by rewrite Hn1.
    + rewrite Hn1. by split_and!.
    + simpl. lia.
    + lia.
  - assert (nodes s1 !! pa = Some (mkNode xa (rootp la) (rootp ra) ka)) as Hpa1
      by (by rewrite Hn1).
    rewrite (get_r_live _ _ _ Hpa1) in Har. injection Har as <- <-.
    unfold bind. assert (Heq := IH big ra (Bin pb xb kb lb rb) s1).
    simpl rootp in Heq. rewrite Heq; try done.
    + by rewrite Hn1.
    + rewrite Hn1. by split_and!.
    + simpl. lia.
    + lia.
Qed.

(** X3: on two disjoint leftist trees [meld] nests at most
    [rank ta + rank tb] comparing frames, and a leftist tree of rank [k]
    has at least [2^k - 1] nodes: the depth of the recursion is logarithmic
    in the sizes, and within that depth the run ends, in a result or in an
    exception of the predicate. *)
Theorem meld_logarithmic c fuel ta tb s :
  stored (nodes s) ta → stored (nodes s) tb →
  NoDup (addrs ta ++ addrs tb) →
  leftist ta → leftist tb →
  (rank ta + rank tb ≤ Z.of_nat fuel)%Z →
  (2 ^ rank ta ≤ Z.of_nat (tsize ta) + 1)%Z
  ∧ (2 ^ rank tb ≤ Z.of_nat (tsize tb) + 1)%Z
  ∧ ∃ s' x, meld fuel c (rootp ta) (rootp tb) s = (s', x)
      ∧ ((∃ u, x = Throw (thrown u))
         ∨ ∃ t, x = Ok (rootp t) ∧ melded c ta tb t ∧ stored (nodes s') t).
Proof.
  intros Ha Hb Hnd Hla Hlb Hrank.
  split; [by apply leftist_rank_bound|]. split; [by apply leftist_rank_bound|].
  set (big := fuel `max` (tsize ta + tsize tb)).
  destruct (meld_refines c big ta tb s Ha Hb Hnd) as (s' & x & Hrun & _ & Hres);
    [lia|].
  exists s', x. split.
  - rewrite <-Hrun. apply meld_rank_fuel; try done. lia.
  - destruct Hres as [[Hu _]|(t & -> & Hm & Hst & _)]; [by left|]. right. eauto.
Qed.

(** ** The stored rank is the null-path length *)

(** The null-path length of a tree, computed from its shape: 0 for an absent
    tree, otherwise one more than the smaller of the two children's. *)
Fixpoint null_path_length (t : tree) : Z :=
  match t with
  | Leaf => 0%Z
  | Bin _ _ _ tl tr => (1 + Z.min (null_path_length tl) (null_path_length tr))%Z
  end.

Lemma leftist_null_path_length t : leftist t → rank t = null_path_length t.
Proof.
  induction t as [|p x k tl IHl tr IHr]; simpl; [done|].
  intros (Hle & -> & Hl & Hr). rewrite <-(IHl Hl), <-(IHr Hr). lia.
Qed.

(** X4: in every reachable state the [npl] field of every node of every
    queue is the null-path length of the subtree below it, although [meld]
    only ever computes it from the right child. *)
Theorem npl_is_null_path_length s q t :
  (Z.of_nat max_nodes < size_t_modulus)%Z →
  reachable s → owns s q t →
  ∀ p x k tl tr, subtree (Bin p x k tl tr) t →
    ∃ n, nodes s !! p = Some n
         ∧ npl n = null_path_length (Bin p x k tl tr).
Proof.
  intros Hfits Hreach Hown p x k tl tr Hsub.
  destruct (inv_owns leftist s q t) as (o & Ho & Hok);
    [by apply reachable_leftist|done|].
  destruct Hok as (_ & Hst & _ & _ & _ & Hleft).
  apply (subtree_stored _ _ _ Hst) in Hsub as Hst'.
  apply (subtree_leftist _ _ Hleft) in Hsub as Hleft'.
  destruct Hst' as (Hp & _). eexists. split; [exact Hp|].
  by rewrite <-(leftist_null_path_length _ Hleft').
Qed.

(** ** The contracts of [clear] and [clone] *)

Lemma freed_count (h h' : gmap positive Node) (ps : list positive) :
  NoDup ps →
  (∀ p, p ∈ ps → is_Some (h !! p)) →
  (∀ p, p ∈ ps → h' !! p = None) →
  (∀ p, p ∉ ps → h' !! p = h !! p) →
  base.size h' + length ps = base.size h.
Proof.
  tidy. intros Hnd Hlive Hgone Hfr.
  assert (length ps ≤ base.size h) by (by apply live_addrs_bound).
  assert (dom h' = dom h ∖ list_to_set ps) as Hdom.
  { apply set_eq. intros p.
    rewrite elem_of_difference, !elem_of_dom, elem_of_list_to_set.
    destruct (decide (p ∈ ps)) as [Hin|Hout].
    - rewrite Hgone by done. split; [by intros [? ?]|by intros [_ ?]].
    - rewrite Hfr by done. naive_solver. }
  rewrite <-(size_dom h'), Hdom, size_difference, size_dom, size_list_to_set;
    [lia|done|].
  intros p Hp%elem_of_list_to_set. apply elem_of_dom. auto.
Qed.


(** X6: [clone] writes to no node that was live before the call, so the
    original tree stays as it is whether [clone] returns or throws; when it
    returns, the result is the same tree, element for element and rank for
    rank, laid out in nodes that did not exist before, each used once. *)
Theorem clone_makes_independent_copy t s :
  stored (nodes s) t → NoDup (addrs t) → node_count s ≤ max_nodes →
  ∃ s' x, clone_run (rootp t) s = (s', x)
    ∧ stored (nodes s') t
    ∧ queues s' = queues s
    ∧ (∀ p, is_Some (nodes s !! p) → nodes s' !! p = nodes s !! p)
    ∧ ((∃ e, x = Throw e)
       ∨ ∃ t', x = Ok (rootp t') ∧ stored (nodes s') t'
           ∧ relabel t t' ∧ elems t' = elems t
           ∧ NoDup (addrs t')
           ∧ ∀ p, p ∈ addrs t' → nodes s !! p = None).
Proof.
  intros Hst Hnd Hcap.
  destruct (clone_spec (node_count s) t s)
    as (s' & x & Hrun & Hq & _ & Hext & Hres); [done|by apply stored_size|done|].
  exists s', x. split_and!; try done.
  - by eapply stored_extends.
  - destruct Hres as [?|(t' & -> & Hrel & Hst' & Hnd' & Hfresh)]; [by left|].
    right. exists t'. split_and!; try done. by apply relabel_elems.
Qed.

(** ** What [push], [pop] and [merge] do to the queues of a program *)

Lemma inv_for_others P G s s' q t' :
  inv_for P G s → inv_for P (<[q := t']> G) s' →
  ∀ q2 t2, q2 ≠ q → owns s q2 t2 → owns s' q2 t2.
Proof.
  intros Hinv Hinv' q2 t2 Hne Hown.
  eapply inv_for_owned; [exact Hinv'|].
  rewrite lookup_insert_ne by done. by eapply inv_for_owns.
Qed.

Lemma inv_for_size P G s q t :
  inv_for P G s → G !! q = Some t → size q s = (s, Ok (Z.of_nat (tsize t))).
Proof.
  intros Hinv Ht.
  destruct (inv_for_tree _ _ _ _ _ Hinv Ht) as (o & Ho & _ & _ & _ & Hcnt & _).
  by rewrite (size_live q o s Ho), Hcnt.
Qed.

(** X7: when [push(e)] returns on a queue of a reachable state, the queue
    holds its former elements and [e], its size has grown by one, and every
    other queue owns the tree it owned before. *)
Theorem push_adds_element s q t e s' :
  (Z.of_nat max_nodes < size_t_modulus)%Z →
  reachable s → owns s q t →
  push q e s = (s', Ok tt) →
  ∃ t', owns s' q t'
    ∧ elems t' ≡ₚ e :: elems t
    ∧ (∃ k, size q s = (s, Ok k) ∧ size q s' = (s', Ok (k + 1)%Z))
    ∧ ∀ q2 t2, q2 ≠ q → owns s q2 t2 → owns s' q2 t2.
Proof.
  intros Hfits Hreach Hown Hrun.
  destruct (reachable_shape s Hfits Hreach) as [G Hinv].
  assert (Ht := inv_for_owns _ _ _ _ _ Hinv Hown).
  destruct (inv_for_tree _ _ _ _ _ Hinv Ht) as (o & Ho & _).
  destruct (push_spec (λ _, True) ltac:(done) ltac:(done) ltac:(done)
              ltac:(done) ltac:(done) Hfits G s q o t e Hinv Ho Ht)
    as (s0 & x0 & Hrun0 & Hres).
  rewrite Hrun in Hrun0. injection Hrun0 as <- <-.
  destruct Hres as [([err ?] & _)|(t' & _ & Hinv' & Hperm)]; [done|].
  exists t'. split_and!.
  - eapply inv_for_owned; [exact Hinv'|]. apply lookup_insert_eq.
  - rewrite Hperm. by rewrite Permutation_app_comm.
  - exists (Z.of_nat (tsize t)). split; [by eapply inv_for_size|].
    rewrite (inv_for_size _ _ _ q t' Hinv') by apply lookup_insert_eq.
    do 2 f_equal. apply Permutation_length in Hperm.
    rewrite length_app, !length_elems in Hperm. simpl in Hperm. lia.
  - by eapply inv_for_others.
Qed.

Lemma delete_node_no_throw p s s' e : delete_node p s ≠ (s', Throw e).
Proof. unfold delete_node. by destruct (nodes s !! p). Qed.

(** X8: on a live queue of a reachable state [push] never goes wrong, and
    whenever it does not return it has changed no node and no queue object.
    It raises [bad_alloc] when the allocator is exhausted, the exception of
    the copy constructor when the copy throws, and [runtime_error] in the
    one remaining case, a throwing predicate; it raises nothing else. *)
Theorem push_outcomes s q o e :
  (Z.of_nat max_nodes < size_t_modulus)%Z →
  reachable s → queues s !! q = Some o →
  ∃ s' x, push q e s = (s', x)
    ∧ (x = Ok tt
       ∨ (x = Throw bad_alloc ∧ max_nodes ≤ node_count s
          ∨ (∃ u w', x = Throw (thrown u) ∧ copy_T e (world s) = (w', Some u))
          ∨ x = Throw runtime_error)
         ∧ nodes s' = nodes s ∧ queues s' = queues s).
Proof.
  intros Hfits Hreach Ho.
  destruct (reachable_shape s Hfits Hreach) as [G Hinv].
  assert (Hinv' := Hinv). destruct Hinv' as (_ & Hok & _).
  destruct (Hok q o Ho) as (t & Ht & _).
  destruct (push_spec (λ _, True) ltac:(done) ltac:(done) ltac:(done)
              ltac:(done) ltac:(done) Hfits G s q o t e Hinv Ho Ht)
    as (s' & x & Hrun & Hres).
  exists s', x. split; [done|].
  destruct Hres as [([err ->] & Hn & Hq)|(t' & -> & _)]; [|by left].
  right. split; [|done].
  destruct (new_Node_spec e s)
    as [[Hnew Hfull]|[(u & w' & Hnew & Hcopy)|(pn & w' & Hnew & _)]].
  - left. unfold push in Hrun. erewrite bind_throw_l in Hrun by exact Hnew.
    by simplify_eq.
  - right; left. unfold push in Hrun. erewrite bind_throw_l in Hrun by exact Hnew.
    simplify_eq. eauto.
  - right; right. unfold push in Hrun. erewrite bind_ok in Hrun by exact Hnew.
    unfold try_catch in Hrun.
    match type of Hrun with
    | context [match ?m with _ => _ end] => destruct m as [s1 [[]|e1|]]
    end; try done.
    apply bind_throw in Hrun as [Hrun|(? & s2 & _ & Hrun)].
    + by apply delete_node_no_throw in Hrun.
    + unfold throw in Hrun. by simplify_eq.
Qed.

Lemma top_inv q s s' v :
  top q s = (s', Ok v) →
  ∃ o p n, queues s !! q = Some o ∧ cnt o ≠ 0%Z ∧ root o = Some p
           ∧ nodes s !! p = Some n ∧ val n = v.
Proof.
  unfold top, empty, get_cnt, get_root, get_queue, get_val, load, bind, ret,
    throw, undefined.
  destruct (queues s !! q) as [o|] eqn:Ho; simpl; [|done].
  destruct (cnt o =? 0)%Z eqn:Hcnt; simpl; [done|]. rewrite Ho. simpl.
  destruct (root o) as [p|] eqn:Hroot; simpl; [|done].
  destruct (nodes s !! p) as [n|] eqn:Hp; simpl; [|done].
  intros [= <- <-]. exists o, p, n. split_and!; try done. by apply Z.eqb_neq.
Qed.

(** X9: when [pop()] returns on a queue of a reachable state, the queue has
    lost exactly one occurrence of the value that [top()] returned before the
    call, its size has gone down by one, and every other queue owns the tree
    it owned before. *)
Theorem pop_removes_top s q t s' :
  (Z.of_nat max_nodes < size_t_modulus)%Z →
  reachable s → owns s q t →
  pop q s = (s', Ok tt) →
  ∃ v t', top q s = (s, Ok v)
    ∧ owns s' q t'
    ∧ elems t ≡ₚ v :: elems t'
    ∧ (∃ k, size q s = (s, Ok k) ∧ size q s' = (s', Ok (k - 1)%Z))
    ∧ ∀ q2 t2, q2 ≠ q → owns s q2 t2 → owns s' q2 t2.
Proof.
  intros Hfits Hreach Hown Hrun.
  destruct (reachable_shape s Hfits Hreach) as [G Hinv].
  assert (Ht := inv_for_owns _ _ _ _ _ Hinv Hown).
  destruct (inv_for_tree _ _ _ _ _ Hinv Ht)
    as (o & Ho & Hroot & Hst & _ & Hcnt & _).
  destruct (pop_spec (λ _, True) ltac:(done) ltac:(done) ltac:(done)
              ltac:(done) ltac:(done) Hfits G s q o t Hinv Ho Ht)
    as (s0 & x0 & Hrun0 & Hres).
  rewrite Hrun in Hrun0. injection Hrun0 as <- <-.
  destruct Hres as [(_ & ? & _)|[(_ & ? & _)
    |(p & v & k & tl & tr & t' & -> & _ & Hinv' & Hm)]]; [done..|].
  destruct Hst as (Hp & _). simpl in Hroot, Hcnt.
  exists v, t'. split_and!.
  - unfold top. erewrite bind_ok by (by apply empty_live).
    replace (Z.eqb (cnt o) 0) with false by (symmetry; apply Z.eqb_neq; lia).
    erewrite bind_ok by (by apply get_root_live). rewrite <-Hroot.
    by erewrite get_val_live by done.
  - eapply inv_for_owned; [exact Hinv'|]. apply lookup_insert_eq.
  - simpl. by rewrite (melded_elems _ _ _ _ Hm).
  - exists (Z.of_nat (tsize (Bin p v k tl tr))).
    split; [by eapply inv_for_size|].
    rewrite (inv_for_size _ _ _ q t' Hinv') by apply lookup_insert_eq.
    do 2 f_equal. rewrite (melded_tsize _ _ _ _ Hm). simpl. lia.
  - by eapply inv_for_others.
Qed.

(** X10: on two distinct live queues of a reachable state [merge] never
    goes wrong: it returns, or it raises [runtime_error] with every node and
    queue object as before.  Either way a third queue owns the tree it owned
    before. *)
Theorem merge_outcomes s a b :
  (Z.of_nat max_nodes < size_t_modulus)%Z →
  reachable s → a ≠ b →
  is_Some (queues s !! a) → is_Some (queues s !! b) →
  ∃ s' x, merge a b s = (s', x)
    ∧ (x = Ok tt
       ∨ x = Throw runtime_error ∧ nodes s' = nodes s ∧ queues s' = queues s)
    ∧ ∀ q3 t3, q3 ≠ a → q3 ≠ b → owns s q3 t3 → owns s' q3 t3.
Proof.
  intros Hfits Hreach Hab [oa Hoa] [ob Hob].
  destruct (reachable_shape s Hfits Hreach) as [G Hinv].
  assert (Hinv' := Hinv). destruct Hinv' as (_ & Hok & _).
  destruct (Hok a oa Hoa) as (ta & Hta & _).
  destruct (Hok b ob Hob) as (tb & Htb & _).
  destruct (merge_spec (λ _, True) ltac:(done) ltac:(done) ltac:(done)
              ltac:(done) ltac:(done) Hfits G s a b oa ob ta tb)
    as (s' & x & Hrun & Hres); try done.
  exists s', x. split; [done|].
  destruct Hres as [(_ & -> & ->)|[(_ & -> & Hn & Hq)|(_ & t' & -> & Hinv' & _)]].
  - split; [by left|]. done.
  - split; [by right|]. intros q3 t3 _ _ (o3 & Ho3 & Hr3 & Hst3).
    exists o3. by rewrite Hn, Hq.
  - split; [by left|]. intros q3 t3 Ha3 Hb3 Hown.
    eapply inv_for_owned; [exact Hinv'|].
    rewrite !lookup_insert_ne by done. by eapply inv_for_owns.
Qed.

(** ** [top] after [pop] and after [push] *)

Lemma on_objects_live qs m s :
  Forall (λ q, is_Some (queues s !! q)) qs → on_objects qs m s = m s.
Proof. intros Hlive. unfold on_objects. by rewrite decide_True. Qed.

Lemma top_root P G s q t s' v :
  inv_for P G s → G !! q = Some t → top q s = (s', Ok v) →
  ∃ p k tl tr, t = Bin p v k tl tr.
Proof.
  intros Hinv Ht (o & p & n & Ho & _ & Hroot & Hp & Hv)%top_inv.
  destruct (inv_for_tree _ _ _ _ _ Hinv Ht) as (o' & Ho' & Hroot' & Hst & _).
  assert (o' = o) as -> by congruence. rewrite Hroot in Hroot'.
  destruct t as [|p' x k tl tr]; [done|]. injection Hroot' as ->.
  destruct Hst as (Hp' & _). rewrite Hp in Hp'. injection Hp' as ->.
  simpl in Hv. subst x. eauto.
Qed.

Section TopOrder.

Hypothesis call_sound :
  ∀ x y w w' b, call Compare_default x y w = (w', inr b) → b = lt x y.
Hypothesis lt_asym : ∀ x y, lt x y = true → lt y x = false.
Hypothesis lt_negtrans :
  ∀ x y z, lt x y = false → lt y z = false → lt x z = false.


(** X12: after [push(e)] has returned, [top()] returns a value that is not
    less than [e] and not less than what [top()] returned before the push. *)
Theorem top_after_push s q e s' v' :
  (Z.of_nat max_nodes < size_t_modulus)%Z →
  reachable s →
  push q e s = (s', Ok tt) → top q s' = (s', Ok v') →
  lt v' e = false ∧ ∀ v, top q s = (s, Ok v) → lt v' v = false.
Proof using call_sound lt_asym lt_negtrans.
  intros Hfits Hreach Hpush Htop'.
  destruct (reachable_heap_ordered call_sound lt_asym s Hfits Hreach) as [G Hinv].
  apply top_inv in Htop' as Hlive. destruct Hlive as (o' & _ & _ & Ho' & _).
  assert (is_Some (queues s !! q)) as [o Ho].
  { destruct (queues s !! q) eqn:Hq; [eauto|]. exfalso.
    unfold push, bind in Hpush.
    destruct (new_Node e s) as [s1 [pn| |]] eqn:Hnew; try done.
    assert (queues s1 = queues s) as Hq1.
    { destruct (new_Node_spec e s)
        as [[Hn _]|[(? & ? & Hn & _)|(? & ? & Hn & _)]];
        rewrite Hnew in Hn; by simplify_eq. }
    unfold try_catch, get_root, bind, get_queue in Hpush.
    by rewrite Hq1, Hq in Hpush. }
  assert (Hinv0 := Hinv). destruct Hinv0 as (_ & Hok & _).
  destruct (Hok q o Ho) as (t & Ht & _).
  destruct (push_spec heap_ordered) with (G := G) (s := s) (q := q) (o := o)
    (t := t) (e := e) as (s0 & x0 & Hrun0 & Hres); try done.
  { intros ta tb t0. by apply melded_heap_ordered. }
  { intros p0 x0 k0 tl0 tr0 (_ & _ & ? & ?). done. }
  { apply relabel_heap_ordered. }
  rewrite Hpush in Hrun0. injection Hrun0 as <- <-.
  destruct Hres as [([err ?] & _)|(t' & _ & Hinv' & Hperm)]; [done|].
  destruct (top_root _ _ _ _ _ _ _ Hinv' (lookup_insert_eq _ _ _) Htop')
    as (p' & k' & tl' & tr' & ->).
  destruct (inv_for_tree _ _ _ _ _ Hinv' (lookup_insert_eq _ _ _))
    as (_ & _ & _ & _ & _ & _ & _ & Hheap').
  assert (∀ y, y ∈ elems t ++ [e] → lt v' y = false) as Hmax.
  { intros y Hy. apply (heap_ordered_below lt_negtrans _ Hheap').
    - simpl. by apply lt_irrefl.
    - by rewrite Hperm. }
  split.
  - apply Hmax. apply elem_of_app. right. by apply list_elem_of_singleton.
  - intros v Htop.
    destruct (top_root _ _ _ _ _ _ _ Hinv Ht Htop) as (p & k & tl & tr & ->).
    apply Hmax. apply elem_of_app. left. simpl. apply elem_of_cons. by left.
Qed.

End TopOrder.

(** ** Copying, assigning and destroying queues *)

Lemma inv_for_kept P G s s' :
  inv_for P G s → inv_for P G s' → ∀ q t, owns s q t → owns s' q t.
Proof.
  intros Hinv Hinv' q t Hown. eapply inv_for_owned; [exact Hinv'|].
  exact (inv_for_owns _ _ _ _ _ Hinv Hown).
Qed.

Lemma copy_construct_spec G s q b ob tb :
  inv_for (λ _, True) G s → queues s !! b = Some ob → G !! b = Some tb →
  ∃ s' x, copy_construct q b s = (s', x)
    ∧ ((∃ e, x = Throw e) ∧ queues s' = queues s ∧ inv_for (λ _, True) G s'
       ∨ x = Undefined ∧ is_Some (queues s !! q)
       ∨ ∃ t', x = Ok tt ∧ queues s !! q = None
           ∧ inv_for (λ _, True) (<[q := t']> G) s'
           ∧ relabel tb t' ∧ ∀ p, p ∈ addrs t' → nodes s !! p = None).
Proof.
  intros Hinv Hob Htb.
  destruct (inv_for_tree _ _ _ _ _ Hinv Htb) as (o0 & Ho0 & Hok).
  assert (o0 = ob) as -> by congruence. clear Ho0.
  destruct Hok as (Hroot & Hst & Hnd & Hcnt & Hcomp & _).
  assert (Hcap := Hinv). destruct Hcap as (Hcap & _).
  unfold copy_construct.
  erewrite bind_ok by (by apply get_root_live). rewrite <-Hroot.
  destruct (clone_spec (node_count s) tb s)
    as (s1 & x1 & Hrun & Hq1 & Hcap1 & Hext & Hres); [done|by apply stored_size|done|].
  assert (inv_for (λ _, True) G s1) as Hinv1 by (by apply (inv_for_extends _ G s)).
  destruct Hres as [[e ->]|(t' & -> & Hrel & Hst' & Hnd' & Hfresh)].
  { erewrite bind_throw_l by exact Hrun. eexists _, _. split; [done|]. left. eauto. }
  erewrite bind_ok by exact Hrun.
  erewrite bind_ok by (apply get_cnt_live; rewrite Hq1; exact Hob).
  erewrite bind_ok by (apply get_comp_live; rewrite Hq1; exact Hob).
  rewrite Hq1. destruct (queues s !! q) eqn:Hq.
  { eexists _, _. split; [done|]. right; left. eauto. }
  eexists _, _. split; [done|]. right; right. exists t'.
  split_and!; try done.
  eapply inv_replace; [exact Hinv1|by simpl; rewrite Hq1|exact Hcap1| |].
  - split_and!; simpl; try done. by rewrite (relabel_tsize _ _ Hrel).
  - intros q2 t2 p Hne Ht2 Hp. split; [|done].
    intros Hin. apply Hfresh in Hin.
    destruct (inv_for_tree _ _ _ _ _ Hinv Ht2) as (o2 & _ & _ & Hst2 & _).
    destruct (stored_live _ _ _ Hst2 Hp). congruence.
Qed.

(** X13: when the copy constructor returns, the new queue holds the same
    elements as the source and reports the same size, it is made of nodes
    that did not exist before, so the two queues share nothing, and every
    queue that existed, the source included, owns the tree it owned before. *)
Theorem copy_construct_copies s q b tb s' :
  (Z.of_nat max_nodes < size_t_modulus)%Z →
  reachable s → owns s b tb →
  copy_construct q b s = (s', Ok tt) →
  ∃ t', owns s' q t'
    ∧ elems t' = elems tb
    ∧ (∀ p, p ∈ addrs t' → nodes s !! p = None)
    ∧ (∃ k, size b s = (s, Ok k) ∧ size q s' = (s', Ok k))
    ∧ ∀ q2 t2, owns s q2 t2 → owns s' q2 t2.
Proof.
  intros Hfits Hreach Hown Hrun.
  destruct (reachable_shape s Hfits Hreach) as [G Hinv].
  assert (Htb := inv_for_owns _ _ _ _ _ Hinv Hown).
  destruct (inv_for_tree _ _ _ _ _ Hinv Htb) as (ob & Hob & _).
  destruct (copy_construct_spec G s q b ob tb Hinv Hob Htb)
    as (s0 & x0 & Hrun0 & Hres).
  rewrite Hrun in Hrun0. injection Hrun0 as <- <-.
  destruct Hres as [([e ?] & _)|[(? & _)|(t' & _ & Hq & Hinv' & Hrel & Hfresh)]];
    [done..|].
  exists t'. split_and!; try done.
  - eapply inv_for_owned; [exact Hinv'|]. apply lookup_insert_eq.
  - by apply relabel_elems.
  - exists (Z.of_nat (tsize tb)). split; [by eapply inv_for_size|].
    rewrite (inv_for_size _ _ _ q t' Hinv') by apply lookup_insert_eq.
    by rewrite (relabel_tsize _ _ Hrel).
  - intros q2 t2 Hown2. eapply inv_for_others; [exact Hinv|exact Hinv'| |done].
    intros ->. destruct Hown2 as (o2 & Ho2 & _). congruence.
Qed.

Lemma assign_spec G s q b oq ob tq tb :
  inv_for (λ _, True) G s → q ≠ b →
  queues s !! q = Some oq → queues s !! b = Some ob →
  G !! q = Some tq → G !! b = Some tb →
  ∃ s' x, assign q b s = (s', x)
    ∧ ((∃ e, x = Throw e) ∧ queues s' = queues s ∧ inv_for (λ _, True) G s'
       ∨ ∃ t', x = Ok q
           ∧ inv_for (λ _, True) (<[q := t']> G) s'
           ∧ queues s' !! q = Some (mkPq (rootp t') (cnt ob) (comp ob))
           ∧ relabel tb t'
           ∧ (∀ p, p ∈ addrs t' → nodes s !! p = None)
           ∧ (∀ p, p ∈ addrs tq → nodes s' !! p = None)).
Proof.
  tidy. intros Hinv Hne Hoq Hob Htq Htb. unfold assign.
  rewrite decide_False by done.
  assert (Hinv' := Hinv). destruct Hinv' as (Hcap & Hok & _ & Hdisj).
  destruct (inv_for_tree _ _ _ _ _ Hinv Htb) as (o0 & Ho0 & Hokb).
  assert (o0 = ob) as -> by congruence. clear Ho0.
  destruct (inv_for_tree _ _ _ _ _ Hinv Htq) as (o0 & Ho0 & Hokq).
  assert (o0 = oq) as -> by congruence. clear Ho0.
  destruct Hokb as (Hrootb & Hstb & Hndb & Hcntb & Hcompb & _).
  destruct Hokq as (Hrootq & Hstq & Hndq & Hcntq & Hcompq & _).
  erewrite bind_ok by (by apply get_root_live). rewrite <-Hrootb.
  destruct (clone_spec (node_count s) tb s)
    as (s1 & x1 & Hrun & Hq1 & Hcap1 & Hext & Hres); [done|by apply stored_size|done|].
  destruct Hres as [[e ->]|(t' & -> & Hrel & Hst' & Hnd' & Hfresh)].
  { erewrite bind_throw_l by exact Hrun. eexists _, _. split; [done|]. left.
    split_and!; [eauto|done|]. by apply (inv_for_extends _ G s). }
  erewrite bind_ok by exact Hrun.
  erewrite bind_ok by (apply get_root_live; rewrite Hq1; exact Hoq).
  rewrite <-Hrootq.
  assert (stored (nodes s1) tq) as Hstq1 by (by eapply stored_extends).
  destruct (clear_spec (node_count s1) tq s1) as (h2 & Hrun2 & Hgone & Hfr);
    [done|done|by apply stored_size|].
  erewrite bind_ok by exact Hrun2.
  erewrite bind_ok by (apply set_root_live; simpl; rewrite Hq1; exact Hoq).
  erewrite bind_ok
    by (apply get_cnt_live; simpl; rewrite lookup_insert_ne by done;
        rewrite Hq1; exact Hob).
  erewrite bind_ok by (apply set_cnt_live; simpl; apply lookup_insert_eq).
  erewrite bind_ok
    by (apply get_comp_live; simpl; rewrite insert_insert_eq;
        rewrite lookup_insert_ne by done; rewrite Hq1; exact Hob).
  erewrite bind_ok by (apply set_comp_live; simpl; apply lookup_insert_eq).
  simpl. rewrite !insert_insert_eq, Hq1.
  eexists _, _. split; [reflexivity|]. right. exists t'.
  assert (∀ p, p ∈ addrs t' → p ∉ addrs tq) as Hfresh_q.
  { intros p Hp Hin. apply Hfresh in Hp.
    destruct (stored_live _ _ _ Hstq Hin). congruence. }
  split_and!; try done; [|simpl; apply lookup_insert_eq].
  eapply inv_replace; [exact Hinv|reflexivity| | |].
  - unfold node_count. simpl. etrans; [|exact Hcap1]. by eapply clear_shrinks.
  - split_and!; simpl; try done.
    + apply (stored_frame (nodes s1)); [done|]. intros p Hp. apply Hfr. auto.
    + by rewrite (relabel_tsize _ _ Hrel).
  - intros q2 t2 p Hne2 Ht2 Hp.
    destruct (inv_for_tree _ _ _ _ _ Hinv Ht2) as (o2 & _ & _ & Hst2 & _).
    assert (is_Some (nodes s !! p)) as Hlive by (by eapply stored_live).
    split.
    + intros Hin. apply Hfresh in Hin. destruct Hlive. congruence.
    + simpl. rewrite Hfr, Hext; [done..|].
      intros Hin. by apply (Hdisj q2 q t2 tq Hne2 Ht2 Htq p).
Qed.

(** X14: when [q = b] returns for two distinct queues, the result is the
    reference to [q]; [q] holds the elements of [b], reports the size of
    [b] and has the comparator of [b]; it is made of nodes that did not
    exist before; the nodes that [q] was made of are freed; and every other
    queue, [b] included, owns the tree it owned before. *)
Theorem assign_copies s q b tq tb s' r :
  (Z.of_nat max_nodes < size_t_modulus)%Z →
  reachable s → q ≠ b → owns s q tq → owns s b tb →
  assign q b s = (s', Ok r) →
  r = q
  ∧ ∃ t' ob, owns s' q t'
      ∧ elems t' = elems tb
      ∧ queues s !! b = Some ob
      ∧ queues s' !! q = Some (mkPq (rootp t') (cnt ob) (comp ob))
      ∧ (∀ p, p ∈ addrs t' → nodes s !! p = None)
      ∧ (∀ p, p ∈ addrs tq → nodes s' !! p = None)
      ∧ ∀ q2 t2, q2 ≠ q → owns s q2 t2 → owns s' q2 t2.
Proof.
  intros Hfits Hreach Hne Hown_q Hown_b Hrun.
  destruct (reachable_shape s Hfits Hreach) as [G Hinv].
  assert (Htq := inv_for_owns _ _ _ _ _ Hinv Hown_q).
  assert (Htb := inv_for_owns _ _ _ _ _ Hinv Hown_b).
  destruct (inv_for_tree _ _ _ _ _ Hinv Htq) as (oq & Hoq & _).
  destruct (inv_for_tree _ _ _ _ _ Hinv Htb) as (ob & Hob & _).
  destruct (assign_spec G s q b oq ob tq tb) as (s0 & x0 & Hrun0 & Hres);
    try done.
  rewrite Hrun in Hrun0. injection Hrun0 as <- <-.
  destruct Hres as [([e ?] & _)
    |(t' & [= ->] & Hinv' & Hq' & Hrel & Hfresh & Hfreed)]; [done|].
  split; [done|]. exists t', ob. split_and!; try done.
  - eapply inv_for_owned; [exact Hinv'|]. apply lookup_insert_eq.
  - by apply relabel_elems.
  - by eapply inv_for_others.
Qed.

(** X15: when cloning fails inside the copy constructor or inside the
    assignment operator, the exception passes to the caller, no queue
    object has been created or written, and every queue owns the tree it
    owned before: the destination of a failed assignment keeps its
    elements. *)
Theorem copy_failure_keeps_queues s q b s' e :
  (Z.of_nat max_nodes < size_t_modulus)%Z →
  reachable s → is_Some (queues s !! b) →
  copy_construct q b s = (s', Throw e)
  ∨ (is_Some (queues s !! q) ∧ assign q b s = (s', Throw e)) →
  queues s' = queues s ∧ ∀ q2 t2, owns s q2 t2 → owns s' q2 t2.
Proof.
  intros Hfits Hreach [ob Hob] Hrun.
  destruct (reachable_shape s Hfits Hreach) as [G Hinv].
  assert (Hinv0 := Hinv). destruct Hinv0 as (_ & Hok & _).
  destruct (Hok b ob Hob) as (tb & Htb & _).
  destruct Hrun as [Hrun|([oq Hoq] & Hrun)].
  - destruct (copy_construct_spec G s q b ob tb Hinv Hob Htb)
      as (s0 & x0 & Hrun0 & Hres).
    rewrite Hrun in Hrun0. injection Hrun0 as <- <-.
    destruct Hres as [(_ & Hq & Hinv')|[(? & _)|(t' & ? & _)]]; [|done..].
    split; [done|]. by eapply inv_for_kept.
  - destruct (decide (q = b)) as [->|Hne].
    { unfold assign in Hrun. by rewrite decide_True in Hrun. }
    destruct (Hok q oq Hoq) as (tq & Htq & _).
    destruct (assign_spec G s q b oq ob tq tb) as (s0 & x0 & Hrun0 & Hres);
      try done.
    rewrite Hrun in Hrun0. injection Hrun0 as <- <-.
    destruct Hres as [(_ & Hq & Hinv')|(t' & ? & _)]; [|done].
    split; [done|]. by eapply inv_for_kept.
Qed.

(** X16: the destructor of a queue of a reachable state never throws.  It
    ends the object, frees every node of its tree, exactly as many nodes as
    the queue had elements, and every other queue owns the tree it owned
    before. *)
Theorem destroy_frees_queue s q t :
  (Z.of_nat max_nodes < size_t_modulus)%Z →
  reachable s → owns s q t →
  ∃ s', destroy q s = (s', Ok tt)
    ∧ queues s' !! q = None
    ∧ (∀ p, p ∈ addrs t → nodes s' !! p = None)
    ∧ node_count s' + length (elems t) = node_count s
    ∧ ∀ q2 t2, q2 ≠ q → owns s q2 t2 → owns s' q2 t2.
Proof.
  intros Hfits Hreach Hown.
  destruct (reachable_shape s Hfits Hreach) as [G Hinv].
  assert (Ht := inv_for_owns _ _ _ _ _ Hinv Hown).
  destruct (inv_for_tree _ _ _ _ _ Hinv Ht) as (o & Ho & Hroot & Hst & Hnd & _).
  assert (Hinv0 := Hinv). destruct Hinv0 as (Hcap & _ & _ & Hdisj).
  destruct (clear_spec (node_count s) t s) as (h' & Hrun & Hgone & Hfr);
    [done|done|by apply stored_size|].
  assert (destroy q s
          = (mkState (world s) h' (delete q (queues s)), Ok tt)) as Hdestroy.
  { unfold destroy.
    erewrite bind_ok by (by apply get_root_live). rewrite <-Hroot.
    erewrite bind_ok by exact Hrun.
    erewrite bind_ok by (by apply set_root_live).
    erewrite bind_ok by (apply set_cnt_live; simpl; apply lookup_insert_eq).
    simpl. by rewrite !delete_insert_eq. }
  eexists. split; [exact Hdestroy|]. simpl.
  assert (inv_for (λ _, True) (delete q G)
            (mkState (world s) h' (delete q (queues s)))) as Hinv'.
  { eapply inv_remove; [exact Hinv|done| |].
    - unfold node_count. simpl. etrans; [|exact Hcap]. by eapply clear_shrinks.
    - intros q2 t2 p Hne Ht2 Hp. simpl. apply Hfr.
      intros Hin. by apply (Hdisj q2 q t2 t Hne Ht2 Ht p). }
  split_and!.
  - apply lookup_delete_eq.
  - done.
  - unfold node_count. simpl. rewrite length_elems, <-length_addrs.
    apply freed_count; eauto using stored_live.
  - intros q2 t2 Hne Hown2. eapply inv_for_owned; [exact Hinv'|].
    rewrite lookup_delete_ne by done. exact (inv_for_owns _ _ _ _ _ Hinv Hown2).
Qed.

(** ** Allocation accounting *)

(** [keeps_dom m]: whatever way a run of [m] ends, the same node addresses
    are live afterwards. *)
Definition keeps_dom {A} (m : M A) : Prop :=
  ∀ s s' x, m s = (s', x) → dom (nodes s') = dom (nodes s).

Lemma keeps_keeps_dom {A} (m : M A) : keeps m → keeps_dom m.
Proof. intros Hm s s' x Hrun. by destruct (Hm s s' x Hrun). Qed.

Lemma keeps_dom_ret {A} (a : A) : keeps_dom (ret a).
Proof. apply keeps_keeps_dom, keeps_ret. Qed.

Lemma keeps_dom_throw {A} (e : exn E) : keeps_dom (throw (A:=A) e).
Proof. by intros s s' x [= <- <-]. Qed.

Lemma keeps_dom_undefined {A} : keeps_dom (undefined (A:=A)).
Proof. by intros s s' x [= <- <-]. Qed.

Lemma keeps_dom_bind {A B} (m : M A) (k : A → M B) :
  keeps_dom m → (∀ a, keeps_dom (k a)) → keeps_dom (bind m k).
Proof.
  intros Hm Hk s s' x. unfold bind.
  destruct (m s) as [s1 [a|e|]] eqn:Hrun; intros Hx.
  - rewrite (Hk a s1 s' x Hx). by eapply Hm.
  - injection Hx as <- <-. by eapply Hm.
  - injection Hx as <- <-. by eapply Hm.
Qed.

Lemma keeps_dom_try_catch {A} (m h : M A) :
  keeps_dom m → keeps_dom h → keeps_dom (try_catch m h).
Proof.
  intros Hm Hh s s' x. unfold try_catch.
  destruct (m s) as [s1 [a|e|]] eqn:Hrun; intros Hx.
  - injection Hx as <- <-. by eapply Hm.
  - rewrite (Hh s1 s' x Hx). by eapply Hm.
  - injection Hx as <- <-. by eapply Hm.
Qed.

Lemma keeps_dom_get_queue q : keeps_dom (get_queue q).
Proof.
  intros s s' x. unfold get_queue. by destruct (queues s !! q); intros [= <- <-].
Qed.

Lemma keeps_dom_put_queue q o : keeps_dom (put_queue q o).
Proof.
  intros s s' x. unfold put_queue. by destruct (queues s !! q); intros [= <- <-].
Qed.

Lemma keeps_dom_meld_run c a b : keeps_dom (meld_run c a b).
Proof. intros s s' x. unfold meld_run. apply keeps_keeps_dom, meld_keeps. Qed.

Ltac keeps_dom_steps :=
  repeat first
    [ apply keeps_dom_ret | apply keeps_dom_throw | apply keeps_dom_undefined
    | apply keeps_dom_get_queue | apply keeps_dom_put_queue
    | apply keeps_dom_meld_run
    | apply keeps_keeps_dom, keeps_load
    | apply keeps_dom_try_catch
    | apply keeps_dom_bind; [|intros ?]
    | match goal with
      | |- keeps_dom (if ?b then _ else _) => destruct b
      | |- keeps_dom (match ?x with Some _ => _ | None => _ end) => destruct x
      end ].

Lemma keeps_dom_merge a b : keeps_dom (merge a b).
Proof.
  unfold merge, empty, get_root, get_cnt, get_comp, set_root, set_cnt.
  keeps_dom_steps.
Qed.

(** What [push] runs inside its [try] block. *)
Lemma keeps_dom_push_body q node :
  keeps_dom (rt <- get_root q ;;
             c <- get_comp q ;;
             newRoot <- meld_run c rt (Some node) ;;
             set_root q newRoot ;;;
             k <- get_cnt q ;;
             set_cnt q (wrap (k + 1))).
Proof.
  unfold get_root, get_cnt, get_comp, set_root, set_cnt. keeps_dom_steps.
Qed.

Lemma node_count_dom s s' :
  dom (nodes s') = dom (nodes s) → node_count s' = node_count s.
Proof. intros H. unfold node_count. by rewrite <-!size_dom, H. Qed.

Lemma push_count_returns q e s s' :
  push q e s = (s', Ok tt) → node_count s' = S (node_count s).
Proof.
  unfold push. intros (node & s1 & Hnew & Hrun)%bind_ok_inv.
  assert (node_count s1 = S (node_count s)) as Hs1.
  { destruct (new_Node_spec e s)
      as [[Hn _]|[(? & ? & Hn & _)|(pn & w' & Hn & Hfresh & _)]];
      rewrite Hnew in Hn; simplify_eq.
    unfold node_count. simpl. by rewrite map_size_insert_None. }
  rewrite <-Hs1. apply node_count_dom.
  unfold try_catch in Hrun.
  match type of Hrun with
  | context [match ?m with _ => _ end] => destruct m as [s2 [[]|e1|]] eqn:Hbody
  end; try done.
  - injection Hrun as <-. by eapply keeps_dom_push_body.
  - apply bind_ok_inv in Hrun as (? & ? & _ & Hrun). done.
Qed.

Lemma push_count_throws q e s s' err :
  push q e s = (s', Throw err) → node_count s' = node_count s.
Proof.
  unfold push. intros [Hnew|(node & s1 & Hnew & Hrun)]%bind_throw.
  { destruct (new_Node_spec e s)
      as [[Hn _]|[(? & ? & Hn & _)|(pn & w' & Hn & _)]];
      rewrite Hnew in Hn; by simplify_eq. }
  destruct (new_Node_spec e s)
    as [[Hn _]|[(? & ? & Hn & _)|(pn & w' & Hn & Hfresh & _)]];
    rewrite Hnew in Hn; simplify_eq.
  unfold try_catch in Hrun.
  match type of Hrun with
  | context [match ?m with _ => _ end] => destruct m as [s2 [[]|e1|]] eqn:Hbody
  end; try done.
  apply keeps_dom_push_body in Hbody. simpl in Hbody.
  apply bind_throw in Hrun as [Hrun|([] & s3 & Hdel & Hrun)];
    [by apply delete_node_no_throw in Hrun|].
  unfold throw in Hrun. injection Hrun as <- _.
  unfold delete_node in Hdel.
  destruct (nodes s2 !! pn) eqn:Hpn; [|done]. injection Hdel as <-.
  unfold node_count. simpl.
  rewrite map_size_delete, Hpn, <-size_dom, Hbody, size_dom.
  by rewrite map_size_insert_None.
Qed.

(** [frees_one m]: a run of [m] that returns has freed exactly one node; a
    run that ends otherwise has freed and allocated nothing. *)
Definition frees_one {A} (m : M A) : Prop :=
  ∀ s s' x, m s = (s', x) →
    match x with
    | Ok _ => ∃ p, p ∈ dom (nodes s) ∧ dom (nodes s') = dom (nodes s) ∖ {[p]}
    | _ => dom (nodes s') = dom (nodes s)
    end.

Lemma frees_one_bind {A B} (m : M A) (k : A → M B) :
  keeps_dom m → (∀ a, frees_one (k a)) → frees_one (bind m k).
Proof.
  intros Hm Hk s s' x. unfold bind.
  destruct (m s) as [s1 [a|e|]] eqn:Hrun; intros Hx.
  - apply Hm in Hrun. apply Hk in Hx. by rewrite Hrun in Hx.
  - injection Hx as <- <-. by eapply Hm.
  - injection Hx as <- <-. by eapply Hm.
Qed.

Lemma frees_one_delete_node p : frees_one (delete_node p).
Proof.
  intros s s' x. unfold delete_node.
  destruct (nodes s !! p) as [n|] eqn:Hp; intros [= <- <-]; [|done].
  exists p. split; [apply elem_of_dom; eauto|]. simpl. apply dom_delete_L.
Qed.

Lemma frees_one_try_catch {A} (m h : M A) :
  frees_one m → keeps_dom h → (∀ s s' a, h s ≠ (s', Ok a)) →
  frees_one (try_catch m h).
Proof.
  intros Hm Hh Hno s s' x. unfold try_catch.
  destruct (m s) as [s1 [a|e|]] eqn:Hrun; intros Hx.
  - injection Hx as <- <-. by apply Hm in Hrun.
  - apply Hm in Hrun. destruct x as [a| |].
    + by apply Hno in Hx.
    + apply Hh in Hx. congruence.
    + apply Hh in Hx. congruence.
  - injection Hx as <- <-. by apply Hm in Hrun.
Qed.

Lemma get_root_state q s s' x : get_root q s = (s', x) → s' = s.
Proof.
  unfold get_root, get_queue, bind, ret.
  by destruct (queues s !! q); intros [= <- <-].
Qed.

Lemma pop_frees_one q : frees_one (pop q).
Proof.
  intros s s' x. unfold pop. unfold bind at 1.
  destruct (empty q s) as [s1 [e|err|]] eqn:He; apply empty_state in He as ->;
    [|by intros [= <- <-]..].
  destruct e; [by intros [= <- <-]|].
  unfold bind at 1.
  destruct (get_root q s) as [s1 [old|err|]] eqn:Hold;
    apply get_root_state in Hold as Hs1; subst s1; [|by intros [= <- <-]..].
  destruct old as [p|].
  - revert s s' x Hold.
    assert (frees_one
      (try_catch
         (rt <- get_root q ;;
          match rt with
          | None => undefined
          | Some p0 =>
              rl <- get_l p0 ;;
              rr <- get_r p0 ;;
              c <- get_comp q ;;
              newRoot <- meld_run c rl rr ;;
              set_root q newRoot ;;;
              k <- get_cnt q ;;
              set_cnt q (wrap (k - 1)) ;;;
              delete_node p
          end)
         (set_root q (Some p) ;;; throw runtime_error))) as Hfrees;
      [|intros s s' x _; apply Hfrees].
    apply frees_one_try_catch.
    + apply frees_one_bind;
        [unfold get_root; keeps_dom_steps|].
      intros [p0|]; [|by intros s s' x [= <- <-]].
      unfold get_l, get_r, get_comp, get_cnt, set_root, set_cnt.
      repeat (apply frees_one_bind; [keeps_dom_steps|intros ?]).
      apply frees_one_delete_node.
    + unfold set_root. keeps_dom_steps.
    + intros s s' a (? & ? & _ & ?)%bind_ok_inv. done.
  - unfold try_catch. rewrite (bind_ok _ _ _ _ _ Hold).
    intros [= <- <-]. done.
Qed.

(** X17: allocation accounting.  A [push] that returns has allocated
    exactly one node, and a [push] that throws has allocated none that it
    has not freed again; a [pop] that returns has freed exactly one node and
    a [pop] that throws has freed none; [merge] never allocates or frees.
    This holds in every state. *)
Theorem allocation_accounting :
  (∀ q e s s', push q e s = (s', Ok tt) → node_count s' = S (node_count s))
  ∧ (∀ q e s s' err,
       push q e s = (s', Throw err) → node_count s' = node_count s)
  ∧ (∀ q s s', pop q s = (s', Ok tt) → S (node_count s') = node_count s)
  ∧ (∀ q s s' err,
       pop q s = (s', Throw err) → node_count s' = node_count s)
  ∧ (∀ a b s s' x, merge a b s = (s', x) → node_count s' = node_count s).
Proof. tidy.
  split_and!.
  - apply push_count_returns.
  - apply push_count_throws.
  - intros q s s' (p & Hp & Hdom)%pop_frees_one.
    unfold node_count. rewrite <-!size_dom, Hdom.
    rewrite size_difference by set_solver. rewrite size_singleton.
    assert (base.size (dom (nodes s)) ≠ 0); [|lia].
    intros Hempty%size_empty_inv. set_solver.
  - intros q s s' err Hdom%pop_frees_one. by apply node_count_dom.
  - intros a b s s' x Hdom%keeps_dom_merge. by apply node_count_dom.
Qed.

(** X19: on a live queue of a reachable state [pop] never goes wrong.  It
    returns exactly when the size is not 0, and otherwise it raises
    [container_is_empty] with the state untouched; the only other outcome is
    [runtime_error], with every node and queue object as before. *)
Theorem pop_outcomes s q o :
  (Z.of_nat max_nodes < size_t_modulus)%Z →
  reachable s → queues s !! q = Some o →
  ∃ s' x, pop q s = (s', x)
    ∧ (x = Ok tt ∧ cnt o ≠ 0%Z
       ∨ x = Throw container_is_empty ∧ cnt o = 0%Z ∧ s' = s
       ∨ x = Throw runtime_error ∧ cnt o ≠ 0%Z
         ∧ nodes s' = nodes s ∧ queues s' = queues s).
Proof.
  intros Hfits Hreach Ho.
  destruct (reachable_shape s Hfits Hreach) as [G Hinv].
  assert (Hinv' := Hinv). destruct Hinv' as (_ & Hok & _).
  destruct (Hok q o Ho) as (t & Ht & _ & _ & _ & Hcnt & _).
  destruct (pop_spec (λ _, True) ltac:(done) ltac:(done) ltac:(done)
              ltac:(done) ltac:(done) Hfits G s q o t Hinv Ho Ht)
    as (s' & x & Hrun & Hres).
  exists s', x. split; [done|].
  destruct Hres as [(-> & -> & ->)|[(Hne & -> & Hn & Hq)
    |(p & v & k & tl & tr & t' & -> & -> & _)]].
  - right; left. by rewrite Hcnt.
  - right; right. split_and!; try done. rewrite Hcnt. by destruct t.
  - left. split; [done|]. rewrite Hcnt. simpl. lia.
Qed.

(** [grows m]: whatever way a run of [m] ends, it has freed no node and
    written to no queue object. *)
Definition grows {A} (m : M A) : Prop :=
  ∀ s s' x, m s = (s', x) →
    dom (nodes s) ⊆ dom (nodes s') ∧ queues s' = queues s.

Lemma keeps_grows {A} (m : M A) : keeps m → grows m.
Proof. intros Hm s s' x Hrun. destruct (Hm s s' x Hrun) as [-> ->]. done. Qed.

Lemma grows_bind {A B} (m : M A) (k : A → M B) :
  grows m → (∀ a, grows (k a)) → grows (bind m k).
Proof.
  intros Hm Hk s s' x. unfold bind.
  destruct (m s) as [s1 [a|e|]] eqn:Hrun.
  - intros Hrun'. destruct (Hm _ _ _ Hrun) as [? ?].
    destruct (Hk _ _ _ _ Hrun') as [? ?]. split; [by etrans|congruence].
  - intros [= <- <-]. by eapply Hm.
  - intros [= <- <-]. by eapply Hm.
Qed.

Lemma grows_new_Node v : grows (new_Node v).
Proof. tidy.
  intros s s' x. unfold new_Node. case_decide; [|by intros [= <- <-]].
  destruct (copy_T v (world s)) as [w' [u|]]; intros [= <- <-]; simpl; [done|].
  split; [|done]. rewrite dom_insert. set_solver.
Qed.

Lemma grows_clone fuel x : grows (clone fuel x).
Proof.
  revert x. induction fuel as [|fuel IH]; intros [p|]; simpl;
    try (apply keeps_grows, keeps_ret); try (by intros s s' x [= <- <-]).
  unfold get_val, get_npl_field, get_l, get_r, set_npl, set_l, set_r.
  repeat first
    [ apply grows_bind; [|intros ?]
    | apply IH
    | apply grows_new_Node
    | apply keeps_grows, keeps_load
    | apply keeps_grows, keeps_store
    | apply keeps_grows, keeps_ret ].
Qed.

(** X20: a failed copy leaks.  [clone] frees nothing on any path, and the
    copy constructor does not catch.  So when the copy constructor throws
    although the node for the root had been allocated and its value copied,
    every node that was live is still live, no queue object has changed,
    and there are more live nodes than before: those that [clone] had
    allocated until the failure, which no queue owns. *)
Theorem failed_copy_leaks s q b ob p n w' s' e :
  queues s !! b = Some ob → root ob = Some p → nodes s !! p = Some n →
  node_count s < max_nodes → copy_T (val n) (world s) = (w', None) →
  copy_construct q b s = (s', Throw e) →
  queues s' = queues s
  ∧ dom (nodes s) ⊆ dom (nodes s')
  ∧ node_count s < node_count s'.
Proof. tidy.
  intros Hob Hroot Hp Hroom Hcopy Hrun.
  unfold copy_construct in Hrun.
  erewrite bind_ok in Hrun by (by apply get_root_live).
  rewrite Hroot in Hrun. unfold bind at 1 in Hrun.
  destruct (clone_run (Some p) s) as [s1 x1] eqn:Hclone.
  assert (x1 = Throw e ∧ s1 = s') as [-> ->].
  { destruct x1 as [a|e1|]; [|by simplify_eq|done].
    unfold get_cnt, get_comp, get_queue, bind, ret in Hrun.
    cbv zeta in Hrun. repeat case_match; simplify_eq. }
  unfold clone_run in Hclone.
  assert (node_count s ≠ 0) as Hpos.
  { unfold node_count. intros Hz. apply map_size_empty_inv in Hz.
    rewrite Hz in Hp. by rewrite lookup_empty in Hp. }
  destruct (node_count s) as [|fuel] eqn:Hcount; [done|].
  simpl in Hclone.
  erewrite bind_ok in Hclone by (by apply get_val_live).
  assert (∃ pn, new_Node (val n) s
            = (mkState w' (<[pn := mkNode (val n) None None 1]> (nodes s))
                 (queues s), Ok pn)
          ∧ nodes s !! pn = None) as (pn & Hnew & Hfresh).
  { destruct (new_Node_spec (val n) s)
      as [[_ ?]|[(u & w0 & _ & Hc)|(pn & w0 & Hnew & Hfresh & _ & Hc)]].
    - lia.
    - congruence.
    - exists pn. rewrite Hcopy in Hc. by simplify_eq. }
  erewrite bind_ok in Hclone by exact Hnew.
  match type of Hclone with ?m _ = _ => assert (grows m) as Hgrows end.
  { unfold get_val, get_npl_field, get_l, get_r, set_npl, set_l, set_r.
    repeat first
      [ apply grows_bind; [|intros ?]
      | apply grows_clone
      | apply keeps_grows, keeps_load
      | apply keeps_grows, keeps_store
      | apply keeps_grows, keeps_ret ]. }
  destruct (Hgrows _ _ _ Hclone) as [Hdom Hq]. simpl in Hdom, Hq.
  rewrite dom_insert in Hdom.
  split; [done|]. split; [set_solver|].
  rewrite <-Hcount. unfold node_count. rewrite <-!size_dom.
  apply not_elem_of_dom in Hfresh.
  assert (base.size ({[pn]} ∪ dom (nodes s)) = S (base.size (dom (nodes s)))) as Hs.
  { rewrite size_union by set_solver. rewrite size_singleton. lia. }
  apply subseteq_size in Hdom. lia.
Qed.

End PriorityQueue.

Arguments Leaf {T}.
Arguments Bin {T} p x k tl tr.
Arguments OpConstruct {T} q.
Arguments OpPush {T} q e.

(** * An instance: integers under [<], with user code that can fail

    The environment is a number: how many comparisons the predicate still
    answers before it throws.  Copying a negative number throws.  The
    allocator hands out at most 8 nodes. *)

Definition int_call (_ : unit) (x y : Z) (w : nat) : nat * (unit + bool) :=
  match w with
  | O => (O, inl tt)
  | S w' => (w', inr (x <? y)%Z)
  end.

Definition int_copy (x : Z) (w : nat) : nat * option unit :=
  (w, if (x <? 0)%Z then Some tt else None).

Definition int_max_nodes : nat := 8.

Definition int_run (w : nat) (ops : list (op Z)) : state Z unit nat :=
  run_from Z unit unit nat tt int_call int_copy int_max_nodes w ops.

Definition int_push := push Z unit unit nat int_call int_copy int_max_nodes.
Definition int_pop := pop Z unit unit nat int_call.
Definition int_merge := merge Z unit unit nat int_call.
Definition int_top := top Z unit unit nat.
Definition int_size := size Z unit unit nat.
Definition int_empty := empty Z unit unit nat.
Definition int_meld := meld Z unit unit nat int_call.

(** push 5, 3, 8, 1 into one queue. *)
Definition ex_heap : state Z unit nat :=
  int_run 100 [OpConstruct 1; OpPush 1 5; OpPush 1 3; OpPush 1 8; OpPush 1 1]%Z.

Definition ex_heap_tree : tree Z :=
  (Bin 3 8 2 (Bin 1 5 1 (Bin 2 3 1 Leaf Leaf) Leaf) (Bin 4 1 1 Leaf Leaf))%Z.

(** The same queue and a second one holding 7, built with a predicate that
    answers three comparisons: from here on every comparison throws. *)
Definition ex_spent : state Z unit nat :=
  int_run 3 [OpConstruct 1; OpPush 1 5; OpPush 1 3; OpPush 1 8; OpPush 1 1;
             OpConstruct 2; OpPush 2 7]%Z.

(** q1 built from 10, 20 and q2 built from 15, 25. *)
Definition ex_two : state Z unit nat :=
  int_run 100 [OpConstruct 1; OpPush 1 10; OpPush 1 20;
               OpConstruct 2; OpPush 2 15; OpPush 2 25]%Z.

Definition ex_merged : state Z unit nat := (int_merge 1%positive 2%positive ex_two).1.

(** A queue that was constructed and nothing else. *)
Definition ex_empty : state Z unit nat := int_run 100 [OpConstruct 1].

(** Two queues that each hold one 5. *)
Definition ex_tie : state Z unit nat :=
  int_run 100 [OpConstruct 1; OpPush 1 5; OpConstruct 2; OpPush 2 5]%Z.

Lemma int_call_sound x y w w' b :
  int_call tt x y w = (w', inr b) → b = (x <? y)%Z.
Proof. destruct w; simpl; congruence. Qed.

Lemma Zltb_asym x y : (x <? y)%Z = true → (y <? x)%Z = false.
Proof. lia. Qed.

Lemma Zltb_negtrans x y z :
  (x <? y)%Z = false → (y <? z)%Z = false → (x <? z)%Z = false.
Proof. lia. Qed.

Lemma int_max_nodes_fits : (Z.of_nat int_max_nodes < size_t_modulus)%Z.
Proof. by vm_compute. Qed.

Lemma ex_heap_reachable :
  reachable Z unit unit nat tt int_call int_copy int_max_nodes ex_heap.
Proof. apply run_from_reachable. Qed.

Lemma ex_heap_owns : owns Z unit nat ex_heap 1 ex_heap_tree.
Proof. exists (mkPq unit (Some 3%positive) 4 tt). by vm_compute. Qed.

(** The scenario of the specification: after pushing 5, 3, 8, 1 the top is
    8; after a pop the top is 5 and the size is 3. *)
Example scenario_push_pop :
  (int_top 1%positive ex_heap).2 = Ok 8%Z
  ∧ (int_top 1%positive (int_pop 1%positive ex_heap).1).2 = Ok 5%Z
  ∧ (int_size 1%positive (int_pop 1%positive ex_heap).1).2 = Ok 3%Z.
Proof. by vm_compute. Qed.

(** The scenario of the specification: merging {15, 25} into {10, 20}. *)
Example scenario_merge :
  (int_size 1%positive ex_merged).2 = Ok 4%Z
  ∧ (int_top 1%positive ex_merged).2 = Ok 25%Z
  ∧ (int_empty 2%positive ex_merged).2 = Ok true.
Proof. by vm_compute. Qed.

(** ** The theorems at work on the instance *)

(** In [ex_spent] the predicate throws at its next call: a push, a pop and a
    merge all raise [runtime_error] and leave the state as it is. *)
Lemma compare_throw_rolls_back_witness :
  (∃ s', int_push 1%positive 9%Z ex_spent = (s', Throw runtime_error)
         ∧ nodes Z unit nat s' = nodes Z unit nat ex_spent
         ∧ queues Z unit nat s' = queues Z unit nat ex_spent
         ∧ same_observations Z unit unit nat ex_spent s')
  ∧ (∃ s', int_pop 1%positive ex_spent = (s', Throw runtime_error)
           ∧ nodes Z unit nat s' = nodes Z unit nat ex_spent
           ∧ queues Z unit nat s' = queues Z unit nat ex_spent
           ∧ same_observations Z unit unit nat ex_spent s')
  ∧ (∃ s', int_merge 1%positive 2%positive ex_spent = (s', Throw runtime_error)
           ∧ nodes Z unit nat s' = nodes Z unit nat ex_spent
           ∧ queues Z unit nat s' = queues Z unit nat ex_spent
           ∧ same_observations Z unit unit nat ex_spent s'
           ∧ queues Z unit nat s' !! 2%positive
             = Some (mkPq unit (Some 5%positive) 1 tt)).
Proof.
  destruct (compare_throw_rolls_back Z unit unit nat int_call int_copy int_max_nodes)
    as (Hpush & Hpop & Hmerge).
  split_and!.
  - eapply Hpush; by vm_compute.
  - eapply Hpop; by vm_compute.
  - eapply Hmerge; by vm_compute.
Defined.

Lemma merge_correct_witness :
  ∃ t', owns Z unit nat ex_merged 1 t'
    ∧ elems Z t' ≡ₚ [20; 10]%Z ++ [25; 15]%Z
    ∧ (∃ ka kb, int_size 1%positive ex_two = (ex_two, Ok ka)
                ∧ int_size 2%positive ex_two = (ex_two, Ok kb)
                ∧ int_size 1%positive ex_merged = (ex_merged, Ok (ka + kb)%Z))
    ∧ owns Z unit nat ex_merged 2 Leaf
    ∧ int_size 2%positive ex_merged = (ex_merged, Ok 0%Z)
    ∧ int_empty 2%positive ex_merged = (ex_merged, Ok true).
Proof.
  apply (merge_correct Z unit unit nat tt int_call int_copy int_max_nodes
           ex_two 1 2
           (Bin 2 20 1 (Bin 1 10 1 Leaf Leaf) Leaf)%Z
           (Bin 4 25 1 (Bin 3 15 1 Leaf Leaf) Leaf)%Z
           ex_merged).
  - by vm_compute.
  - apply run_from_reachable.
  - done.
  - exists (mkPq unit (Some 2%positive) 2 tt). by vm_compute.
  - exists (mkPq unit (Some 4%positive) 2 tt). by vm_compute.
  - by vm_compute.
Defined.

Lemma push_copy_failure_propagates_witness :
  ∃ s', int_push 1%positive (-1)%Z ex_heap = (s', Throw (thrown tt))
        ∧ nodes Z unit nat s' = nodes Z unit nat ex_heap
        ∧ queues Z unit nat s' = queues Z unit nat ex_heap
        ∧ same_observations Z unit unit nat ex_heap s'.
Proof.
  apply (push_copy_failure_propagates Z unit unit nat int_call int_copy
           int_max_nodes ex_heap 1 (-1)%Z 97 tt).
  - vm_compute. lia.
  - by vm_compute.
Defined.

(** C3, as the specification states it, fails here: the copy of -1 throws,
    and what [push] raises is not [runtime_error]. *)
Lemma push_copy_failure_not_converted :
  int_copy (-1)%Z (world Z unit nat ex_heap) = (world Z unit nat ex_heap, Some tt)
  ∧ ¬ ∃ s', int_push 1%positive (-1)%Z ex_heap = (s', Throw runtime_error).
Proof.
  split; [by vm_compute|]. intros [s' H]. vm_compute in H. congruence.
Qed.

Lemma top_is_maximal_witness :
  ∃ v, int_top 1%positive ex_heap = (ex_heap, Ok v)
       ∧ v ∈ elems Z ex_heap_tree
       ∧ ∀ y, y ∈ elems Z ex_heap_tree →
           (v <? y)%Z = false
           ∧ ∀ w w' b, int_call tt v y w = (w', inr b) → b = false.
Proof.
  apply (top_is_maximal Z unit unit nat tt int_call int_copy int_max_nodes
           Z.ltb int_call_sound Zltb_asym Zltb_negtrans
           ex_heap 1 (mkPq unit (Some 3%positive) 4 tt) ex_heap_tree).
  - apply int_max_nodes_fits.
  - apply ex_heap_reachable.
  - by vm_compute.
  - apply ex_heap_owns.
  - by vm_compute.
Defined.

Lemma heap_order_invariant_witness :
  (8 <? 5)%Z = false
  ∧ ∀ w w' b, int_call tt 8%Z 5%Z w = (w', inr b) → b = false.
Proof.
  apply (heap_order_invariant Z unit unit nat tt int_call int_copy int_max_nodes
           Z.ltb int_call_sound Zltb_asym
           ex_heap 1 (mkPq unit (Some 3%positive) 4 tt) ex_heap_tree
           int_max_nodes_fits ex_heap_reachable)
    with (p := 3%positive) (k := 2%Z)
         (tl := (Bin 1 5 1 (Bin 2 3 1 Leaf Leaf) Leaf)%Z)
         (tr := (Bin 4 1 1 Leaf Leaf)%Z)
         (child := (Bin 1 5 1 (Bin 2 3 1 Leaf Leaf) Leaf)%Z)
         (pc := 1%positive) (kc := 1%Z)
         (cl := (Bin 2 3 1 Leaf Leaf)%Z) (cr := Leaf).
  - by vm_compute.
  - apply ex_heap_owns.
  - by left.
  - by left.
  - done.
Defined.

Lemma leftist_invariant_witness :
  nodes Z unit nat ex_heap !! 3%positive
    = Some (mkNode Z 8%Z (Some 1%positive) (Some 4%positive) 2)
  ∧ (1 ≤ 1)%Z ∧ 2%Z = (1 + 1)%Z ∧ (1 ≤ 2)%Z.
Proof.
  apply (leftist_invariant Z unit unit nat tt int_call int_copy int_max_nodes
           ex_heap 1 ex_heap_tree int_max_nodes_fits ex_heap_reachable
           ex_heap_owns 3 8%Z 2
           (Bin 1 5 1 (Bin 2 3 1 Leaf Leaf) Leaf)%Z (Bin 4 1 1 Leaf Leaf)%Z).
  by left.
Defined.

Lemma count_invariant_witness :
  ∃ t, owns Z unit nat ex_heap 1 t ∧ NoDup (addrs Z t)
       ∧ int_size 1%positive ex_heap = (ex_heap, Ok (Z.of_nat (length (elems Z t))))
       ∧ int_empty 1%positive ex_heap
         = (ex_heap, Ok (bool_decide (length (elems Z t) = 0))).
Proof.
  apply (count_invariant Z unit unit nat tt int_call int_copy int_max_nodes
           ex_heap 1 (mkPq unit (Some 3%positive) 4 tt)
           int_max_nodes_fits ex_heap_reachable).
  by vm_compute.
Defined.

Lemma empty_queue_raises_witness :
  int_top 1%positive ex_empty = (ex_empty, Throw container_is_empty)
  ∧ int_pop 1%positive ex_empty = (ex_empty, Throw container_is_empty)
  ∧ owns Z unit nat ex_empty 1 Leaf.
Proof.
  apply (empty_queue_raises Z unit unit nat tt int_call int_copy int_max_nodes
           ex_empty 1 int_max_nodes_fits).
  - apply run_from_reachable.
  - by vm_compute.
Defined.

(** A tie: both roots hold 5, the comparison is false, and the root of the
    first operand stays the root. *)
Lemma meld_tie_break_witness :
  ∃ s' x, int_meld 2 tt (Some 1%positive) (Some 2%positive) ex_tie = (s', x)
    ∧ ((∃ u, x = Throw (thrown u)) ∨ x = Ok (Some 1%positive)).
Proof.
  apply (meld_tie_break Z unit unit nat int_call tt 2 ex_tie
           1 5%Z 1 Leaf Leaf 2 5%Z 1 Leaf Leaf 99 false).
  - by vm_compute.
  - by vm_compute.
  - simpl. apply NoDup_cons. split; [set_solver|]. apply NoDup_singleton.
  - simpl. lia.
  - by vm_compute.
Defined.

(** ** The further properties at work on the instance *)

Definition int_clone := clone_run Z unit unit nat int_copy int_max_nodes.
Definition int_destroy := destroy Z unit unit nat.
Definition int_copy_construct :=
  copy_construct Z unit unit nat int_copy int_max_nodes.
Definition int_assign := assign Z unit unit nat int_copy int_max_nodes.
Definition int_reachable :=
  reachable Z unit unit nat tt int_call int_copy int_max_nodes.

Definition ex_two_tree1 : tree Z := (Bin 2 20 1 (Bin 1 10 1 Leaf Leaf) Leaf)%Z.
Definition ex_two_tree2 : tree Z := (Bin 4 25 1 (Bin 3 15 1 Leaf Leaf) Leaf)%Z.

(** [ex_heap] after [push(7)], after [pop()], and with a copy as queue 2. *)
Definition ex_pushed : state Z unit nat := (int_push 1%positive 7%Z ex_heap).1.
Definition ex_popped : state Z unit nat := (int_pop 1%positive ex_heap).1.
Definition ex_copied : state Z unit nat :=
  (int_copy_construct 2%positive 1%positive ex_heap).1.

(** [ex_two] after [q1 = q2]. *)
Definition ex_assigned : state Z unit nat :=
  (int_assign 1%positive 2%positive ex_two).1.

(** [ex_spent] has five live nodes; a copy of its queue 1 needs four more,
    and the allocator stops at eight. *)
Definition ex_copy_failed : state Z unit nat :=
  (int_copy_construct 3%positive 1%positive ex_spent).1.

Lemma ex_two_owns1 : owns Z unit nat ex_two 1 ex_two_tree1.
Proof. exists (mkPq unit (Some 2%positive) 2 tt). by vm_compute. Qed.

Lemma ex_two_owns2 : owns Z unit nat ex_two 2 ex_two_tree2.
Proof. exists (mkPq unit (Some 4%positive) 2 tt). by vm_compute. Qed.

Lemma ex_two_disjoint : NoDup (addrs Z ex_two_tree1 ++ addrs Z ex_two_tree2).
Proof. apply (bool_decide_unpack _). by vm_compute. Qed.

Lemma ex_heap_nodup : NoDup (addrs Z ex_heap_tree).
Proof. apply (bool_decide_unpack _). by vm_compute. Qed.

Lemma meld_never_allocates_witness :
  dom (nodes Z unit nat (int_meld 2 tt (Some 2%positive) (Some 4%positive) ex_two).1)
    = dom (nodes Z unit nat ex_two)
  ∧ queues Z unit nat (int_meld 2 tt (Some 2%positive) (Some 4%positive) ex_two).1
    = queues Z unit nat ex_two.
Proof.
  apply (meld_never_allocates Z unit unit nat int_call 2 tt
           (Some 2%positive) (Some 4%positive) ex_two
           (int_meld 2 tt (Some 2%positive) (Some 4%positive) ex_two).1
           (int_meld 2 tt (Some 2%positive) (Some 4%positive) ex_two).2).
  by vm_compute.
Defined.

Lemma meld_valid_heap_witness :
  ∃ s' x, int_meld 4 tt (Some 2%positive) (Some 4%positive) ex_two = (s', x)
    ∧ ((∃ u, x = Throw (thrown u))
         ∧ nodes Z unit nat s' = nodes Z unit nat ex_two
       ∨ ∃ t, x = Ok (rootp Z t) ∧ stored Z (nodes Z unit nat s') t
           ∧ addrs Z t ≡ₚ addrs Z ex_two_tree1 ++ addrs Z ex_two_tree2
           ∧ elems Z t ≡ₚ elems Z ex_two_tree1 ++ elems Z ex_two_tree2
           ∧ heap_ordered Z Z.ltb t ∧ leftist Z t
           ∧ ∀ p, p ∉ addrs Z ex_two_tree1 ++ addrs Z ex_two_tree2 →
               nodes Z unit nat s' !! p = nodes Z unit nat ex_two !! p).
Proof.
  apply (meld_valid_heap Z unit unit nat tt int_call Z.ltb
           int_call_sound Zltb_asym 4 ex_two_tree1 ex_two_tree2 ex_two).
  - by vm_compute.
  - by vm_compute.
  - apply ex_two_disjoint.
  - simpl. lia.
  - by vm_compute.
  - by vm_compute.
  - simpl. lia.
  - simpl. lia.
Defined.

(** Two trees of two nodes each: two frames are enough. *)
Lemma meld_logarithmic_witness :
  (2 ^ rank Z ex_two_tree1 ≤ Z.of_nat (tsize Z ex_two_tree1) + 1)%Z
  ∧ (2 ^ rank Z ex_two_tree2 ≤ Z.of_nat (tsize Z ex_two_tree2) + 1)%Z
  ∧ ∃ s' x, int_meld 2 tt (Some 2%positive) (Some 4%positive) ex_two = (s', x)
      ∧ ((∃ u, x = Throw (thrown u))
         ∨ ∃ t, x = Ok (rootp Z t)
             ∧ melded Z unit unit nat int_call tt ex_two_tree1 ex_two_tree2 t
             ∧ stored Z (nodes Z unit nat s') t).
Proof.
  apply (meld_logarithmic Z unit unit nat int_call tt 2
           ex_two_tree1 ex_two_tree2 ex_two).
  - by vm_compute.
  - by vm_compute.
  - apply ex_two_disjoint.
  - simpl. lia.
  - simpl. lia.
  - simpl. lia.
Defined.

Lemma npl_is_null_path_length_witness :
  ∃ n, nodes Z unit nat ex_heap !! 3%positive = Some n
       ∧ npl Z n = null_path_length Z ex_heap_tree.
Proof.
  apply (npl_is_null_path_length Z unit unit nat tt int_call int_copy
           int_max_nodes ex_heap 1 ex_heap_tree int_max_nodes_fits
           ex_heap_reachable ex_heap_owns 3 8%Z 2
           (Bin 1 5 1 (Bin 2 3 1 Leaf Leaf) Leaf)%Z (Bin 4 1 1 Leaf Leaf)%Z).
  by left.
Defined.

Lemma npl_fits_int_witness : (1 ≤ 2 ≤ 64)%Z.
Proof.
  apply (npl_fits_int Z unit unit nat tt int_call int_copy
           int_max_nodes ex_heap 1 ex_heap_tree int_max_nodes_fits
           ex_heap_reachable ex_heap_owns 3 8%Z 2
           (Bin 1 5 1 (Bin 2 3 1 Leaf Leaf) Leaf)%Z (Bin 4 1 1 Leaf Leaf)%Z).
  by left.
Defined.


Lemma clone_makes_independent_copy_witness :
  ∃ s' x, int_clone (rootp Z ex_heap_tree) ex_heap = (s', x)
    ∧ stored Z (nodes Z unit nat s') ex_heap_tree
    ∧ queues Z unit nat s' = queues Z unit nat ex_heap
    ∧ (∀ p, is_Some (nodes Z unit nat ex_heap !! p) →
         nodes Z unit nat s' !! p = nodes Z unit nat ex_heap !! p)
    ∧ ((∃ e, x = Throw e)
       ∨ ∃ t', x = Ok (rootp Z t') ∧ stored Z (nodes Z unit nat s') t'
           ∧ relabel Z ex_heap_tree t' ∧ elems Z t' = elems Z ex_heap_tree
           ∧ NoDup (addrs Z t')
           ∧ ∀ p, p ∈ addrs Z t' → nodes Z unit nat ex_heap !! p = None).
Proof.
  apply (clone_makes_independent_copy Z unit unit nat int_copy int_max_nodes
           ex_heap_tree ex_heap).
  - by vm_compute.
  - apply ex_heap_nodup.
  - vm_compute. lia.
Defined.

Lemma push_adds_element_witness :
  ∃ t', owns Z unit nat ex_pushed 1 t'
    ∧ elems Z t' ≡ₚ 7%Z :: elems Z ex_heap_tree
    ∧ (∃ k, int_size 1%positive ex_heap = (ex_heap, Ok k)
            ∧ int_size 1%positive ex_pushed = (ex_pushed, Ok (k + 1)%Z))
    ∧ ∀ q2 t2, q2 ≠ 1%positive →
        owns Z unit nat ex_heap q2 t2 → owns Z unit nat ex_pushed q2 t2.
Proof.
  apply (push_adds_element Z unit unit nat tt int_call int_copy int_max_nodes
           ex_heap 1 ex_heap_tree 7%Z ex_pushed int_max_nodes_fits
           ex_heap_reachable ex_heap_owns).
  by vm_compute.
Defined.

Lemma push_outcomes_witness :
  ∃ s' x, int_push 1%positive 7%Z ex_heap = (s', x)
    ∧ (x = Ok tt
       ∨ (x = Throw bad_alloc ∧ int_max_nodes ≤ node_count Z unit nat ex_heap
          ∨ (∃ u w', x = Throw (thrown u)
                     ∧ int_copy 7%Z (world Z unit nat ex_heap) = (w', Some u))
          ∨ x = Throw runtime_error)
         ∧ nodes Z unit nat s' = nodes Z unit nat ex_heap
         ∧ queues Z unit nat s' = queues Z unit nat ex_heap).
Proof.
  apply (push_outcomes Z unit unit nat tt int_call int_copy int_max_nodes
           ex_heap 1 (mkPq unit (Some 3%positive) 4 tt) 7%Z
           int_max_nodes_fits ex_heap_reachable).
  by vm_compute.
Defined.

Lemma pop_removes_top_witness :
  ∃ v t', int_top 1%positive ex_heap = (ex_heap, Ok v)
    ∧ owns Z unit nat ex_popped 1 t'
    ∧ elems Z ex_heap_tree ≡ₚ v :: elems Z t'
    ∧ (∃ k, int_size 1%positive ex_heap = (ex_heap, Ok k)
            ∧ int_size 1%positive ex_popped = (ex_popped, Ok (k - 1)%Z))
    ∧ ∀ q2 t2, q2 ≠ 1%positive →
        owns Z unit nat ex_heap q2 t2 → owns Z unit nat ex_popped q2 t2.
Proof.
  apply (pop_removes_top Z unit unit nat tt int_call int_copy int_max_nodes
           ex_heap 1 ex_heap_tree ex_popped int_max_nodes_fits
           ex_heap_reachable ex_heap_owns).
  by vm_compute.
Defined.

Lemma pop_outcomes_witness :
  ∃ s' x, int_pop 1%positive ex_empty = (s', x)
    ∧ (x = Ok tt ∧ 0%Z ≠ 0%Z
       ∨ x = Throw container_is_empty ∧ 0%Z = 0%Z ∧ s' = ex_empty
       ∨ x = Throw runtime_error ∧ 0%Z ≠ 0%Z
         ∧ nodes Z unit nat s' = nodes Z unit nat ex_empty
         ∧ queues Z unit nat s' = queues Z unit nat ex_empty).
Proof.
  apply (pop_outcomes Z unit unit nat tt int_call int_copy int_max_nodes
           ex_empty 1 (mkPq unit None 0 tt) int_max_nodes_fits).
  - apply run_from_reachable.
  - by vm_compute.
Defined.

Lemma merge_outcomes_witness :
  ∃ s' x, int_merge 1%positive 2%positive ex_two = (s', x)
    ∧ (x = Ok tt
       ∨ x = Throw runtime_error
         ∧ nodes Z unit nat s' = nodes Z unit nat ex_two
         ∧ queues Z unit nat s' = queues Z unit nat ex_two)
    ∧ ∀ q3 t3, q3 ≠ 1%positive → q3 ≠ 2%positive →
        owns Z unit nat ex_two q3 t3 → owns Z unit nat s' q3 t3.
Proof.
  apply (merge_outcomes Z unit unit nat tt int_call int_copy int_max_nodes
           ex_two 1 2 int_max_nodes_fits).
  - apply run_from_reachable.
  - done.
  - exists (mkPq unit (Some 2%positive) 2 tt). by vm_compute.
  - exists (mkPq unit (Some 4%positive) 2 tt). by vm_compute.
Defined.


(** After [push(7)] the top of [ex_heap] is still 8. *)
Lemma top_after_push_witness :
  (8 <? 7)%Z = false
  ∧ ∀ v, int_top 1%positive ex_heap = (ex_heap, Ok v) → (8 <? v)%Z = false.
Proof.
  apply (top_after_push Z unit unit nat tt int_call int_copy
           int_max_nodes Z.ltb int_call_sound Zltb_asym Zltb_negtrans
           ex_heap 1 7%Z ex_pushed 8%Z int_max_nodes_fits ex_heap_reachable).
  - by vm_compute.
  - by vm_compute.
Defined.

Lemma copy_construct_copies_witness :
  ∃ t', owns Z unit nat ex_copied 2 t'
    ∧ elems Z t' = elems Z ex_heap_tree
    ∧ (∀ p, p ∈ addrs Z t' → nodes Z unit nat ex_heap !! p = None)
    ∧ (∃ k, int_size 1%positive ex_heap = (ex_heap, Ok k)
            ∧ int_size 2%positive ex_copied = (ex_copied, Ok k))
    ∧ ∀ q2 t2, owns Z unit nat ex_heap q2 t2 → owns Z unit nat ex_copied q2 t2.
Proof.
  apply (copy_construct_copies Z unit unit nat tt int_call int_copy
           int_max_nodes ex_heap 2 1 ex_heap_tree ex_copied
           int_max_nodes_fits ex_heap_reachable ex_heap_owns).
  by vm_compute.
Defined.

Lemma assign_copies_witness :
  1%positive = 1%positive
  ∧ ∃ t' ob, owns Z unit nat ex_assigned 1 t'
      ∧ elems Z t' = elems Z ex_two_tree2
      ∧ queues Z unit nat ex_two !! 2%positive = Some ob
      ∧ queues Z unit nat ex_assigned !! 1%positive
        = Some (mkPq unit (rootp Z t') (cnt unit ob) (comp unit ob))
      ∧ (∀ p, p ∈ addrs Z t' → nodes Z unit nat ex_two !! p = None)
      ∧ (∀ p, p ∈ addrs Z ex_two_tree1 → nodes Z unit nat ex_assigned !! p = None)
      ∧ ∀ q2 t2, q2 ≠ 1%positive →
          owns Z unit nat ex_two q2 t2 → owns Z unit nat ex_assigned q2 t2.
Proof.
  apply (assign_copies Z unit unit nat tt int_call int_copy int_max_nodes
           ex_two 1 2 ex_two_tree1 ex_two_tree2 ex_assigned 1
           int_max_nodes_fits).
  - apply run_from_reachable.
  - done.
  - apply ex_two_owns1.
  - apply ex_two_owns2.
  - by vm_compute.
Defined.

(** The copy of queue 1 of [ex_spent] runs out of nodes. *)
Lemma copy_failure_keeps_queues_witness :
  queues Z unit nat ex_copy_failed = queues Z unit nat ex_spent
  ∧ ∀ q2 t2, owns Z unit nat ex_spent q2 t2 → owns Z unit nat ex_copy_failed q2 t2.
Proof.
  apply (copy_failure_keeps_queues Z unit unit nat tt int_call int_copy
           int_max_nodes ex_spent 3 1 ex_copy_failed bad_alloc
           int_max_nodes_fits).
  - apply run_from_reachable.
  - exists (mkPq unit (Some 3%positive) 4 tt). by vm_compute.
  - left. by vm_compute.
Defined.

Lemma destroy_frees_queue_witness :
  ∃ s', int_destroy 1%positive ex_heap = (s', Ok tt)
    ∧ queues Z unit nat s' !! 1%positive = None
    ∧ (∀ p, p ∈ addrs Z ex_heap_tree → nodes Z unit nat s' !! p = None)
    ∧ node_count Z unit nat s' + length (elems Z ex_heap_tree)
      = node_count Z unit nat ex_heap
    ∧ ∀ q2 t2, q2 ≠ 1%positive →
        owns Z unit nat ex_heap q2 t2 → owns Z unit nat s' q2 t2.
Proof.
  apply (destroy_frees_queue Z unit unit nat tt int_call int_copy int_max_nodes
           ex_heap 1 ex_heap_tree int_max_nodes_fits ex_heap_reachable
           ex_heap_owns).
Defined.

(** The failed copy of [ex_spent] leaves three nodes behind. *)
Lemma failed_copy_leaks_witness :
  queues Z unit nat ex_copy_failed = queues Z unit nat ex_spent
  ∧ dom (nodes Z unit nat ex_spent) ⊆ dom (nodes Z unit nat ex_copy_failed)
  ∧ node_count Z unit nat ex_spent < node_count Z unit nat ex_copy_failed.
Proof.
  apply (failed_copy_leaks Z unit unit nat int_copy int_max_nodes
           ex_spent 3 1 (mkPq unit (Some 3%positive) 4 tt) 3
           (mkNode Z 8%Z (Some 1%positive) (Some 4%positive) 2) 0
           ex_copy_failed bad_alloc).
  - by vm_compute.
  - done.
  - by vm_compute.
  - vm_compute. lia.
  - by vm_compute.
  - by vm_compute.
Defined.
